(** * Verification of the hypex5 REST controllers

    Shallow embedding of the three Express routers of the repository
    (products, product variations, site settings) and of the claims the
    specification makes about them.

    The routers talk to a hosted database and object store through the
    [supabase] client.  Every such call is an explicit node of a small
    free monad ([Prog]); the answer of the service is the argument of the
    continuation, so a statement proved with [always] holds whatever the
    service answers, and [run] executes a handler against any concrete
    service. *)

From stdpp Require Import gmap strings list fin_maps pretty.
From Stdlib Require Import Ascii ZArith Lia.

Set Warnings "-register-all".


(** ** JavaScript values *)

(** JSON-like values handled by the controllers.  [VNum] holds the
    integer literals of the source; the result of [Number(...)] on form
    input is left uninterpreted (see [Number] below). *)
Inductive Val : Type :=
| VUndef
| VNull
| VBool (b : bool)
| VNum (n : Z)
| VStr (s : string)
| VArr (l : list Val)
| VObj (m : gmap string Val).

(** A plain JS object: a row of a table, a request body, a JSON body. *)
Abbreviation Obj := (gmap string Val).

(** [Boolean(v)] / the test of [if (v)], [v || w], [!v]. *)
Definition truthy (v : Val) : bool :=
  match v with
  | VUndef | VNull => false
  | VBool b => b
  | VNum n => negb (n =? 0)%Z
  | VStr s => negb (String.eqb s "")
  | VArr _ | VObj _ => true
  end.

(** [a || b] *)
Definition js_or (a b : Val) : Val := if truthy a then a else b.

(** [o.f] on an object that is known to be one; a missing property reads
    [undefined]. *)
Definition prop (o : Obj) (f : string) : Val := default VUndef (o !! f).

(** [Array.isArray(v) && v.length] as a test. *)
Definition nonempty_array (v : Val) : option (list Val) :=
  match v with
  | VArr (x :: l) => Some (x :: l)
  | _ => None
  end.

(** [s.includes(sub)] for a non-empty literal [sub]. *)
Definition includes (sub s : string) : bool :=
  match String.index 0 sub s with Some _ => true | None => false end.

(** [opt?.includes(sub)] used as a condition: [undefined] is falsy. *)
Definition opt_includes (sub : string) (s : option string) : bool :=
  match s with Some s => includes sub s | None => false end.

(** [/^(http|https):\/\//.test(s)] *)
Definition is_http_url (s : string) : bool :=
  String.prefix "http://" s || String.prefix "https://" s.

(** [sep]-separated pieces of [s], as [s.split(sep)] for a one-character
    separator: always at least one piece. *)
Fixpoint split_on (sep : ascii) (s : string) : list string :=
  match s with
  | EmptyString => [ "" ]
  | String c s' =>
      if Ascii.eqb c sep then "" :: split_on sep s'
      else match split_on sep s' with
           | p :: ps => String c p :: ps
           | [] => [ String c "" ]
           end
  end.

(** ** Errors, files, requests and responses *)

(** The error objects of the client library and of the runtime: the
    handlers read [message], [code], [statusCode] and [stack]. *)
Record JsError : Type := mkErr {
  message : option string;
  code : option string;
  statusCode : option string;
  stack : option string
}.

(** [new TypeError(msg)] raised by the runtime itself. *)
Definition type_error (msg : string) : JsError :=
  mkErr (Some msg) None None None.

Definition opt_str (o : option string) : Val :=
  match o with Some s => VStr s | None => VUndef end.

(** The error object seen as a value (for [detail: e.message || e]),
    reduced to the properties the handlers read. *)
Definition err_val (e : JsError) : Val :=
  VObj (list_to_map
    [ ("message", opt_str (message e)); ("code", opt_str (code e));
      ("statusCode", opt_str (statusCode e)) ]).

(** A file parsed by the multipart middleware (memory storage). *)
Record File : Type := mkFile {
  originalname : string;
  mimetype : string;
  buffer : list nat
}.

(** One value of [req.query]: the query-string parser yields a string, or
    an array of strings for a repeated parameter. *)
Inductive QVal : Type :=
| QStr (s : string)
| QArr (l : list string).

Record Request : Type := mkReq {
  authorization : option string;  (* req.headers.authorization *)
  user : option Obj;              (* req.user *)
  params : gmap string string;    (* req.params *)
  query : gmap string QVal;       (* req.query *)
  body : Obj;                     (* req.body *)
  files : option (list File);     (* req.files *)
  file : option File              (* req.file *)
}.

(** [res.status(s).json(b)]; [res.json(b)] is status 200.  The body is the
    object handed to [json]. *)
Record Response : Type := mkResp {
  status : nat;
  json : Obj
}.

(** ** Calls against the managed backend *)

(** What a query does to its table. *)
Inductive DbAction : Type :=
| Insert (rows : list Obj)
| Select (columns : string)
| Update (changes : Obj)
| Delete.

(** One link of the query-builder chain after the action. *)
Inductive Clause : Type :=
| Eq (column : string) (v : Val)
| ILike (column : string) (pattern : string)
| In_ (column : string) (vs : list Val)
| Contains (column : string) (vs : list Val)
| Gte (column : string) (v : Val)
| Gt (column : string) (v : Val)
| Lte (column : string) (v : Val)
| Order (column : string) (ascending : option bool)
| Limit (n : nat)
| Returning.   (* [.select()] chained after insert or update *)

(** [supabase.from(table).<action>.<clauses>] *)
Record DbQuery : Type := mkQuery {
  from : string;
  action : DbAction;
  clauses : list Clause
}.

(** [{ data, error }] as every awaited query resolves to. *)
Record DbResp (D : Type) : Type := mkDbResp {
  data : option D;
  error : option JsError
}.
Arguments mkDbResp {D} _ _.
Arguments data {D} _.
Arguments error {D} _.

(** The object [getPublicUrl] returns: [pub.data.publicUrl] in the
    current client and [pub.publicURL] in the old one.  The object is
    taken to carry [data], as the current client always returns it; a
    [publicUrl] it lacks reads [undefined].  (The settings uploads
    destructure [data] at once and would throw on an object without
    it.) *)
Record PubResp : Type := mkPub {
  data_publicUrl : Val;
  publicURL : Val
}.

(** The [{ data: signed, error: signErr }] of [createSignedUrl], reduced
    to [signed?.signedURL] and [signErr]. *)
Record SignedResp : Type := mkSigned {
  signedURL : Val;
  signErr : option JsError
}.

(** An awaited call either resolves to a value or rejects (throws). *)
Inductive Outcome (A : Type) : Type :=
| Ok (a : A)
| Thrown (e : JsError).
Arguments Ok {A} _.
Arguments Thrown {A} _.

(** The calls a handler can make.  [CDbOne] is a query ended by
    [.single()] (one row or an error), [CDbMany] any other awaited
    query; [CNow] is [Date.now()]. *)
Inductive Call : Type :=
| CDbOne (q : DbQuery)
| CDbMany (q : DbQuery)
| CUpload (bucket key : string) (f : File)
| CPublicUrl (bucket : string) (key : Val)
| CSignedUrl (bucket : string) (key : Val) (expiresIn : Z)
| CNow.

(** What each call answers. *)
Definition resp_ty (c : Call) : Type :=
  match c with
  | CDbOne _ => Outcome (DbResp Obj)
  | CDbMany _ => Outcome (DbResp (list Obj))
  | CUpload _ _ _ => Outcome (option JsError)   (* result.error *)
  | CPublicUrl _ _ => Outcome PubResp
  | CSignedUrl _ _ _ => Outcome SignedResp
  | CNow => nat
  end.

(** A call together with the answer it got. *)
Record Event : Type := Ev { ev_call : Call; ev_resp : resp_ty ev_call }.

(** ** Handlers as programs over the calls *)

Inductive Prog (A : Type) : Type :=
| Ret (a : A)
| Do (c : Call) (k : resp_ty c -> Prog A).
Arguments Ret {A} _.
Arguments Do {A} _ _.

Fixpoint pbind {A B : Type} (p : Prog A) (f : A -> Prog B) : Prog B :=
  match p with
  | Ret a => f a
  | Do c k => Do c (fun r => pbind (k r) f)
  end.

(** Code that may throw: the body of an [async] function. *)
Abbreviation M A := (Prog (Outcome A)).

Definition ret {A : Type} (a : A) : M A := Ret (Ok a).
Definition throw {A : Type} (e : JsError) : M A := Ret (Thrown e).

Definition bind {A B : Type} (m : M A) (f : A -> M B) : M B :=
  pbind m (fun o => match o with Ok a => f a | Thrown e => Ret (Thrown e) end).

(** [try { m } catch (e) { h e }] *)
Definition try_catch {A : Type} (m : M A) (h : JsError -> M A) : M A :=
  pbind m (fun o => match o with Ok a => Ret (Ok a) | Thrown e => h e end).

Notation "'let*' x ':=' m 'in' k" := (bind m (fun x => k))
  (at level 10, x name, m at level 100, k at level 200).

Definition db_one (q : DbQuery) : M (DbResp Obj) := Do (CDbOne q) Ret.
Definition db_many (q : DbQuery) : M (DbResp (list Obj)) := Do (CDbMany q) Ret.
Definition storage_upload (bucket key : string) (f : File) : M (option JsError) :=
  Do (CUpload bucket key f) Ret.
Definition getPublicUrl (bucket : string) (key : Val) : M PubResp :=
  Do (CPublicUrl bucket key) Ret.
Definition createSignedUrl (bucket : string) (key : Val) (expiresIn : Z) : M SignedResp :=
  Do (CSignedUrl bucket key expiresIn) Ret.
Definition date_now : M nat := Do CNow (fun n => Ret (Ok n)).

(** [await Promise.all(l.map(f))]: the bodies are issued from left to
    right; calls are recorded in the order each body makes them, one
    body after the other (the runtime may interleave the calls of two
    bodies; what each body gets and returns does not depend on it). *)
Fixpoint mapM {A B : Type} (f : A -> M B) (l : list A) : M (list B) :=
  match l with
  | [] => ret []
  | x :: l' => let* y := f x in let* ys := mapM f l' in ret (y :: ys)
  end.

(** Running a program against a service with state [W]. *)
Section Run.
Context {W : Type} (respond : W -> forall c : Call, resp_ty c * W).

Fixpoint run {A : Type} (p : Prog A) (w : W) : A * list Event * W :=
  match p with
  | Ret a => (a, [], w)
  | Do c k =>
      let '(r, w1) := respond w c in
      let '(a, tr, w2) := run (k r) w1 in
      (a, Ev c r :: tr, w2)
  end.
End Run.

(** [always p Q]: whatever the service answers, [p] ends with a result
    and a sequence of calls satisfying [Q]. *)
Fixpoint always {A : Type} (p : Prog A) (Q : A -> list Event -> Prop) : Prop :=
  match p with
  | Ret a => Q a []
  | Do c k => forall r : resp_ty c, always (k r) (fun a tr => Q a (Ev c r :: tr))
  end.


(** ** More of the JavaScript the handlers rely on *)

(** [arr.join(",")] on strings. *)
Fixpoint join_comma (l : list string) : string :=
  match l with
  | [] => ""
  | [s] => s
  | s :: l' => s +:+ "," +:+ join_comma l'
  end.

(** [String(v)], as a template literal or a property key converts [v].
    Numbers are integers here, written with all their digits (the
    exponent form JavaScript uses from 1e21 on is left out). *)
Fixpoint to_str (v : Val) : string :=
  match v with
  | VUndef => "undefined"
  | VNull => "null"
  | VBool true => "true"
  | VBool false => "false"
  | VNum n => pretty n
  | VStr s => s
  | VArr l =>
      join_comma (map (fun x => match x with
                                | VUndef | VNull => ""
                                | _ => to_str x
                                end) l)
  | VObj _ => "[object Object]"
  end.

(** [String(q)] for a query-string value. *)
Definition qval_str (q : QVal) : string :=
  match q with
  | QStr s => s
  | QArr l => join_comma l
  end.

(** The test [if (q)] on an optional query-string value. *)
Definition qtruthy (q : option QVal) : bool :=
  match q with
  | None => false
  | Some (QStr s) => negb (String.eqb s "")
  | Some (QArr _) => true
  end.

(** The white space [trim] removes.  Strings are held as their UTF-8
    bytes, so a character is one, two or three bytes long.  In one
    byte: tab, line feed, vertical tab, form feed, carriage return and
    space. *)
Definition is_space (c : ascii) : bool :=
  let n := nat_of_ascii c in
  (Nat.leb 9 n && Nat.leb n 13) || Nat.eqb n 32.

(** In two bytes: the no-break space U+00A0. *)
Definition is_space2 (a b : ascii) : bool :=
  Nat.eqb (nat_of_ascii a) 194 && Nat.eqb (nat_of_ascii b) 160.

(** In three bytes: U+1680, U+2000 to U+200A, the line and paragraph
    separators U+2028 and U+2029, U+202F, U+205F, U+3000 and the byte
    order mark U+FEFF. *)
Definition is_space3 (a b c : ascii) : bool :=
  let x := nat_of_ascii a in
  let y := nat_of_ascii b in
  let z := nat_of_ascii c in
  (Nat.eqb x 225 && Nat.eqb y 154 && Nat.eqb z 128)
  || (Nat.eqb x 226 && Nat.eqb y 128
      && ((Nat.leb 128 z && Nat.leb z 138) || Nat.eqb z 168 || Nat.eqb z 169
          || Nat.eqb z 175))
  || (Nat.eqb x 226 && Nat.eqb y 129 && Nat.eqb z 159)
  || (Nat.eqb x 227 && Nat.eqb y 128 && Nat.eqb z 128)
  || (Nat.eqb x 239 && Nat.eqb y 187 && Nat.eqb z 191).

(** [s.trim() === '']: the string is made of white space only. *)
Fixpoint all_space (s : string) : bool :=
  match s with
  | EmptyString => true
  | String a s1 =>
      if is_space a then all_space s1
      else
        match s1 with
        | String b s2 =>
            if is_space2 a b then all_space s2
            else
              match s2 with
              | String c s3 => is_space3 a b c && all_space s3
              | EmptyString => false
              end
        | EmptyString => false
        end
  end.

(** [q.split(',').filter(x => x.trim() !== '')]; [split] only exists on
    strings, on an array the call throws. *)
Definition split_list (name : string) (q : QVal) : Outcome (list string) :=
  match q with
  | QStr s => Ok (filter (fun x => all_space x = false) (split_on "," s))
  | QArr _ => Thrown (type_error (name +:+ ".split is not a function"))
  end.

(** [(name && name.split('.').pop()) || 'jpg'] *)
Definition file_ext (name : string) : string :=
  if String.eqb name "" then "jpg"
  else match last (split_on "." name) with
       | Some e => if String.eqb e "" then "jpg" else e
       | None => "jpg"
       end.

(** [x === 'lit'] for an error code or status. *)
Definition is_str (lit : string) (o : option string) : bool :=
  match o with Some s => String.eqb s lit | None => false end.

(** [{ ...o }] of a possibly [null] object. *)
Definition spread (o : option Obj) : Obj := default ∅ o.

(** [res.json(b)] and [res.status(s).json(b)]. *)
Definition res_json (b : Obj) : Response := mkResp 200 b.
Definition res_status_json (s : nat) (b : Obj) : Response := mkResp s b.

(** [{ error: e.message }] *)
Definition error_body (e : JsError) : Obj := {[ "error" := opt_str (message e) ]}.

(** ** The upload loop

    The four handlers that accept image files run the same loop; only the
    key prefix ([products/<id>] or [variations/<product_id>]) differs.
    [break] ends the loop with the keys uploaded so far, [return res...]
    ends the handler. *)

Inductive LoopEnd : Type :=
| Uploaded (imageKeys : list string)
| Responded (r : Response).

(** The storage errors after which the row is written without images. *)
Definition storage_policy_error (e : JsError) : bool :=
  is_str "403" (statusCode e) || is_str "500" (statusCode e)
  || opt_includes "row-level security" (message e)
  || opt_includes "policy" (message e)
  || opt_includes "Internal Server Error" (message e).

Fixpoint upload_loop (prefix : string) (i : nat) (files : list File)
    (imageKeys : list string) : M LoopEnd :=
  match files with
  | [] => ret (Uploaded imageKeys)
  | f :: rest =>
      let ext := file_ext (originalname f) in
      let* now := date_now in
      let key := prefix +:+ "/" +:+ pretty now +:+ "_" +:+ pretty i +:+ "." +:+ ext in
      let* result_error := storage_upload "product_images" key f in
      match result_error with
      | Some e =>
          if storage_policy_error e then ret (Uploaded imageKeys)
          else ret (Responded (res_status_json 500
                 {[ "error" := VStr "Erro ao fazer upload das imagens";
                    "detail" := js_or (opt_str (message e)) (err_val e) ]}))
      | None => upload_loop prefix (S i) rest (imageKeys ++ [key])
      end
  end.

(** ** controllers/products.js *)

Module Products.

(** [typeof key === 'string' && /^(http|https):\/\//.test(key)] *)
Definition already_url (key : Val) : bool :=
  match key with
  | VStr s => is_http_url s
  | _ => false
  end.

(** [pub?.data?.publicUrl || pub?.publicURL || null] *)
Definition pub_or_null (pub : PubResp) : Val :=
  js_or (js_or (data_publicUrl pub) (publicURL pub)) VNull.

(** Helper [makeAccessibleUrl(key)]. *)
Definition makeAccessibleUrl (key : Val) : M Val :=
  try_catch
    (if negb (truthy key) then ret VNull
     else if already_url key then ret key
     else
       let* pub := getPublicUrl "product_images" key in
       if truthy (data_publicUrl pub) then ret (data_publicUrl pub)
       else if truthy (publicURL pub) then ret (publicURL pub)
       else
         let expiresIn := (60 * 60)%Z in
         let* signed := createSignedUrl "product_images" key expiresIn in
         match signErr signed with
         | Some _ => ret (pub_or_null pub)
         | None =>
             if truthy (signedURL signed) then ret (signedURL signed)
             else ret (pub_or_null pub)
         end)
    (fun e =>
       try_catch
         (let* pub := getPublicUrl "product_images" key in
          ret (pub_or_null pub))
         (fun e2 => ret VNull)).

(** The arrow function mapped over a variation's images: public URL
    only. *)
Definition variation_image_url (imgKey : Val) : M Val :=
  try_catch
    (let* pub := getPublicUrl "product_images" imgKey in
     if truthy (data_publicUrl pub) then ret (data_publicUrl pub)
     else if truthy (publicURL pub) then ret (publicURL pub)
     else ret VNull)
    (fun e => ret VNull).

(** [clone.image = clone.images.length ? clone.images[0] : null] *)
Definition first_or_null (images : list Val) : Val :=
  match images with
  | [] => VNull
  | u :: _ => u
  end.

(** Helper [variationWithAccessibleImages(variation)] of this file. *)
Definition variationWithAccessibleImages (variation : Obj) : M Obj :=
  let clone := variation in
  let* images :=
    match nonempty_array (prop clone "images") with
    | Some keys =>
        let* urls := mapM variation_image_url keys in
        ret (filter (fun u => truthy u = true) urls)
    | None => ret []
    end in
  let clone := <[ "images" := VArr images ]> clone in
  let clone := <[ "image" := first_or_null images ]> clone in
  ret clone.

Definition variations_query (product_id : Val) : DbQuery :=
  mkQuery "product_variations" (Select "*")
    [ Eq "product_id" product_id; Eq "is_active" (VBool true);
      Order "color" (Some true); Order "size" (Some true) ].

(** Helper [productWithAccessibleImages(product, includeVariations)]. *)
Definition productWithAccessibleImages (product : option Obj)
    (includeVariations : bool) : M Obj :=
  let clone := spread product in
  let* images :=
    match nonempty_array (prop clone "images") with
    | Some keys =>
        let* urls := mapM makeAccessibleUrl keys in
        ret (filter (fun u => truthy u = true) urls)
    | None => ret []
    end in
  let clone := <[ "images" := VArr images ]> clone in
  let clone := <[ "image" := first_or_null images ]> clone in
  if includeVariations && truthy (prop clone "id") then
    try_catch
      (let* r := db_many (variations_query (prop clone "id")) in
       match error r, data r with
       | None, Some variations =>
           let* variationsWithUrls := mapM variationWithAccessibleImages variations in
           ret (<[ "variations" := VArr (VObj <$> variationsWithUrls) ]> clone)
       | _, _ => ret clone
       end)
      (fun err => ret (<[ "variations" := VArr [] ]> clone))
  else ret clone.

(** [!prod.images || prod.images.length === 0] *)
Definition no_images (images : Val) : bool :=
  negb (truthy images) || match images with VArr [] => true | _ => false end.

(** [req.user && req.user.role === 'admin'] *)
Definition is_admin (req : Request) : bool :=
  match user req with
  | Some u => match prop u "role" with
              | VStr r => String.eqb r "admin"
              | _ => false
              end
  | None => false
  end.

Section Router.
(** [Number(v)] on form input yields a double; it is not interpreted
    here.  [jwt_verify token] is [jwt.verify(token, secret)]: the
    payload, or [None] when it throws. *)
Context (Number : Val -> Val) (jwt_verify : string -> option Obj).

(** The [router.use] in front of every route of this file. *)
Definition attach_user (req : Request) : Request :=
  match authorization req with
  | Some auth =>
      if String.eqb auth "" then req
      else
        match split_on " " auth !! 1%nat with
        | Some token =>
            match jwt_verify token with
            | Some payload =>
                mkReq (authorization req) (Some payload) (params req)
                  (query req) (body req) (files req) (file req)
            | None => req
            end
        | None => req   (* verify throws on a missing token *)
        end
  | None => req
  end.

(** [Number(v || 0)] *)
Definition number_or_zero (v : Val) : Val := Number (js_or v (VNum 0)).

(** [router.post('/')]: create a product with up to five images. *)
Definition post (req : Request) : M Response :=
  try_catch
    (let b := body req in
     let sizes := prop b "sizes" in
     let sizesArray :=
       if truthy sizes then
         match sizes with
         | VArr l => l
         | VStr s => [ VStr s ]
         | _ => []
         end
       else [] in
     let productInsert : Obj :=
       list_to_map
         [ ("name", prop b "name");
           ("description", prop b "description");
           ("price", number_or_zero (prop b "price"));
           ("stock", number_or_zero (prop b "stock"));
           ("type", js_or (prop b "type") VNull);
           ("color", js_or (prop b "color") VNull);
           ("brand", js_or (prop b "brand") VNull);
           ("sizes", VArr sizesArray) ] in
     let* r := db_one (mkQuery "products" (Insert [ productInsert ]) [ Returning ]) in
     match error r with
     | Some prodErr => ret (res_status_json 400 (error_body prodErr))
     | None =>
         let prod := data r in
         let fs := default [] (files req) in
         let* prefix :=
           match fs, prod with
           | [], _ => ret ""
           | _ :: _, Some p => ret ("products/" +:+ to_str (prop p "id"))
           | _ :: _, None =>
               throw (type_error "Cannot read properties of null (reading 'id')")
           end in
         let* up := upload_loop prefix 0 fs [] in
         match up with
         | Responded resp => ret resp
         | Uploaded imageKeys =>
             let* prod :=
               match imageKeys, prod with
               | _ :: _, Some p =>
                   let* u := db_one (mkQuery "products"
                               (Update {[ "images" := VArr (VStr <$> imageKeys) ]})
                               [ Eq "id" (prop p "id"); Returning ]) in
                   match error u, data u with
                   | Some updateErr, _ => ret (Some p)
                   | None, Some updatedProd =>
                       ret (Some (<[ "images" := prop updatedProd "images" ]> p))
                   | None, None =>
                       throw (type_error "Cannot read properties of null (reading 'images')")
                   end
               | _, _ => ret prod
               end in
             try_catch
               (let* product := productWithAccessibleImages prod false in
                if negb (bool_decide (fs = [])) && no_images (prop (spread prod) "images")
                then ret (res_json
                       {[ "product" := VObj product;
                          "warning" := VStr "Produto criado mas imagens não foram salvas. Configure as políticas de storage no Supabase." ]})
                else ret (res_json {[ "product" := VObj product ]}))
               (fun e => ret (res_json
                  {[ "product" := match prod with Some p => VObj p | None => VNull end ]}))
         end
     end)
    (fun err => ret (res_status_json 500 (error_body err))).

(** *** [router.get('/')]: the product listing *)

(** [if (!isAdmin) query = query.eq('is_active', true)] *)
Definition active_filter (req : Request) : list Clause :=
  if is_admin req then [] else [ Eq "is_active" (VBool true) ].

Definition search_filter (req : Request) : list Clause :=
  let search := query req !! "search" in
  if qtruthy search
  then [ ILike "name" ("%" +:+ from_option qval_str "" search +:+ "%") ]
  else [].

Definition qval_val (q : QVal) : Val :=
  match q with
  | QStr s => VStr s
  | QArr l => VArr (VStr <$> l)
  end.

Definition brand_filter (req : Request) : list Clause :=
  let brand := query req !! "brand" in
  if qtruthy brand
  then [ Eq "brand" (from_option qval_val VUndef brand) ]
  else [].

(** The shape shared by [brands], [types], [sizes] and [colors]:
    split on commas, drop blank pieces, add one clause when a piece
    is left. *)
Definition list_filter (param : string) (mk : list Val -> Clause)
    (req : Request) : Outcome (list Clause) :=
  match query req !! param with
  | Some q =>
      if qtruthy (Some q) then
        match split_list param q with
        | Ok arr =>
            if bool_decide (arr = []) then Ok []
            else Ok [ mk (VStr <$> arr) ]
        | Thrown e => Thrown e
        end
      else Ok []
  | None => Ok []
  end.

Definition brands_filter := list_filter "brands" (In_ "brand").
Definition types_filter := list_filter "types" (In_ "type").
Definition sizes_filter := list_filter "sizes" (Contains "sizes").
Definition colors_filter := list_filter "colors" (In_ "color").

Definition categoryTypeMap : list (string * list string) :=
  [ ("roupas", [ "camisa"; "moleton"; "vestido"; "calca"; "calca-normal";
                 "calca-jogador"; "bermuda-jeans"; "bermuda-jogador";
                 "bermuda-tectel"; "bermuda-elastano"; "blusa-times";
                 "conjunto"; "kit"; "short"; "camiseta" ]);
    ("calcados", [ "sapato" ]);
    ("acessorios", [ "bone"; "acessorio" ]) ].

(** Properties every object literal inherits: [categoryTypeMap[c]] is
    truthy for them and not iterable, so the spread throws. *)
Definition object_prototype_keys : list string :=
  [ "constructor"; "__proto__"; "hasOwnProperty"; "isPrototypeOf";
    "propertyIsEnumerable"; "toLocaleString"; "toString"; "valueOf";
    "__defineGetter__"; "__defineSetter__"; "__lookupGetter__";
    "__lookupSetter__" ].

(** The [forEach] that collects the types of the categories. *)
Fixpoint category_types (categoriesArray : list string) (allTypes : list string)
    : Outcome (list string) :=
  match categoriesArray with
  | [] => Ok allTypes
  | category :: rest =>
      match (list_to_map categoryTypeMap : gmap string (list string)) !! category with
      | Some ts => category_types rest (allTypes ++ ts)
      | None =>
          if bool_decide (category ∈ object_prototype_keys)
          then Thrown (type_error
                 "Spread syntax requires ...iterable[Symbol.iterator] to be a function")
          else category_types rest allTypes
      end
  end.

Definition categories_filter (req : Request) : Outcome (list Clause) :=
  match query req !! "categories" with
  | Some q =>
      if qtruthy (Some q) then
        match split_list "categories" q with
        | Ok categoriesArray =>
            if bool_decide (categoriesArray = []) then Ok []
            else
              match category_types categoriesArray [] with
              | Ok allTypes =>
                  if bool_decide (allTypes = []) then Ok []
                  else Ok [ In_ "type" (VStr <$> allTypes) ]
              | Thrown e => Thrown e
              end
        | Thrown e => Thrown e
        end
      else Ok []
  | None => Ok []
  end.

(** [q === 'lit'] *)
Definition q_is (lit : string) (q : option QVal) : bool :=
  match q with
  | Some (QStr s) => String.eqb s lit
  | _ => false
  end.

Definition price_filter (req : Request) : list Clause :=
  let priceRange := query req !! "priceRange" in
  if qtruthy priceRange && negb (q_is "all" priceRange) then
    if q_is "0-50" priceRange then [ Gte "price" (VNum 0); Lte "price" (VNum 50) ]
    else if q_is "50-100" priceRange then [ Gt "price" (VNum 50); Lte "price" (VNum 100) ]
    else if q_is "100-200" priceRange then [ Gt "price" (VNum 100); Lte "price" (VNum 200) ]
    else if q_is "200+" priceRange then [ Gt "price" (VNum 200) ]
    else []
  else [].

Definition discount_filter (req : Request) : list Clause :=
  let discountRange := query req !! "discountRange" in
  if qtruthy discountRange && negb (q_is "all" discountRange) then
    if q_is "10-30" discountRange then [ Gte "discount" (VNum 10); Lte "discount" (VNum 30) ]
    else if q_is "30-50" discountRange then [ Gt "discount" (VNum 30); Lte "discount" (VNum 50) ]
    else if q_is "50+" discountRange then [ Gt "discount" (VNum 50) ]
    else []
  else [].

(** [const sort = req.query.sort || 'newest'; switch (sort) ...] *)
Definition sort_clause (req : Request) : list Clause :=
  let sort := query req !! "sort" in
  let sort := if qtruthy sort then sort else Some (QStr "newest") in
  if q_is "price_asc" sort then [ Order "price" (Some true) ]
  else if q_is "price_desc" sort then [ Order "price" (Some false) ]
  else if q_is "name_asc" sort then [ Order "name" (Some true) ]
  else if q_is "name_desc" sort then [ Order "name" (Some false) ]
  else [ Order "created_at" (Some false) ].

Definition obind {A B : Type} (o : Outcome A) (f : A -> Outcome B) : Outcome B :=
  match o with
  | Ok a => f a
  | Thrown e => Thrown e
  end.

(** The query builder of the listing, in source order; a filter that
    throws ends it. *)
Definition list_clauses (req : Request) : Outcome (list Clause) :=
  obind (brands_filter req) (fun brands =>
  obind (types_filter req) (fun types =>
  obind (categories_filter req) (fun categories =>
  obind (sizes_filter req) (fun sizes =>
  obind (colors_filter req) (fun colors =>
    Ok (active_filter req ++ search_filter req ++ brand_filter req
        ++ brands ++ types ++ categories ++ sizes ++ colors
        ++ price_filter req ++ discount_filter req ++ sort_clause req)))))).

Definition get_list (req : Request) : M Response :=
  try_catch
    (match list_clauses req with
     | Thrown e => throw e
     | Ok cl =>
         let* r := db_many (mkQuery "products" (Select "*") cl) in
         match error r with
         | Some e => ret (res_status_json 500 (error_body e))
         | None =>
             let* products :=
               mapM (fun p => productWithAccessibleImages (Some p) false)
                    (default [] (data r)) in
             ret (res_json {[ "products" := VArr (VObj <$> products) ]})
         end
     end)
    (fun err => ret (res_status_json 500 (error_body err))).

(** *** [router.get('/:id')] *)

(** [error.code === 'PGRST116' || error.code === 'PGRST117'
    || /No rows/.test(error.message)] *)
Definition no_rows_error (e : JsError) : bool :=
  is_str "PGRST116" (code e) || is_str "PGRST117" (code e)
  || opt_includes "No rows" (message e).

Definition get_one (req : Request) : M Response :=
  try_catch
    (match params req !! "id" with
     | Some id =>
         if String.eqb id "" then
           ret (res_status_json 400 {[ "error" := VStr "ID do produto inválido" ]})
         else
           let* r := db_one (mkQuery "products" (Select "*")
                       (Eq "id" (VStr id) :: active_filter req)) in
           match error r, data r with
           | Some e, _ =>
               if no_rows_error e
               then ret (res_status_json 404 {[ "error" := VStr "Produto não encontrado" ]})
               else ret (res_status_json 500 (error_body e))
           | None, None =>
               ret (res_status_json 404 {[ "error" := VStr "Produto não encontrado" ]})
           | None, Some d =>
               let* product := productWithAccessibleImages (Some d) true in
               ret (res_json {[ "product" := VObj product ]})
           end
     | None => ret (res_status_json 400 {[ "error" := VStr "ID do produto inválido" ]})
     end)
    (fun err => ret (res_status_json 500 (error_body err))).

(** *** [router.put('/:id')] *)

(** [if (b[f] !== undefined) changes[f] = g(b[f])] *)
Definition set_if_present (b : Obj) (f : string) (g : Val -> Val) (changes : Obj) : Obj :=
  match b !! f with
  | Some v => <[ f := g v ]> changes
  | None => changes
  end.

Definition or_null (v : Val) : Val := js_or v VNull.

(** The array stored for a [sizes] field that is present. *)
Definition sizes_value (sizes : Val) : Val :=
  match sizes with
  | VArr l => VArr l
  | VStr s => if truthy (VStr s) then VArr [ VStr s ] else VArr []
  | _ => VArr []
  end.

Definition put_changes (b : Obj) : Obj :=
  set_if_present b "sizes" sizes_value
  (set_if_present b "brand" or_null
  (set_if_present b "color" or_null
  (set_if_present b "type" or_null
  (set_if_present b "stock" number_or_zero
  (set_if_present b "price" number_or_zero
  (set_if_present b "description" id
  (set_if_present b "name" id ∅))))))).

(** [existing?.images || []], spread in front of the new keys. *)
Definition existing_images (existing : option Obj) : Outcome (list Val) :=
  match existing with
  | None => Ok []
  | Some o =>
      let images := prop o "images" in
      if truthy images then
        match images with
        | VArr l => Ok l
        | VStr s => Ok ((fun c => VStr (String c "")) <$> String.list_ascii_of_string s)
        | _ => Thrown (type_error "existingImages is not iterable")
        end
      else Ok []
  end.

Definition id_param (req : Request) : Val :=
  from_option VStr VUndef (params req !! "id").

Definition put (req : Request) : M Response :=
  try_catch
    (let id := id_param req in
     let changes := put_changes (body req) in
     let fs := default [] (files req) in
     let* up :=
       match fs with
       | [] => ret (Uploaded [])
       | _ :: _ => upload_loop ("products/" +:+ to_str id) 0 fs []
       end in
     match up with
     | Responded resp => ret resp
     | Uploaded imageKeys =>
         let* changes :=
           match imageKeys with
           | [] => ret changes
           | _ :: _ =>
               let* e := db_one (mkQuery "products" (Select "images") [ Eq "id" id ]) in
               match existing_images (data e) with
               | Ok existingImages =>
                   ret (<[ "images" := VArr (existingImages ++ (VStr <$> imageKeys)) ]> changes)
               | Thrown err => throw err
               end
           end in
         let* r := db_one (mkQuery "products" (Update changes) [ Eq "id" id; Returning ]) in
         match error r with
         | Some e => ret (res_status_json 400 (error_body e))
         | None =>
             try_catch
               (let* product := productWithAccessibleImages (data r) false in
                if negb (bool_decide (fs = [])) && no_images (prop changes "images")
                then ret (res_json
                       {[ "product" := VObj product;
                          "warning" := VStr "Produto atualizado mas imagens não foram salvas. Configure as políticas de storage no Supabase." ]})
                else ret (res_json {[ "product" := VObj product ]}))
               (fun e => ret (res_json
                  {[ "product" := match data r with Some p => VObj p | None => VNull end ]}))
         end
     end)
    (fun err => ret (res_status_json 500 (error_body err))).

(** *** [router.delete('/:id')]: no [try] around the call *)
Definition delete (req : Request) : M Response :=
  let* r := db_many (mkQuery "products" Delete [ Eq "id" (id_param req) ]) in
  match error r with
  | Some e => ret (res_status_json 400 (error_body e))
  | None => ret (res_json {[ "ok" := VBool true ]})
  end.
End Router.

End Products.

(** ** The product-variations router (second source file) *)

Module Variations.

(** Helper [variationWithAccessibleImages(variation)] of this file: it
    rewrites [images] and leaves every other property as it came. *)
Definition variationWithAccessibleImages (variation : option Obj) : M Obj :=
  let clone := spread variation in
  let* images :=
    match nonempty_array (prop clone "images") with
    | Some keys =>
        let* urls := mapM Products.variation_image_url keys in
        ret (filter (fun u => truthy u = true) urls)
    | None => ret []
    end in
  let clone := <[ "images" := VArr images ]> clone in
  ret clone.

Section Router.
Context (Number : Val -> Val).

Definition number_or_zero (v : Val) : Val := Number (js_or v (VNum 0)).

(** [router.post('/')] *)
Definition post (req : Request) : M Response :=
  try_catch
    (let b := body req in
     let product_id := prop b "product_id" in
     let name := prop b "name" in
     if negb (truthy product_id) || negb (truthy name) then
       ret (res_status_json 400
              {[ "error" := VStr "Campos obrigatórios: product_id e name" ]})
     else
       let fs := default [] (files req) in
       let* up := upload_loop ("variations/" +:+ to_str product_id) 0 fs [] in
       match up with
       | Responded resp => ret resp
       | Uploaded imageKeys =>
           let variationInsert : Obj :=
             list_to_map
               [ ("product_id", product_id);
                 ("name", name);
                 ("color", js_or (prop b "color") VNull);
                 ("size", js_or (prop b "size") VNull);
                 ("price", number_or_zero (prop b "price"));
                 ("stock", number_or_zero (prop b "stock"));
                 ("images", VArr (VStr <$> imageKeys)) ] in
           let* r := db_one (mkQuery "product_variations"
                       (Insert [ variationInsert ]) [ Returning ]) in
           match error r with
           | Some e => ret (res_status_json 400 (error_body e))
           | None =>
               let* variationWithUrls := variationWithAccessibleImages (data r) in
               ret (res_json {[ "variation" := VObj variationWithUrls ]})
           end
       end)
    (fun err => ret (res_status_json 500 (error_body err))).

(** [router.get('/product/:product_id')] *)
Definition get_for_product (req : Request) : M Response :=
  try_catch
    (match params req !! "product_id" with
     | Some product_id =>
         if String.eqb product_id "" then
           ret (res_status_json 400 {[ "error" := VStr "ID do produto inválido" ]})
         else
           let* r := db_many (Products.variations_query (VStr product_id)) in
           match error r with
           | Some e => ret (res_status_json 500 (error_body e))
           | None =>
               let* variationsWithUrls :=
                 mapM (fun v => variationWithAccessibleImages (Some v))
                      (default [] (data r)) in
               ret (res_json {[ "variations" := VArr (VObj <$> variationsWithUrls) ]})
           end
     | None => ret (res_status_json 400 {[ "error" := VStr "ID do produto inválido" ]})
     end)
    (fun err => ret (res_status_json 500 (error_body err))).

Definition put_changes (b : Obj) : Obj :=
  Products.set_if_present b "is_active" (fun v => VBool (truthy v))
  (Products.set_if_present b "stock" number_or_zero
  (Products.set_if_present b "price" number_or_zero
  (Products.set_if_present b "size" Products.or_null
  (Products.set_if_present b "color" Products.or_null
  (Products.set_if_present b "name" id ∅))))).

(** [router.put('/:id')] *)
Definition put (req : Request) : M Response :=
  try_catch
    (let id := Products.id_param req in
     let changes := put_changes (body req) in
     let fs := default [] (files req) in
     let* up :=
       match fs with
       | [] => ret (Uploaded [])
       | _ :: _ =>
           let* e := db_one (mkQuery "product_variations" (Select "product_id")
                       [ Eq "id" id ]) in
           let product_id :=
             js_or (prop (spread (data e)) "product_id") (VStr "unknown") in
           upload_loop ("variations/" +:+ to_str product_id) 0 fs []
       end in
     match up with
     | Responded resp => ret resp
     | Uploaded imageKeys =>
         let* changes :=
           match imageKeys with
           | [] => ret changes
           | _ :: _ =>
               let* e := db_one (mkQuery "product_variations" (Select "images")
                           [ Eq "id" id ]) in
               match Products.existing_images (data e) with
               | Ok existingImages =>
                   ret (<[ "images" := VArr (existingImages ++ (VStr <$> imageKeys)) ]> changes)
               | Thrown err => throw err
               end
           end in
         let* r := db_one (mkQuery "product_variations" (Update changes)
                     [ Eq "id" id; Returning ]) in
         match error r with
         | Some e => ret (res_status_json 400 (error_body e))
         | None =>
             let* variationWithUrls := variationWithAccessibleImages (data r) in
             ret (res_json {[ "variation" := VObj variationWithUrls ]})
         end
     end)
    (fun err => ret (res_status_json 500 (error_body err))).

(** [router.delete('/:id')] *)
Definition delete (req : Request) : M Response :=
  try_catch
    (let* r := db_many (mkQuery "product_variations" Delete
                 [ Eq "id" (Products.id_param req) ]) in
     match error r with
     | Some e => ret (res_status_json 400 (error_body e))
     | None => ret (res_json {[ "ok" := VBool true ]})
     end)
    (fun err => ret (res_status_json 500 (error_body err))).
End Router.

End Variations.

(** ** The site-settings router (third source file) *)

Module Settings.

(** [/mp4|webm|ogg|avi|mov|wmv/.test(s)] *)
Definition video_type (s : string) : bool :=
  includes "mp4" s || includes "webm" s || includes "ogg" s
  || includes "avi" s || includes "mov" s || includes "wmv" s.

(** [s.toLowerCase()], within ASCII. *)
Definition lower_char (c : ascii) : ascii :=
  let n := nat_of_ascii c in
  if Nat.leb 65 n && Nat.leb n 90 then ascii_of_nat (n + 32) else c.

Fixpoint toLowerCase (s : string) : string :=
  match s with
  | EmptyString => EmptyString
  | String c s' => String (lower_char c) (toLowerCase s')
  end.

(** The condition under which [GET /] answers an empty object for a
    failed query. *)
Definition missing_table_error (e : JsError) : bool :=
  is_str "42P01" (code e) || is_str "PGRST116" (code e)
  || opt_includes "does not exist" (message e)
  || opt_includes "relation" (message e)
  || opt_includes "não existe" (message e).

(** The same test in the [catch] of [GET /]. *)
Definition missing_table_exception (e : JsError) : bool :=
  opt_includes "does not exist" (message e)
  || opt_includes "relation" (message e)
  || opt_includes "não existe" (message e)
  || is_str "42P01" (code e).

(** [settingsObj[setting.key] = { value: setting.value, type: setting.type }];
    assigning an object to [__proto__] creates no property. *)
Definition add_setting (settingsObj : Obj) (setting : Obj) : Obj :=
  let key := to_str (prop setting "key") in
  if String.eqb key "__proto__" then settingsObj
  else <[ key := VObj (list_to_map [ ("value", prop setting "value");
                                      ("type", prop setting "type") ]) ]> settingsObj.

Definition text_setting (value : string) : Val :=
  VObj (list_to_map [ ("value", VStr value); ("type", VStr "text") ]).

(** [if (!settingsObj[k]) settingsObj[k] = { value, type: 'text' }] *)
Definition ensure_setting (k value : string) (settingsObj : Obj) : Obj :=
  if truthy (prop settingsObj k) then settingsObj
  else <[ k := text_setting value ]> settingsObj.

Definition settings_object (settings : list Obj) : Obj :=
  let settingsObj := foldl add_setting ∅ settings in
  ensure_setting "site_background_video_url" ""
    (ensure_setting "site_background_value" "#f5f5f5"
      (ensure_setting "site_background_type" "color" settingsObj)).

(** The default rows of [GET /initialize]. *)
Definition defaultSettings : list (string * string) :=
  [ ("announcement_text", "Frete grátis em compras acima de R$ 199");
    ("hero_banner_title", "Nova Coleção");
    ("hero_banner_subtitle", "Até 70% OFF + 20% no primeiro pedido");
    ("site_background_type", "color");
    ("site_background_value", "#f5f5f5");
    ("site_background_video_url", "") ].

Definition default_row (d : string * string) : Obj :=
  list_to_map [ ("key", VStr d.1); ("value", VStr d.2); ("type", VStr "text") ].

(** [existingKeys.includes(k)] for a string [k]. *)
Definition key_exists (existingKeys : list Val) (k : string) : bool :=
  existsb (fun v => match v with VStr s => String.eqb s k | _ => false end) existingKeys.

Section Router.
(** [path.extname], [new Date(ms).toISOString()] and
    [process.env.NODE_ENV === 'development'] belong to the platform. *)
Context (extname : string -> string) (toISOString : nat -> string)
        (development : bool).

(** The [router.use] in front of the routes: it probes the table and
    goes on whatever the probe says. *)
Definition table_check : M unit :=
  try_catch
    (let* r := db_many (mkQuery "site_settings" (Select "key") [ Limit 1 ]) in
     ret tt)
    (fun err => ret tt).

(** [{ error: err.message, stack: development ? err.stack : undefined }] *)
Definition error_stack_body (err : JsError) : Obj :=
  {[ "error" := opt_str (message err);
     "stack" := if development then opt_str (stack err) else VUndef ]}.

(** [router.get('/')] *)
Definition get_all (req : Request) : M Response :=
  try_catch
    (let* r := db_many (mkQuery "site_settings" (Select "key, value, type")
                 [ Order "key" None ]) in
     match error r with
     | Some e =>
         if missing_table_error e then ret (res_json {[ "settings" := VObj ∅ ]})
         else ret (res_status_json 500
                {[ "error" := opt_str (message e); "code" := opt_str (code e) ]})
     | None =>
         ret (res_json {[ "settings" := VObj (settings_object (default [] (data r))) ]})
     end)
    (fun err =>
       if missing_table_exception err then ret (res_json {[ "settings" := VObj ∅ ]})
       else ret (res_status_json 500 (error_stack_body err))).

Definition key_param (req : Request) : Val :=
  from_option VStr VUndef (params req !! "key").

(** [router.get('/:key')] *)
Definition get_key (req : Request) : M Response :=
  try_catch
    (let* r := db_one (mkQuery "site_settings" (Select "key, value, type")
                 [ Eq "key" (key_param req) ]) in
     match error r, data r with
     | None, Some setting => ret (res_json {[ "setting" := VObj setting ]})
     | _, _ => ret (res_status_json 404 {[ "error" := VStr "Configuração não encontrada" ]})
     end)
    (fun err => ret (res_status_json 500 (error_body err))).

(** [req.user.id]; reading it throws when no user is attached. *)
Definition user_id (req : Request) : M Val :=
  match user req with
  | Some u => ret (prop u "id")
  | None => throw (type_error "Cannot read properties of undefined (reading 'id')")
  end.

Definition row_val (o : option Obj) : Val :=
  match o with Some r => VObj r | None => VNull end.

(** [router.put('/:key')] *)
Definition put_key (req : Request) : M Response :=
  try_catch
    (let key := key_param req in
     match body req !! "value" with
     | None => ret (res_status_json 400 {[ "error" := VStr "Valor é obrigatório" ]})
     | Some value =>
         let* now := date_now in
         let* uid := user_id req in
         let* r := db_one (mkQuery "site_settings"
                     (Update (list_to_map
                        [ ("value", value);
                          ("updated_at", VStr (toISOString now));
                          ("updated_by", uid) ]))
                     [ Eq "key" key; Returning ]) in
         match error r with
         | Some updateError =>
             if is_str "PGRST116" (code updateError) then
               let* uid := user_id req in
               let* c := db_one (mkQuery "site_settings"
                           (Insert [ list_to_map
                              [ ("key", key); ("value", value);
                                ("type", VStr "text"); ("updated_by", uid) ] ])
                           [ Returning ]) in
               match error c with
               | Some createError => ret (res_status_json 500 (error_body createError))
               | None =>
                   ret (res_json {[ "setting" := row_val (data c);
                                    "message" := VStr "Configuração criada com sucesso" ]})
               end
             else ret (res_status_json 500 (error_body updateError))
         | None =>
             ret (res_json {[ "setting" := row_val (data r);
                              "message" := VStr "Configuração atualizada com sucesso" ]})
         end
     end)
    (fun err => ret (res_status_json 500 (error_body err))).

(** [router.post('/:key/upload')] *)
Definition post_upload (req : Request) : M Response :=
  try_catch
    (let key := key_param req in
     match file req with
     | None => ret (res_status_json 400 {[ "error" := VStr "Nenhuma imagem enviada" ]})
     | Some f =>
         let* s := db_one (mkQuery "site_settings" (Select "key, type")
                     [ Eq "key" key ]) in
         match data s with
         | None => ret (res_status_json 404 {[ "error" := VStr "Configuração não encontrada" ]})
         | Some _ =>
             let* now := date_now in
             let filePath := to_str key +:+ "_" +:+ pretty now +:+ extname (originalname f) in
             let* uploadError := storage_upload "product_images" filePath f in
             match uploadError with
             | Some e =>
                 if is_str "403" (statusCode e) || opt_includes "row-level security" (message e)
                 then ret (res_status_json 403
                        {[ "error" := VStr "Upload bloqueado pelas políticas de segurança do Supabase Storage.";
                           "hint" := VStr "Configure as políticas RLS do bucket product_images no painel do Supabase.";
                           "details" := opt_str (message e) ]})
                 else ret (res_status_json 500
                        {[ "error" := VStr "Erro ao fazer upload da imagem";
                           "detail" := js_or (opt_str (message e)) (err_val e);
                           "path" := VStr filePath ]})
             | None =>
                 let* pub := getPublicUrl "product_images" (VStr filePath) in
                 let publicUrl := data_publicUrl pub in
                 let* now2 := date_now in
                 let* uid := user_id req in
                 let* u := db_one (mkQuery "site_settings"
                             (Update (list_to_map
                                [ ("value", publicUrl); ("type", VStr "image");
                                  ("updated_at", VStr (toISOString now2));
                                  ("updated_by", uid) ]))
                             [ Eq "key" key; Returning ]) in
                 match error u with
                 | Some updateError => ret (res_status_json 500 (error_body updateError))
                 | None =>
                     ret (res_json {[ "setting" := row_val (data u);
                                      "image_url" := publicUrl;
                                      "message" := VStr "Imagem enviada com sucesso" ]})
                 end
             end
         end
     end)
    (fun err => ret (res_status_json 500 (error_stack_body err))).

(** [router.post('/site_background_video/upload')] *)
Definition post_video (req : Request) : M Response :=
  try_catch
    (match file req with
     | None => ret (res_status_json 400 {[ "error" := VStr "Nenhum vídeo enviado" ]})
     | Some f =>
         let ext_ok := video_type (toLowerCase (extname (originalname f))) in
         let mime_ok := video_type (mimetype f) in
         if negb mime_ok || negb ext_ok then
           ret (res_status_json 400
                  {[ "error" := VStr "Apenas vídeos são permitidos (MP4, WebM, OGG, AVI, MOV, WMV)" ]})
         else
           let* now := date_now in
           let filePath := "site_background_video_" +:+ pretty now +:+ extname (originalname f) in
           let* uploadError := storage_upload "product_images" filePath f in
           match uploadError with
           | Some e =>
               ret (res_status_json 500
                      {[ "error" := VStr "Erro ao fazer upload do vídeo";
                         "detail" := js_or (opt_str (message e)) (err_val e);
                         "path" := VStr filePath ]})
           | None =>
               let* pub := getPublicUrl "product_images" (VStr filePath) in
               let publicUrl := data_publicUrl pub in
               let* now2 := date_now in
               let* uid := user_id req in
               let* u := db_one (mkQuery "site_settings"
                           (Update (list_to_map
                              [ ("value", publicUrl); ("type", VStr "video");
                                ("updated_at", VStr (toISOString now2));
                                ("updated_by", uid) ]))
                           [ Eq "key" (VStr "site_background_video_url"); Returning ]) in
               match error u with
               | Some updateError =>
                   if is_str "PGRST116" (code updateError) then
                     let* uid := user_id req in
                     let* c := db_one (mkQuery "site_settings"
                                 (Insert [ list_to_map
                                    [ ("key", VStr "site_background_video_url");
                                      ("value", publicUrl); ("type", VStr "video");
                                      ("updated_by", uid) ] ])
                                 [ Returning ]) in
                     match error c with
                     | Some createError => ret (res_status_json 500 (error_body createError))
                     | None =>
                         ret (res_json {[ "setting" := row_val (data c);
                                          "video_url" := publicUrl;
                                          "message" := VStr "Vídeo enviado com sucesso" ]})
                     end
                   else ret (res_status_json 500 (error_body updateError))
               | None =>
                   ret (res_json {[ "setting" := row_val (data u);
                                    "video_url" := publicUrl;
                                    "message" := VStr "Vídeo enviado com sucesso" ]})
               end
           end
     end)
    (fun err => ret (res_status_json 500 (error_stack_body err))).

(** [router.get('/initialize')] *)
Definition get_initialize (req : Request) : M Response :=
  try_catch
    (let* e := db_many (mkQuery "site_settings" (Select "key") []) in
     let existingKeys := (fun s => prop s "key") <$> default [] (data e) in
     let settingsToInsert :=
       filter (fun d => key_exists existingKeys d.1 = false) defaultSettings in
     match settingsToInsert with
     | [] => ret (res_json {[ "message" := VStr "Configurações inicializadas com sucesso" ]})
     | _ :: _ =>
         let* i := db_many (mkQuery "site_settings"
                     (Insert (default_row <$> settingsToInsert)) []) in
         match error i with
         | Some insertError =>
             ret (res_status_json 500 {[ "error" := VStr "Erro ao inicializar configurações" ]})
         | None =>
             ret (res_json {[ "message" := VStr "Configurações inicializadas com sucesso" ]})
         end
     end)
    (fun err => ret (res_status_json 500 (error_body err))).
End Router.

End Settings.

(** ** The application: every route of the three routers *)

(** What the handlers take from the platform without owning it. *)
Record Platform : Type := mkPlatform {
  Number : Val -> Val;                   (* Number(v) *)
  jwt_verify : string -> option Obj;     (* jwt.verify(token, secret) *)
  extname : string -> string;            (* path.extname *)
  toISOString : nat -> string;           (* new Date(ms).toISOString() *)
  development : bool                     (* NODE_ENV === 'development' *)
}.

Inductive Route : Type :=
| ProductsPost | ProductsList | ProductsGet | ProductsPut | ProductsDelete
| VariationsPost | VariationsGet | VariationsPut | VariationsDelete
| SettingsGetAll | SettingsGetKey | SettingsPutKey | SettingsUpload
| SettingsVideo | SettingsInitialize.

(** The route handler itself, once the middleware in front of it has
    passed the request on. *)
Definition handler (pf : Platform) (r : Route) (req : Request) : M Response :=
  match r with
  | ProductsPost => Products.post (Number pf) req
  | ProductsList => Products.get_list req
  | ProductsGet => Products.get_one req
  | ProductsPut => Products.put (Number pf) req
  | ProductsDelete => Products.delete req
  | VariationsPost => Variations.post (Number pf) req
  | VariationsGet => Variations.get_for_product req
  | VariationsPut => Variations.put (Number pf) req
  | VariationsDelete => Variations.delete req
  | SettingsGetAll => Settings.get_all (development pf) req
  | SettingsGetKey => Settings.get_key req
  | SettingsPutKey => Settings.put_key (toISOString pf) req
  | SettingsUpload => Settings.post_upload (extname pf) (toISOString pf) (development pf) req
  | SettingsVideo => Settings.post_video (extname pf) (toISOString pf) (development pf) req
  | SettingsInitialize => Settings.get_initialize req
  end.

Inductive Router : Type := ProductsRouter | VariationsRouter | SettingsRouter.

Definition router_of (r : Route) : Router :=
  match r with
  | ProductsPost | ProductsList | ProductsGet | ProductsPut | ProductsDelete =>
      ProductsRouter
  | VariationsPost | VariationsGet | VariationsPut | VariationsDelete =>
      VariationsRouter
  | _ => SettingsRouter
  end.

(** A request through a router: its [router.use] middleware, then the
    handler.  (The admin gate in front of the writing routes lives in
    another file of the application and is not part of this model.) *)
Definition handle (pf : Platform) (r : Route) (req : Request) : M Response :=
  match router_of r with
  | ProductsRouter => handler pf r (Products.attach_user (jwt_verify pf) req)
  | VariationsRouter => handler pf r req
  | SettingsRouter => let* _ := Settings.table_check in handler pf r req
  end.

(** ** Reading a sequence of calls *)

Definition is_db (c : Call) : bool :=
  match c with
  | CDbOne _ | CDbMany _ => true
  | _ => false
  end.

Definition is_upload (c : Call) : bool :=
  match c with
  | CUpload _ _ _ => true
  | _ => false
  end.

Definition is_url (c : Call) : bool :=
  match c with
  | CPublicUrl _ _ | CSignedUrl _ _ _ => true
  | _ => false
  end.

(** A call against the database or storage API ([Date.now()] is not). *)
Definition is_api (c : Call) : bool := is_db c || is_upload c || is_url c.

Definition count (f : Call -> bool) (tr : list Event) : nat :=
  length (filter (fun e => f (ev_call e) = true) tr).

Definition calls (tr : list Event) : list Call := ev_call <$> tr.

(** The result and the calls of a program run against a service. *)
Definition result_of {A W : Type} (respond : W -> forall c : Call, resp_ty c * W)
    (p : Prog A) (w : W) : A := (run respond p w).1.1.
Definition trace_of {A W : Type} (respond : W -> forall c : Call, resp_ty c * W)
    (p : Prog A) (w : W) : list Event := (run respond p w).1.2.
Definition final_of {A W : Type} (respond : W -> forall c : Call, resp_ty c * W)
    (p : Prog A) (w : W) : W := (run respond p w).2.

(** The image keys stored in a row. *)
Definition row_images (o : Obj) : nat :=
  match prop o "images" with
  | VArr l => length l
  | _ => 0
  end.

(** The image keys carried by the rows a database call returned. *)
Definition event_images (e : Event) : nat :=
  match e with
  | Ev (CDbOne _) (Ok r) => from_option row_images 0 (data r)
  | Ev (CDbMany _) (Ok r) => sum_list_with row_images (default [] (data r))
  | _ => 0
  end.

Definition images_returned (tr : list Event) : nat := sum_list_with event_images tr.

(** The files a request carries ([req.files] and [req.file]). *)
Definition files_received (req : Request) : nat :=
  length (default [] (files req)) + match file req with Some _ => 1 | None => 0 end.

(** A bound on the calls of a sequence: [d] database calls, [u] uploads,
    and URL calls for the image keys the database returned (three at
    most for each, [k] keys being known beforehand) plus [g]. *)
Definition calls_within (d u g k : nat) (tr : list Event) : Prop :=
  count is_db tr <= d
  /\ count is_upload tr <= u
  /\ count is_url tr <= g + 3 * (k + images_returned tr).

(** Database calls a route handler makes at most. *)
Definition db_bound (r : Route) : nat :=
  match r with
  | ProductsPost => 2        (* insert, then update of the images *)
  | ProductsList => 1
  | ProductsGet => 2         (* the product, then its variations *)
  | ProductsPut => 2         (* stored images, then update *)
  | ProductsDelete => 1
  | VariationsPost => 1
  | VariationsGet => 1
  | VariationsPut => 3       (* product_id, stored images, update *)
  | VariationsDelete => 1
  | SettingsGetAll => 1
  | SettingsGetKey => 1
  | SettingsPutKey => 2      (* update, then insert when no row matched *)
  | SettingsUpload => 2      (* the setting, then update *)
  | SettingsVideo => 2       (* update, then insert when no row matched *)
  | SettingsInitialize => 2  (* existing keys, then insert *)
  end.

(** Database calls of the router middleware in front of a route. *)
Definition middleware_db (r : Route) : nat :=
  match router_of r with
  | SettingsRouter => 1
  | _ => 0
  end.

(** URL calls a route makes besides those for stored image keys. *)
Definition url_extra (r : Route) : nat :=
  match r with
  | SettingsUpload | SettingsVideo => 1
  | _ => 0
  end.

(** ** Vocabulary of the properties *)

(** *** URL generation *)

Definition pub_call (key : Val) : Call := CPublicUrl "product_images" key.
Definition signed_call (key : Val) : Call := CSignedUrl "product_images" key 3600.

(** The URL a public-URL answer carries, if any. *)
Definition pub_url (pub : PubResp) : option Val :=
  if truthy (data_publicUrl pub) then Some (data_publicUrl pub)
  else if truthy (publicURL pub) then Some (publicURL pub)
  else None.

Definition yields_url (o : Outcome PubResp) : bool :=
  match o with
  | Ok pub => bool_decide (is_Some (pub_url pub))
  | Thrown _ => false
  end.

(** The fallback as the specification words it: one public-URL call,
    followed by one signed-URL call exactly when the first gave no URL. *)
Definition public_then_signed (key : Val) (tr : list Event) : Prop :=
  exists o : Outcome PubResp,
    (tr = [ Ev (pub_call key) o ] /\ yields_url o = true)
    \/ (exists s : Outcome SignedResp,
          tr = [ Ev (pub_call key) o; Ev (signed_call key) s ] /\ yields_url o = false).

(** What a signed-URL answer adds to a public answer without URL. *)
Definition signed_result (pub : PubResp) (s : SignedResp) : Val :=
  match signErr s with
  | Some _ => Products.pub_or_null pub
  | None => if truthy (signedURL s) then signedURL s else Products.pub_or_null pub
  end.

(** The last resort of the [catch]: the public URL asked once more. *)
Definition last_resort (o : Outcome PubResp) : Val :=
  match o with
  | Ok pub => Products.pub_or_null pub
  | Thrown _ => VNull
  end.

(** What [makeAccessibleUrl] does for a key, case by case. *)
Definition product_url_generation (key : Val) (res : Outcome Val) (tr : list Event) : Prop :=
  if negb (truthy key) then tr = [] /\ res = Ok VNull
  else if Products.already_url key then tr = [] /\ res = Ok key
  else
    (exists pub u, tr = [ Ev (pub_call key) (Ok pub) ]
                   /\ pub_url pub = Some u /\ res = Ok u)
    \/ (exists pub s, tr = [ Ev (pub_call key) (Ok pub); Ev (signed_call key) (Ok s) ]
                      /\ pub_url pub = None /\ res = Ok (signed_result pub s))
    \/ (exists e o, tr = [ Ev (pub_call key) (Thrown e); Ev (pub_call key) o ]
                    /\ res = Ok (last_resort o))
    \/ (exists pub e o, tr = [ Ev (pub_call key) (Ok pub); Ev (signed_call key) (Thrown e);
                               Ev (pub_call key) o ]
                        /\ pub_url pub = None /\ res = Ok (last_resort o)).

(** What the variation helpers do for a key: the public call alone. *)
Definition variation_url_generation (key : Val) (res : Outcome Val) (tr : list Event) : Prop :=
  exists o : Outcome PubResp,
    tr = [ Ev (pub_call key) o ]
    /\ res = Ok (match o with
                 | Ok pub => default VNull (pub_url pub)
                 | Thrown _ => VNull
                 end).

(** *** Calls per request *)

(** "A single database operation", as the specification has it. *)
Definition single_db_operation (tr : list Event) : Prop := count is_db tr <= 1.

(** "One or two calls against the database/storage API". *)
Definition at_most_two_calls (tr : list Event) : Prop := count is_api tr <= 2.

(** The number of database operations made before each upload of a
    sequence of calls, [n] of them having been made before the
    sequence. *)
Fixpoint db_before_uploads (n : nat) (tr : list Event) : list nat :=
  match tr with
  | [] => []
  | e :: tr' =>
      if is_upload (ev_call e) then n :: db_before_uploads n tr'
      else db_before_uploads (if is_db (ev_call e) then S n else n) tr'
  end.

(** Every upload of the sequence is made after exactly [d] database
    operations; so the uploads come in one run, with no database
    operation between two of them. *)
Definition uploads_after (d : nat) (tr : list Event) : Prop :=
  Forall (fun n => n = d) (db_before_uploads 0 tr).

(** Database operations a route handler makes before it uploads. *)
Definition db_before (r : Route) : nat :=
  match r with
  | ProductsPost => 1        (* the insert of the row *)
  | VariationsPut => 1       (* the read of product_id *)
  | SettingsUpload => 1      (* the read of the setting *)
  | _ => 0
  end.

(** *** Site settings *)

(** The three keys [GET /] of the settings router fills in. *)
Definition background_defaults : list (string * string) :=
  [ ("site_background_type", "color");
    ("site_background_value", "#f5f5f5");
    ("site_background_video_url", "") ].

(** The entry of the settings object for a stored row. *)
Definition setting_value (row : Obj) : Val :=
  VObj (list_to_map [ ("value", prop row "value"); ("type", prop row "type") ]).

(** What the database holds under a key: the last row carrying it. *)
Definition stored_setting (rows : list Obj) (k : string) : option Val :=
  setting_value <$> last (filter (fun row => to_str (prop row "key") = k) rows).

(** A response that carries a settings object: empty, or with the three
    background keys. *)
Definition returns_settings (resp : Response) : Prop :=
  status resp = 200
  /\ exists s : Obj,
       json resp !! "settings" = Some (VObj s)
       /\ (s = ∅ \/ Forall (fun d => is_Some (s !! d.1)) background_defaults).

(** The entry that is filled in for a key the database does not hold. *)
Definition default_setting (value : string) : Val :=
  VObj {[ "value" := VStr value; "type" := VStr "text" ]}.

(** The marks of a missing table in the message of an error. *)
Definition missing_table_marks : list string :=
  [ "does not exist"; "relation"; "não existe" ].

(** The codes that stand for a missing table: in an error the query
    returned, and in an error it threw. *)
Definition returned_codes : list string := [ "42P01"; "PGRST116" ].
Definition thrown_codes : list string := [ "42P01" ].

(** The error is taken for a missing table: it carries one of the
    codes, or its message contains one of the marks. *)
Definition missing_table (codes : list string) (e : JsError) : bool :=
  existsb (fun c => is_str c (code e)) codes
  || existsb (fun mark => opt_includes mark (message e)) missing_table_marks.

Definition empty_settings : Response := res_json {[ "settings" := VObj ∅ ]}.

(** What [GET /] answers, by what the database said. *)
Definition settings_answer (development : bool) (ans : Outcome (DbResp (list Obj)))
    (resp : Response) : Prop :=
  match ans with
  | Ok r =>
      match error r with
      | None =>
          resp = res_json
                   {[ "settings" := VObj (Settings.settings_object (default [] (data r))) ]}
      | Some e =>
          if missing_table returned_codes e then resp = empty_settings
          else resp = res_status_json 500
                        {[ "error" := opt_str (message e); "code" := opt_str (code e) ]}
      end
  | Thrown e =>
      if missing_table thrown_codes e then resp = empty_settings
      else resp = res_status_json 500 (Settings.error_stack_body development e)
  end.

Definition settings_query : DbQuery :=
  mkQuery "site_settings" (Select "key, value, type") [ Order "key" None ].

(** *** The product listing *)

(** The query parameter is present and not empty. *)
Definition present (req : Request) (name : string) : Prop :=
  qtruthy (query req !! name) = true.

Definition is_order (c : Clause) : bool :=
  match c with
  | Order _ _ => true
  | _ => false
  end.

(** The orderings the [sort] parameter can name. *)
Definition orderings : list (string * Clause) :=
  [ ("price_asc", Order "price" (Some true));
    ("price_desc", Order "price" (Some false));
    ("name_asc", Order "name" (Some true));
    ("name_desc", Order "name" (Some false));
    ("newest", Order "created_at" (Some false)) ].

Definition newest_first : Clause := Order "created_at" (Some false).

(** The ordering a request selects: the one its [sort] names, newest
    first when [sort] is absent or names none. *)
Definition ordering_selected (req : Request) : Clause :=
  match query req !! "sort" with
  | Some (QStr s) => default newest_first ((list_to_map orderings : gmap string Clause) !! s)
  | _ => newest_first
  end.

Definition listing_query (cl : list Clause) : DbQuery :=
  mkQuery "products" (Select "*") cl.

(** The product types of a category; none for a name that is no
    category. *)
Definition types_of (category : string) : list string :=
  default [] ((list_to_map Products.categoryTypeMap : gmap string (list string))
                !! category).

(** The nine filters of the listing, by the query parameter of each, in
    the order the query is built. *)
Inductive Filter : Type :=
| Search | Brand | Brands | Types | Categories | Sizes | Colors
| PriceRange | DiscountRange.

Definition filters : list Filter :=
  [ Search; Brand; Brands; Types; Categories; Sizes; Colors; PriceRange;
    DiscountRange ].

Definition parameter (f : Filter) : string :=
  match f with
  | Search => "search"
  | Brand => "brand"
  | Brands => "brands"
  | Types => "types"
  | Categories => "categories"
  | Sizes => "sizes"
  | Colors => "colors"
  | PriceRange => "priceRange"
  | DiscountRange => "discountRange"
  end.

(** The values of a list parameter: the pieces between commas that are
    not blank. *)
Definition values (q : QVal) : list string :=
  match q with
  | QStr s => filter (fun x => all_space x = false) (split_on "," s)
  | QArr _ => []
  end.

(** One predicate on a list of values; none when the list is empty. *)
Definition among (mk : list Val -> Clause) (l : list string) : list Clause :=
  match l with
  | [] => []
  | _ :: _ => [ mk (VStr <$> l) ]
  end.

(** The predicates of the ranges of prices and of discounts. *)
Definition price_predicates : list (string * list Clause) :=
  [ ("0-50", [ Gte "price" (VNum 0); Lte "price" (VNum 50) ]);
    ("50-100", [ Gt "price" (VNum 50); Lte "price" (VNum 100) ]);
    ("100-200", [ Gt "price" (VNum 100); Lte "price" (VNum 200) ]);
    ("200+", [ Gt "price" (VNum 200) ]) ].

Definition discount_predicates : list (string * list Clause) :=
  [ ("10-30", [ Gte "discount" (VNum 10); Lte "discount" (VNum 30) ]);
    ("30-50", [ Gt "discount" (VNum 30); Lte "discount" (VNum 50) ]);
    ("50+", [ Gt "discount" (VNum 50) ]) ].

(** The predicates of the range a parameter names; none for 'all', for
    a name that is no range, and for a parameter given more than
    once. *)
Definition range (table : list (string * list Clause)) (q : QVal) : list Clause :=
  match q with
  | QStr s => default [] ((list_to_map table : gmap string (list Clause)) !! s)
  | QArr _ => []
  end.

(** The predicate of a filter, for the value [q] of its parameter:
    [name ilike %q%]; [brand = q]; [brand], [type] and [color] among
    the values, [sizes] containing them; [type] among the types of the
    categories named; the bounds of the range. *)
Definition predicate (f : Filter) (q : QVal) : list Clause :=
  match f with
  | Search => [ ILike "name" ("%" +:+ qval_str q +:+ "%") ]
  | Brand => [ Eq "brand" (match q with
                           | QStr s => VStr s
                           | QArr l => VArr (VStr <$> l)
                           end) ]
  | Brands => among (In_ "brand") (values q)
  | Types => among (In_ "type") (values q)
  | Categories => among (In_ "type") (values q ≫= types_of)
  | Sizes => among (Contains "sizes") (values q)
  | Colors => among (In_ "color") (values q)
  | PriceRange => range price_predicates q
  | DiscountRange => range discount_predicates q
  end.

(** What a filter adds to the query of a request: its predicate when
    its parameter is present and not empty, nothing otherwise. *)
Definition filter_clauses (req : Request) (f : Filter) : list Clause :=
  match query req !! parameter f with
  | Some q => if qtruthy (Some q) then predicate f q else []
  | None => []
  end.

(** The predicates of the nine filters of a request. *)
Definition listing_predicates (req : Request) : list Clause :=
  filters ≫= filter_clauses req.

(** The products a request may see: all of them with the role 'admin',
    the active ones otherwise. *)
Definition visibility (req : Request) : list Clause :=
  match user req ≫= (.!! "role") with
  | Some (VStr role) =>
      if decide (role = "admin") then [] else [ Eq "is_active" (VBool true) ]
  | _ => [ Eq "is_active" (VBool true) ]
  end.

(** *** Image references in the answers *)

(** The storage service produced [u] in this call. *)
Definition url_event (u : Val) (e : Event) : Prop :=
  match e with
  | Ev (CPublicUrl _ _) (Ok pub) => u = data_publicUrl pub \/ u = publicURL pub
  | Ev (CSignedUrl _ _ _) (Ok s) => u = signedURL s
  | _ => False
  end.

(** [u] was generated by the storage service during the request. *)
Definition generated (tr : list Event) (u : Val) : Prop := Exists (url_event u) tr.

(** [u] is an accessible URL: generated by the storage service, or an
    entry that was stored as an http(s) URL. *)
Definition accessible (tr : list Event) (u : Val) : Prop :=
  generated tr u \/ Products.already_url u = true.

(** The images of an object the helpers of the products router made:
    the array has only non-empty entries, all accessible, and [image] is
    its first entry, or [null]. *)
Definition product_images_ok (tr : list Event) (c : Obj) : Prop :=
  exists images : list Val,
    c !! "images" = Some (VArr images)
    /\ c !! "image" = Some (Products.first_or_null images)
    /\ Forall (fun u => truthy u = true /\ accessible tr u) images.

(** The images of an object the helper of the variations router made. *)
Definition variation_images_ok (tr : list Event) (c : Obj) : Prop :=
  exists images : list Val,
    c !! "images" = Some (VArr images)
    /\ Forall (fun u => truthy u = true /\ accessible tr u) images.

(** The properties a helper rewrites. *)
Definition rewritten : list string := [ "images"; "image"; "variations" ].

(** What [productWithAccessibleImages] returns for a row: its images
    rewritten, every property it does not rewrite left as in the row, and
    [variations] either made of helper results or left as in the row. *)
Definition product_result (product : option Obj) (tr : list Event) (c : Obj) : Prop :=
  product_images_ok tr c
  /\ (forall k, k ∉ rewritten -> c !! k = spread product !! k)
  /\ ((exists vcs, c !! "variations" = Some (VArr (VObj <$> vcs))
                   /\ Forall (product_images_ok tr) vcs)
      \/ c !! "variations" = spread product !! "variations").

(** The only database call the helper makes: the active variations of
    the product. *)
Definition only_variations_query (includeVariations : bool) (id : Val) (e : Event) : Prop :=
  is_db (ev_call e) = true ->
  includeVariations = true /\ ev_call e = CDbMany (Products.variations_query id).

(** *** The read endpoints *)

(** What [GET /] of the products router answers. *)
Definition list_answer (req : Request) (tr : list Event) (resp : Response) : Prop :=
  match Products.list_clauses req with
  | Thrown e => tr = [] /\ resp = res_status_json 500 (error_body e)
  | Ok cl =>
      exists ans rest,
        tr = Ev (CDbMany (listing_query cl)) ans :: rest
        /\ count is_db rest = 0
        /\ match ans with
           | Thrown e => resp = res_status_json 500 (error_body e)
           | Ok r =>
               match error r with
               | Some e => resp = res_status_json 500 (error_body e)
               | None =>
                   exists cs,
                     resp = res_json {[ "products" := VArr (VObj <$> cs) ]}
                     /\ Forall2 (fun row c => product_result (Some row) rest c)
                          (default [] (data r)) cs
               end
           end
  end.

Definition product_query (req : Request) (id : string) : DbQuery :=
  mkQuery "products" (Select "*") (Eq "id" (VStr id) :: Products.active_filter req).

Definition invalid_id : Response :=
  res_status_json 400 {[ "error" := VStr "ID do produto inválido" ]}.

Definition not_found : Response :=
  res_status_json 404 {[ "error" := VStr "Produto não encontrado" ]}.

(** What [GET /:id] of the products router answers. *)
Definition one_answer (req : Request) (tr : list Event) (resp : Response) : Prop :=
  match params req !! "id" with
  | None => tr = [] /\ resp = invalid_id
  | Some id =>
      if String.eqb id "" then tr = [] /\ resp = invalid_id
      else
        exists ans rest,
          tr = Ev (CDbOne (product_query req id)) ans :: rest
          /\ match ans with
             | Thrown e => rest = [] /\ resp = res_status_json 500 (error_body e)
             | Ok r =>
                 match error r, data r with
                 | Some e, _ =>
                     rest = []
                     /\ resp = (if Products.no_rows_error e then not_found
                                else res_status_json 500 (error_body e))
                 | None, None => rest = [] /\ resp = not_found
                 | None, Some d =>
                     exists c,
                       resp = res_json {[ "product" := VObj c ]}
                       /\ product_result (Some d) rest c
                       /\ Forall (only_variations_query true (prop d "id")) rest
                 end
             end
  end.

(** What [GET /product/:product_id] of the variations router answers. *)
Definition variations_answer (req : Request) (tr : list Event) (resp : Response) : Prop :=
  match params req !! "product_id" with
  | None => tr = [] /\ resp = invalid_id
  | Some product_id =>
      if String.eqb product_id "" then tr = [] /\ resp = invalid_id
      else
        exists ans rest,
          tr = Ev (CDbMany (Products.variations_query (VStr product_id))) ans :: rest
          /\ count is_db rest = 0
          /\ match ans with
             | Thrown e => resp = res_status_json 500 (error_body e)
             | Ok r =>
                 match error r with
                 | Some e => resp = res_status_json 500 (error_body e)
                 | None =>
                     exists cs,
                       resp = res_json {[ "variations" := VArr (VObj <$> cs) ]}
                       /\ Forall2 (fun row c =>
                            variation_images_ok rest c
                            /\ forall k, k <> "images" -> c !! k = row !! k)
                            (default [] (data r)) cs
                 end
             end
  end.

(** The objects of a JSON property: the elements of an array, or the
    object itself. *)
Definition objects (v : option Val) : list Obj :=
  match v with
  | Some (VArr l) => omap (fun x => match x with VObj o => Some o | _ => None end) l
  | Some (VObj o) => [ o ]
  | _ => []
  end.

(** The products and the variations a response returns. *)
Definition returned_products (resp : Response) : list Obj :=
  objects (json resp !! "products") ++ objects (json resp !! "product").
Definition returned_variations (resp : Response) : list Obj :=
  objects (json resp !! "variations").

(** The entries of the [images] array of an object. *)
Definition array_refs (c : Obj) : list Val :=
  match c !! "images" with
  | Some (VArr l) => l
  | _ => []
  end.

(** The image references of an object: its [images] and its [image]
    when that is not [null]. *)
Definition image_refs (c : Obj) : list Val :=
  array_refs c
  ++ match c !! "image" with
     | Some VNull | None => []
     | Some u => [ u ]
     end.

(** The row a [.single()] query at the head of the calls returned. *)
Definition first_row (tr : list Event) : option Obj :=
  match tr with
  | Ev (CDbOne _) (Ok r) :: _ => data r
  | _ => None
  end.

(** "Every image reference is a URL the storage service generated", on
    the single-product endpoint. *)
Definition every_image_generated (tr : list Event) (resp : Response) : Prop :=
  Forall (fun c => Forall (generated tr) (image_refs c)) (returned_products resp).

(** The images of a returned object as the specification describes
    them: no empty entry in [images], and [image] its first entry, or
    [null] when there is none. *)
Definition images_filtered (c : Obj) : Prop :=
  exists images : list Val,
    c !! "images" = Some (VArr images)
    /\ Forall (fun u => truthy u = true) images
    /\ c !! "image" = Some (Products.first_or_null images).

(** *** Visibility of inactive products *)

(** The request carries a token that verifies and whose payload has the
    role 'admin'. *)
Definition authenticated_admin (verify : string -> option Obj) (req : Request) : Prop :=
  exists auth token payload,
    authorization req = Some auth
    /\ split_on " " auth !! 1%nat = Some token
    /\ verify token = Some payload
    /\ prop payload "role" = VStr "admin".

Definition active_clause : Clause := Eq "is_active" (VBool true).

(** A query on the products table carries [is_active = true]. *)
Definition asks_only_active (e : Event) : Prop :=
  match ev_call e with
  | CDbOne q | CDbMany q => from q = "products" -> active_clause ∈ clauses q
  | _ => True
  end.

Definition active_row (row : Obj) : Prop := row !! "is_active" = Some (VBool true).

(** The database applies the predicate [is_active = true] of a query to
    the rows it returns. *)
Definition honours_active (e : Event) : Prop :=
  match e with
  | Ev (CDbOne q) (Ok r) =>
      active_clause ∈ clauses q -> from_option active_row True (data r)
  | Ev (CDbMany q) (Ok r) =>
      active_clause ∈ clauses q -> Forall active_row (default [] (data r))
  | _ => True
  end.

(** What the claim promises for a request: the queries on products ask
    for active rows only, and with a database that applies the predicate
    every returned product is active. *)
Definition inactive_hidden (o : Outcome Response) (tr : list Event) : Prop :=
  Forall asks_only_active tr
  /\ (Forall honours_active tr ->
      exists resp, o = Ok resp /\ Forall active_row (returned_products resp)).

(** *** What an update writes *)

(** The keys of the uploads that succeeded. *)
Definition uploaded_keys (tr : list Event) : list string :=
  omap (fun e => match e with
                 | Ev (CUpload _ key _) (Ok None) => Some key
                 | _ => None
                 end) tr.

(** The update of a PUT as the claim describes it: no column absent
    from the body is written, and [images], when written, is what the
    read of the stored images returned followed by the new keys. *)
Definition update_as_claimed (b : Obj) (tr : list Event) (changes : Obj) : Prop :=
  (forall f, f <> "images" -> b !! f = None -> changes !! f = None)
  /\ match changes !! "images" with
     | None => uploaded_keys tr = []
     | Some v =>
         exists q sel existing,
           Ev (CDbOne q) (Ok sel) ∈ tr
           /\ action q = Select "images"
           /\ Products.existing_images (data sel) = Ok existing
           /\ v = VArr (existing ++ (VStr <$> uploaded_keys tr))
     end.

(** Every update in a sequence of calls is as claimed. *)
Definition updates_as_claimed (b : Obj) (tr : list Event) : Prop :=
  forall q ans changes,
    Ev (CDbOne q) ans ∈ tr -> action q = Update changes ->
    update_as_claimed b tr changes.

(** *** Error responses *)

(** The error messages written in the three routers, all in
    Portuguese. *)
Definition portuguese_messages : list string :=
  [ "Erro ao fazer upload das imagens";
    "ID do produto inválido";
    "Produto não encontrado";
    "Campos obrigatórios: product_id e name";
    "Configuração não encontrada";
    "Valor é obrigatório";
    "Nenhuma imagem enviada";
    "Upload bloqueado pelas políticas de segurança do Supabase Storage.";
    "Erro ao fazer upload da imagem";
    "Nenhum vídeo enviado";
    "Apenas vídeos são permitidos (MP4, WebM, OGG, AVI, MOV, WMV)";
    "Erro ao fazer upload do vídeo";
    "Erro ao inicializar configurações" ].

(** The messages of the errors the runtime raises in the handlers. *)
Definition runtime_messages : list string :=
  [ "Cannot read properties of null (reading 'id')";
    "Cannot read properties of null (reading 'images')";
    "Cannot read properties of undefined (reading 'id')";
    "existingImages is not iterable";
    "Spread syntax requires ...iterable[Symbol.iterator] to be a function";
    "brands.split is not a function";
    "types.split is not a function";
    "categories.split is not a function";
    "sizes.split is not a function";
    "colors.split is not a function" ].

(** The errors a call returned or threw. *)
Definition event_errors (e : Event) : list JsError :=
  match e with
  | Ev (CDbOne _) (Ok r) => option_list (error r)
  | Ev (CDbMany _) (Ok r) => option_list (error r)
  | Ev (CUpload _ _ _) (Ok err) => option_list err
  | Ev (CSignedUrl _ _ _) (Ok s) => option_list (signErr s)
  | Ev (CDbOne _) (Thrown e) => [ e ]
  | Ev (CDbMany _) (Thrown e) => [ e ]
  | Ev (CUpload _ _ _) (Thrown e) => [ e ]
  | Ev (CPublicUrl _ _) (Thrown e) => [ e ]
  | Ev (CSignedUrl _ _ _) (Thrown e) => [ e ]
  | _ => []
  end.

Definition trace_errors (tr : list Event) : list JsError := tr ≫= event_errors.

(** Where the [error] of a response comes from: a message of the
    repository, the message of an error the database or the storage
    service gave, or the message of an error of the runtime. *)
Definition error_source (tr : list Event) (v : Val) : Prop :=
  (exists m, m ∈ portuguese_messages /\ v = VStr m)
  \/ (exists e, e ∈ trace_errors tr /\ v = opt_str (message e))
  \/ (exists m, m ∈ runtime_messages /\ v = VStr m).

(** "The error message is in Portuguese": it is one of the messages of
    the repository. *)
Definition error_in_portuguese (resp : Response) : Prop :=
  status resp < 400
  \/ exists m, json resp !! "error" = Some (VStr m) /\ m ∈ portuguese_messages.

Definition error_explained (tr : list Event) (resp : Response) : Prop :=
  status resp < 400
  \/ exists v, json resp !! "error" = Some v /\ error_source tr v.

Definition errors_explained (o : Outcome Response) (tr : list Event) : Prop :=
  match o with
  | Ok resp => error_explained tr resp
  | Thrown _ => True
  end.

(** ** Concrete services and requests, for running the handlers *)

(** A service whose answers depend on the call alone. *)
Record Service : Type := mkService {
  on_db_one : DbQuery -> Outcome (DbResp Obj);
  on_db_many : DbQuery -> Outcome (DbResp (list Obj));
  on_upload : string -> File -> Outcome (option JsError);
  on_public : Val -> Outcome PubResp;
  on_signed : Val -> Outcome SignedResp;
  clock : nat
}.

Definition answer (s : Service) (c : Call) : resp_ty c :=
  match c with
  | CDbOne q => on_db_one s q
  | CDbMany q => on_db_many s q
  | CUpload _ key f => on_upload s key f
  | CPublicUrl _ key => on_public s key
  | CSignedUrl _ key _ => on_signed s key
  | CNow => clock s
  end.

Definition stateless (s : Service) (w : unit) (c : Call) : resp_ty c * unit :=
  (answer s c, w).

Definition serve {A : Type} (s : Service) (p : Prog A) : A * list Event :=
  (run (stateless s) p tt).1.

Definition example_platform : Platform :=
  mkPlatform (fun v => v) (fun _ => None) (fun _ => ".png")
             (fun _ => "2026-01-01T00:00:00.000Z") false.

Definition no_error {D : Type} (d : option D) : Outcome (DbResp D) :=
  Ok (mkDbResp d None).

Definition db_error {D : Type} (code msg : string) : Outcome (DbResp D) :=
  Ok (mkDbResp None (Some (mkErr (Some msg) (Some code) None None))).

(** The public URL the storage service builds for a key. *)
Definition cdn_url (key : Val) : Outcome PubResp :=
  Ok (mkPub (VStr ("https://cdn.example.com/" +:+ to_str key)) VUndef).

Definition empty_request : Request :=
  mkReq None None ∅ ∅ ∅ None None.

(** A database in which no row matches an update, and which stores what
    it is asked to insert. *)
Definition upsert_service : Service :=
  mkService
    (fun q => match action q with
              | Update _ => db_error "PGRST116" "JSON object requested, multiple (or no) rows returned"
              | Insert rows => no_error (head rows)
              | _ => no_error None
              end)
    (fun q => no_error (Some []))
    (fun _ _ => Ok None)
    cdn_url
    (fun _ => Ok (mkSigned VUndef None))
    1000.

(** [PUT /api/site-settings/hero_banner_title] by an admin. *)
Definition put_setting_request : Request :=
  mkReq None (Some {[ "id" := VStr "u1"; "role" := VStr "admin" ]})
        {[ "key" := "hero_banner_title" ]} ∅
        {[ "value" := VStr "Outono" ]} None None.

(** A database that stores what it is asked to insert and returns the
    row an update changed. *)
Definition storing_service : Service :=
  mkService
    (fun q => match action q with
              | Insert rows => no_error ((fun r => <[ "id" := VStr "p1" ]> r) <$> head rows)
              | Update changes => no_error (Some (<[ "id" := VStr "p1" ]> changes))
              | _ => no_error None
              end)
    (fun q => no_error (Some []))
    (fun _ _ => Ok None)
    cdn_url
    (fun _ => Ok (mkSigned VUndef None))
    1000.

(** [POST /api/products] with one image file. *)
Definition post_product_request : Request :=
  mkReq None (Some {[ "id" := VStr "u1"; "role" := VStr "admin" ]}) ∅ ∅
        {[ "name" := VStr "Camisa"; "price" := VStr "59.90" ]}
        (Some [ mkFile "frente.png" "image/png" [] ]) None.

(** A database whose queries time out. *)
Definition timeout_service : Service :=
  mkService
    (fun q => db_error "57014" "canceling statement due to statement timeout")
    (fun q => db_error "57014" "canceling statement due to statement timeout")
    (fun _ _ => Ok None)
    cdn_url
    (fun _ => Ok (mkSigned VUndef None))
    1000.

(** [GET /api/products?search=camisa&brands=nike,adidas&sort=price_asc] *)
Definition listing_request : Request :=
  mkReq None None ∅
        {[ "search" := QStr "camisa"; "brands" := QStr "nike,adidas";
           "sort" := QStr "price_asc" ]}
        ∅ None None.

Definition listing_clauses : list Clause :=
  [ Eq "is_active" (VBool true);
    ILike "name" "%camisa%";
    In_ "brand" [ VStr "nike"; VStr "adidas" ];
    Order "price" (Some true) ].

(** A product whose image was stored as an absolute URL. *)
Definition linked_product : Obj :=
  {[ "id" := VStr "p1"; "name" := VStr "Camisa"; "is_active" := VBool true;
     "images" := VArr [ VStr "https://img.example.com/camisa.png" ] ]}.

Definition linked_service : Service :=
  mkService
    (fun q => no_error (Some linked_product))
    (fun q => no_error (Some []))
    (fun _ _ => Ok None)
    cdn_url
    (fun _ => Ok (mkSigned VUndef None))
    1000.

(** [GET /api/products/p1] without a token. *)
Definition get_product_request : Request :=
  mkReq None None {[ "id" := "p1" ]} ∅ ∅ None None.

(** An active variation with one stored image. *)
Definition stored_variation : Obj :=
  {[ "id" := VStr "v1"; "product_id" := VStr "p1"; "is_active" := VBool true;
     "images" := VArr [ VStr "variations/p1/1000_0.png" ] ]}.

Definition variation_service : Service :=
  mkService
    (fun q => no_error (Some linked_product))
    (fun q => no_error (Some [ stored_variation ]))
    (fun _ _ => Ok None)
    cdn_url
    (fun _ => Ok (mkSigned VUndef None))
    1000.

(** [GET /api/variations/product/p1] *)
Definition get_variations_request : Request :=
  mkReq None None {[ "product_id" := "p1" ]} ∅ ∅ None None.

(** The variation as the variations router returns it. *)
Definition returned_variation : Obj :=
  <[ "images" := VArr [ VStr "https://cdn.example.com/variations/p1/1000_0.png" ] ]>
    stored_variation.

(** A database that refuses a delete: the row is still referenced. *)
Definition referenced_service : Service :=
  mkService
    (fun q => db_error "23503" "update or delete on table products violates foreign key constraint")
    (fun q => db_error "23503" "update or delete on table products violates foreign key constraint")
    (fun _ _ => Ok None)
    cdn_url
    (fun _ => Ok (mkSigned VUndef None))
    1000.

(** [DELETE /api/products/p1] by an admin. *)
Definition delete_product_request : Request :=
  mkReq None (Some {[ "id" := VStr "u1"; "role" := VStr "admin" ]})
        {[ "id" := "p1" ]} ∅ ∅ None None.

(** The query rejects with the code PGRST116. *)
Definition no_rows_rejection : JsError :=
  mkErr (Some "JSON object requested, multiple (or no) rows returned")
        (Some "PGRST116") None None.

(** ** A database that keeps rows, for following a write *)

(** Tables of rows by id; [reads_fail] makes every [select ... single()]
    answer an error, as a lost connection does. *)
Record Store : Type := mkStore {
  tables : gmap string (gmap string Obj);
  reads_fail : bool
}.

(** The id an [.eq('id', ...)] of the query names. *)
Definition query_id (q : DbQuery) : option string :=
  head (omap (fun c => match c with
                       | Eq "id" (VStr id) => Some id
                       | _ => None
                       end) (clauses q)).

Definition stored_row (w : Store) (table id : string) : option Obj :=
  tables w !! table ≫= fun t => t !! id.

Definition no_rows {D : Type} : Outcome (DbResp D) :=
  db_error "PGRST116" "JSON object requested, multiple (or no) rows returned".

(** [update(changes)] overwrites the columns named in [changes] and
    keeps the others. *)
Definition updated_row (changes row : Obj) : Obj := changes ∪ row.

Definition store_one (w : Store) (q : DbQuery) : Outcome (DbResp Obj) * Store :=
  match query_id q with
  | None => (no_rows, w)
  | Some id =>
      match stored_row w (from q) id with
      | None => (no_rows, w)
      | Some row =>
          match action q with
          | Select _ =>
              if reads_fail w
              then (db_error "08006" "connection failure", w)
              else (no_error (Some row), w)
          | Update changes =>
              let row' := updated_row changes row in
              (no_error (Some row'),
               mkStore (<[ from q := <[ id := row' ]> (default ∅ (tables w !! from q)) ]>
                          (tables w))
                       (reads_fail w))
          | _ => (no_rows, w)
          end
      end
  end.

Definition store_respond (w : Store) (c : Call) : resp_ty c * Store :=
  match c with
  | CDbOne q => store_one w q
  | CDbMany q => (no_error (Some []), w)
  | CUpload _ _ _ => (Ok None, w)
  | CPublicUrl _ key => (cdn_url key, w)
  | CSignedUrl _ _ _ => (Ok (mkSigned VUndef None), w)
  | CNow => (1000%nat, w)
  end.

(** A product and a variation with one stored image each. *)
Definition shirt : Obj :=
  {[ "id" := VStr "p1"; "name" := VStr "Camisa"; "price" := VNum 59;
     "images" := VArr [ VStr "products/p1/900_0.png" ] ]}.

Definition shirt_blue : Obj :=
  {[ "id" := VStr "v1"; "product_id" := VStr "p1"; "name" := VStr "Azul";
     "images" := VArr [ VStr "variations/p1/900_0.png" ] ]}.

Definition shop (reads_fail : bool) : Store :=
  mkStore {[ "products" := {[ "p1" := shirt ]};
             "product_variations" := {[ "v1" := shirt_blue ]} ]}
          reads_fail.

(** [PUT /api/products/p1] and [PUT /api/variations/v1] with one new
    image file and a new name. *)
Definition put_product_request : Request :=
  mkReq None (Some {[ "id" := VStr "u1"; "role" := VStr "admin" ]})
        {[ "id" := "p1" ]} ∅ {[ "name" := VStr "Camisa polo" ]}
        (Some [ mkFile "costas.png" "image/png" [] ]) None.

Definition put_variation_request : Request :=
  mkReq None (Some {[ "id" := VStr "u1"; "role" := VStr "admin" ]})
        {[ "id" := "v1" ]} ∅ {[ "name" := VStr "Azul marinho" ]}
        (Some [ mkFile "costas.png" "image/png" [] ]) None.

(** The images a table holds for an id after a request. *)
Definition images_after (w : Store) (table id : string) : Val :=
  from_option (fun row => prop row "images") VUndef (stored_row w table id).

(** ** Vocabulary of the properties beyond the specification *)

(** The characters of a string. *)
Definition chars (s : string) : list ascii := String.list_ascii_of_string s.

(** *** Requests and platforms to run the handlers on *)

(** A request that carries only an [Authorization] header. *)
Definition with_authorization (auth : string) : Request :=
  mkReq (Some auth) None ∅ ∅ ∅ None None.

(** A request that carries only one query parameter. *)
Definition with_query (name value : string) : Request :=
  mkReq None None ∅ {[ name := QStr value ]} ∅ None None.

(** A verification that accepts the token [abc] alone, as that of an
    administrator. *)
Definition admin_payload : Obj := {[ "id" := VStr "u1"; "role" := VStr "admin" ]}.
Definition admin_verify (token : string) : option Obj :=
  if String.eqb token "abc" then Some admin_payload else None.

(** A platform whose token verification is [admin_verify]. *)
Definition admin_platform : Platform :=
  mkPlatform (fun v => v) admin_verify (fun _ => ".png")
             (fun _ => "2026-01-01T00:00:00.000Z") false.

(** A service whose every call rejects with [e]. *)
Definition rejecting_service (e : JsError) : Service :=
  mkService (fun _ => Thrown e) (fun _ => Thrown e) (fun _ _ => Thrown e)
            (fun _ => Thrown e) (fun _ => Thrown e) 1000.

(** *** The listing *)

(** A query on the products table carries no predicate on
    [is_active]. *)
Definition no_active_predicate (e : Event) : Prop :=
  match ev_call e with
  | CDbOne q | CDbMany q =>
      from q = "products" -> forall v, Eq "is_active" v ∉ clauses q
  | _ => True
  end.

(** The values the interface offers for [priceRange] and
    [discountRange]. *)
Definition price_ranges : list string := [ "0-50"; "50-100"; "100-200"; "200+" ].
Definition discount_ranges : list string := [ "10-30"; "30-50"; "50+" ].

(** What the database makes of a comparison of the query builder, on
    the numeric value [x] of the column. *)
Definition compares (c : Clause) (x : QArith_base.Q) : bool :=
  match c with
  | Gte _ (VNum n) => QArith_base.Qle_bool (QArith_base.inject_Z n) x
  | Gt _ (VNum n) => negb (QArith_base.Qle_bool x (QArith_base.inject_Z n))
  | Lte _ (VNum n) => QArith_base.Qle_bool x (QArith_base.inject_Z n)
  | _ => true
  end.

(** The value [x] passes every comparison of a list of clauses. *)
Definition in_range (cl : list Clause) (x : QArith_base.Q) : bool :=
  forallb (fun c => compares c x) cl.

(** *** What the read endpoints return *)

(** Every property the helpers do not rewrite is in [c] as in [row]. *)
Definition passed_on (row c : Obj) : Prop :=
  forall k, k ∉ rewritten -> c !! k = row !! k.

(** Once the first query of a read endpoint has returned rows without
    an error, the answer is 200 and carries one object for each row, in
    the order of the rows, each with the properties of its row. *)
Definition rows_passed_on (o : Outcome Response) (tr : list Event) : Prop :=
  match tr with
  | Ev (CDbMany _) (Ok r) :: _ =>
      error r = None ->
      exists name cs resp,
        o = Ok resp
        /\ status resp = 200
        /\ json resp !! name = Some (VArr (VObj <$> cs))
        /\ Forall2 passed_on (default [] (data r)) cs
  | Ev (CDbOne _) (Ok r) :: _ =>
      error r = None -> forall row, data r = Some row ->
      exists c resp,
        o = Ok resp
        /\ status resp = 200
        /\ json resp !! "product" = Some (VObj c)
        /\ passed_on row c
  | _ => True
  end.

(** The object a helper returns for a row: [images] is an array of
    non-empty entries, no longer than the stored one; [image] (where
    the helper sets it) is its first entry, or [null]; and every
    property the helper does not rewrite is as in the row. *)
Definition helper_result (row : Obj) (sets_image : bool) (c : Obj) : Prop :=
  exists images : list Val,
    c !! "images" = Some (VArr images)
    /\ length images <= row_images row
    /\ Forall (fun u => truthy u = true) images
    /\ (if sets_image then c !! "image" = Some (Products.first_or_null images)
        else c !! "image" = row !! "image")
    /\ passed_on row c.

(** *** Uploads *)

(** The storage keys and the files of the upload calls of a sequence. *)
Definition upload_calls (tr : list Event) : list (string * File) :=
  omap (fun e => match ev_call e with
                 | CUpload _ key f => Some (key, f)
                 | _ => None
                 end) tr.

(** An upload that stored nothing: the service answered with an error,
    or threw. *)
Definition failed_upload (e : Event) : Prop :=
  match e with
  | Ev (CUpload _ _ _) (Ok None) => False
  | Ev (CUpload _ _ _) _ => True
  | _ => False
  end.

(** Nothing is called after an upload that failed. *)
Definition stops_at_failure (tr : list Event) : Prop :=
  forall tr1 e tr2, tr = tr1 ++ e :: tr2 -> failed_upload e -> tr2 = [].

(** An upload that does not end the request: it succeeded, or the
    storage refused it with one of the errors of
    [storage_policy_error]. *)
Definition tolerated (e : Event) : Prop :=
  match e with
  | Ev (CUpload _ _ _) (Ok (Some err)) => storage_policy_error err = true
  | Ev (CUpload _ _ _) (Thrown _) => False
  | _ => True
  end.

(** How the loop ends, by its last upload: it hands keys on when every
    upload was tolerated; it answers 500 after an error that is no
    policy error; it throws what the storage threw. *)
Definition loop_outcome (o : Outcome LoopEnd) (tr : list Event) : Prop :=
  match o with
  | Ok (Uploaded _) => Forall tolerated tr
  | Ok (Responded resp) =>
      exists tr' key f err,
        tr = tr' ++ [ Ev (CUpload "product_images" key f) (Ok (Some err)) ]
        /\ storage_policy_error err = false
        /\ resp = res_status_json 500
                    {[ "error" := VStr "Erro ao fazer upload das imagens";
                       "detail" := js_or (opt_str (message err)) (err_val err) ]}
  | Thrown e =>
      exists tr' key f,
        tr = tr' ++ [ Ev (CUpload "product_images" key f) (Thrown e) ]
  end.

(** The key the upload loop builds for the file at index [i]. *)
Definition storage_key (prefix : string) (now i : nat) (ext : string) : string :=
  prefix +:+ "/" +:+ pretty now +:+ "_" +:+ pretty i +:+ "." +:+ ext.

(** [0] to [9]. *)
Definition is_digit (c : ascii) : bool :=
  Nat.leb 48 (nat_of_ascii c) && Nat.leb (nat_of_ascii c) 57.

(** The keys of the uploads of a sequence of calls are laid out under
    [prefix]: the upload at position [k] goes to
    [<prefix>/<Date.now()>_<k>.<extension of its file>]. *)
Definition key_layout (prefix : string) (tr : list Event) : Prop :=
  forall k key f, upload_calls tr !! k = Some (key, f) ->
    exists now, key = storage_key prefix now k (file_ext (originalname f)).

(** The folder a route uploads to: [products/<id>] with the id of the
    row just inserted (POST) or of the path (PUT); [variations/<id>]
    with the product id of the body (POST) or the one the first select
    returned, 'unknown' when it returned none (PUT). *)
Definition upload_prefix (r : Route) (req : Request) (tr : list Event) : option string :=
  match r with
  | ProductsPost =>
      match tr with
      | Ev (CDbOne _) (Ok a) :: _ =>
          (fun p => "products/" +:+ to_str (prop p "id")) <$> data a
      | _ => None
      end
  | ProductsPut => Some ("products/" +:+ to_str (Products.id_param req))
  | VariationsPost => Some ("variations/" +:+ to_str (prop (body req) "product_id"))
  | VariationsPut =>
      match tr with
      | Ev (CDbOne _) (Ok a) :: _ =>
          Some ("variations/"
                +:+ to_str (js_or (prop (spread (data a)) "product_id") (VStr "unknown")))
      | _ => None
      end
  | _ => None
  end.

(** The uploads of a request of route [r] go to the folder of the
    route, each to a key of its own. *)
Definition uploads_laid_out (r : Route) (req : Request) (tr : list Event) : Prop :=
  upload_calls tr <> [] ->
  exists prefix,
    upload_prefix r req tr = Some prefix
    /\ key_layout prefix tr
    /\ NoDup (upload_calls tr).*1.

(** The routes that run the upload loop. *)
Definition upload_routes : list Route :=
  [ ProductsPost; ProductsPut; VariationsPost; VariationsPut ].

(** *** What the routes that create rows send *)

(** The insert did not return a row. *)
Definition insert_failed (ans : Outcome (DbResp Obj)) : Prop :=
  match ans with
  | Ok r => error r <> None
  | Thrown _ => True
  end.

(** The calls of [POST /] of the products router: the insert comes
    first; when it fails nothing else is called; an update that follows
    writes the keys of the uploads that succeeded, and nothing else, to
    the row that was inserted. *)
Definition product_created (tr : list Event) : Prop :=
  exists row ans rest,
    tr = Ev (CDbOne (mkQuery "products" (Insert [ row ]) [ Returning ])) ans :: rest
    /\ (insert_failed ans -> rest = [])
    /\ forall q a changes,
         Ev (CDbOne q) a ∈ rest -> action q = Update changes ->
         uploaded_keys rest <> []
         /\ changes = {[ "images" := VArr (VStr <$> uploaded_keys rest) ]}
         /\ exists r p, ans = Ok r
                        /\ data r = Some p
                        /\ from q = "products"
                        /\ clauses q = [ Eq "id" (prop p "id"); Returning ].


(** *** What the routes that update rows send *)

(** What a read of the stored images gave: the array the row holds;
    nothing when no row came back, or when its [images] is empty
    ([null], [undefined], [false], [0] or ''). *)
Definition read_images (sel : DbResp Obj) (stored : list Val) : Prop :=
  match data sel with
  | None => stored = []
  | Some row =>
      match prop row "images" with
      | VArr l => stored = l
      | v => truthy v = false -> stored = []
      end
  end.

(** The read of the stored images of the row [id] of a table. *)
Definition images_select (table : string) (id : Val) : DbQuery :=
  mkQuery table (Select "images") [ Eq "id" id ].

(** What an update of [PUT /:id] writes, [tr] being the calls of the
    request: no column that is absent from the body, [images] apart;
    [images] exactly when an upload succeeded; and then the array the
    read of the stored images gave, followed by the keys of the uploads
    that succeeded, in their order. *)
Definition update_writes (table : string) (req : Request) (tr : list Event)
    (changes : Obj) : Prop :=
  (forall f, f <> "images" -> body req !! f = None -> changes !! f = None)
  /\ (is_Some (changes !! "images") <-> uploaded_keys tr <> [])
  /\ forall v, changes !! "images" = Some v ->
       exists sel stored,
         Ev (CDbOne (images_select table (Products.id_param req))) (Ok sel) ∈ tr
         /\ read_images sel stored
         /\ v = VArr (stored ++ (VStr <$> uploaded_keys tr)).

(** Every update among the calls of a request is on the row of the
    path and writes as [update_writes] says. *)
Definition put_updates (table : string) (req : Request) (tr : list Event) : Prop :=
  forall q ans changes,
    Ev (CDbOne q) ans ∈ tr -> action q = Update changes ->
    q = mkQuery table (Update changes) [ Eq "id" (Products.id_param req); Returning ]
    /\ update_writes table req tr changes.

(** *** The shape of the answers *)

(** The status codes the routers use. *)
Definition statuses : list nat := [ 200; 400; 403; 404; 500 ].

(** An answer of the routers: one of their status codes, with an
    [error] property in the body (the object handed to [json]) exactly
    when the status is not 200. *)
Definition well_formed (resp : Response) : Prop :=
  status resp ∈ statuses
  /\ (status resp = 200 -> json resp !! "error" = None)
  /\ (status resp <> 200 -> is_Some (json resp !! "error")).

(** A request is answered, and the answer is well formed; only the
    delete of a product can end without an answer. *)
Definition answered (r : Route) (o : Outcome Response) : Prop :=
  match o with
  | Ok resp => well_formed resp
  | Thrown _ => r = ProductsDelete
  end.

(** *** What the settings routes write *)

Definition select_keys : DbQuery := mkQuery "site_settings" (Select "key") [].

(** The keys the select of [GET /initialize] returned. *)
Definition existing_keys (r : DbResp (list Obj)) : list Val :=
  (fun s => prop s "key") <$> default [] (data r).

(** The calls of [GET /initialize]: the select of the keys, then, unless
    every default key came back, one insert of exactly the default rows
    whose key did not. *)
Definition initialize_calls (tr : list Event) : Prop :=
  exists ans : Outcome (DbResp (list Obj)),
    match ans with
    | Thrown _ => tr = [ Ev (CDbMany select_keys) ans ]
    | Ok r =>
        (Forall (fun d => VStr d.1 ∈ existing_keys r) Settings.defaultSettings
         /\ tr = [ Ev (CDbMany select_keys) ans ])
        \/ (exists rows a,
              tr = [ Ev (CDbMany select_keys) ans;
                     Ev (CDbMany (mkQuery "site_settings" (Insert rows) [])) a ]
              /\ rows <> []
              /\ forall row, row ∈ rows <->
                   exists d, d ∈ Settings.defaultSettings
                             /\ (VStr d.1 ∉ existing_keys r)
                             /\ row = Settings.default_row d)
    end.

(** An update of the setting [key] to [value] that matched no row. *)
Definition no_row_updated (key value : Val) (e : Event) : Prop :=
  exists changes r err,
    e = Ev (CDbOne (mkQuery "site_settings" (Update changes)
                      [ Eq "key" key; Returning ])) (Ok r)
    /\ changes !! "value" = Some value
    /\ error r = Some err
    /\ code err = Some "PGRST116".

(** Every insert among the calls is the creation of the setting [key]
    with [value] and the type 'text', and follows at once the update
    that matched no row. *)
Definition upsert_calls (key value : Val) (tr : list Event) : Prop :=
  forall q a rows, Ev (CDbOne q) a ∈ tr -> action q = Insert rows ->
    exists now e row,
      tr = [ Ev CNow now; e; Ev (CDbOne q) a ]
      /\ no_row_updated key value e
      /\ q = mkQuery "site_settings" (Insert [ row ]) [ Returning ]
      /\ row !! "key" = Some key
      /\ row !! "value" = Some value
      /\ row !! "type" = Some (VStr "text").

(** The calls of the image upload of a setting: a file is sent to the
    storage only after the select found the setting, and it is the file
    of the request; the setting is updated only after the file was
    stored, with the public URL the storage service gave for its key. *)
Definition upload_guarded (req : Request) (tr : list Event) : Prop :=
  (upload_calls tr <> [] ->
   exists s row rest f,
     tr = Ev (CDbOne (mkQuery "site_settings" (Select "key, type")
                        [ Eq "key" (Settings.key_param req) ])) (Ok s) :: rest
     /\ data s = Some row
     /\ file req = Some f
     /\ (upload_calls tr).*2 = [ f ])
  /\ forall q a changes,
       Ev (CDbOne q) a ∈ tr -> action q = Update changes ->
       exists key pub,
         uploaded_keys tr = [ key ]
         /\ Ev (CPublicUrl "product_images" (VStr key)) (Ok pub) ∈ tr
         /\ changes !! "value" = Some (data_publicUrl pub)
         /\ changes !! "type" = Some (VStr "image")
         /\ clauses q = [ Eq "key" (Settings.key_param req); Returning ].

(** ** The route tables

    Express tries the routes of a router in the order they were
    registered; the first one whose method and path match handles the
    request, and none of the handlers here passes the request on. *)

Inductive Method : Type := GET | POST | PUT | DELETE.

Definition method_eqb (a b : Method) : bool :=
  match a, b with
  | GET, GET | POST, POST | PUT, PUT | DELETE, DELETE => true
  | _, _ => false
  end.

(** One segment of a route path: a literal, or a parameter [:name]. *)
Inductive Segment : Type :=
| Lit (s : string)
| Param (name : string).

(** The parameters when a path (its segments) matches a route path.
    Literals match without regard to case, a parameter matches any
    non-empty segment. *)
Fixpoint match_path (pattern : list Segment) (path : list string)
    : option (gmap string string) :=
  match pattern, path with
  | [], [] => Some ∅
  | Lit l :: pattern', s :: path' =>
      if String.eqb (Settings.toLowerCase s) (Settings.toLowerCase l)
      then match_path pattern' path'
      else None
  | Param name :: pattern', s :: path' =>
      if String.eqb s "" then None
      else insert name s <$> match_path pattern' path'
  | _, _ => None
  end.

(** The [router.<method>(path, ...)] calls of the three files, in
    source order. *)
Definition products_routes : list (Method * list Segment * Route) :=
  [ (POST, [], ProductsPost);
    (GET, [], ProductsList);
    (GET, [ Param "id" ], ProductsGet);
    (PUT, [ Param "id" ], ProductsPut);
    (DELETE, [ Param "id" ], ProductsDelete) ].

Definition variations_routes : list (Method * list Segment * Route) :=
  [ (POST, [], VariationsPost);
    (GET, [ Lit "product"; Param "product_id" ], VariationsGet);
    (PUT, [ Param "id" ], VariationsPut);
    (DELETE, [ Param "id" ], VariationsDelete) ].

Definition settings_routes : list (Method * list Segment * Route) :=
  [ (GET, [], SettingsGetAll);
    (GET, [ Param "key" ], SettingsGetKey);
    (PUT, [ Param "key" ], SettingsPutKey);
    (POST, [ Param "key"; Lit "upload" ], SettingsUpload);
    (POST, [ Lit "site_background_video"; Lit "upload" ], SettingsVideo);
    (GET, [ Lit "initialize" ], SettingsInitialize) ].

(** The route that handles a request, with [req.params]. *)
Fixpoint dispatch (table : list (Method * list Segment * Route)) (m : Method)
    (path : list string) : option (Route * gmap string string) :=
  match table with
  | [] => None
  | (m', pattern, r) :: rest =>
      if method_eqb m m' then
        match match_path pattern path with
        | Some ps => Some (r, ps)
        | None => dispatch rest m path
        end
      else dispatch rest m path
  end.

(** Some request is handled by the route. *)
Definition reachable (table : list (Method * list Segment * Route)) (r : Route) : Prop :=
  exists m path ps, dispatch table m path = Some (r, ps).
(** ** Reasoning rules for [always] *)

Lemma always_mono {A : Type} (p : Prog A) (Q Q' : A -> list Event -> Prop) :
  (forall a tr, Q a tr -> Q' a tr) -> always p Q -> always p Q'.
Proof.
  revert Q Q'. induction p as [a | c k IH]; simpl; intros Q Q' HQ Hp.
  - by apply HQ.
  - intros r. eapply IH; [| apply Hp]. simpl. intros a tr. apply HQ.
Qed.

Lemma always_pbind {A B : Type} (p : Prog A) (f : A -> Prog B) Q :
  always p (fun a tr1 => always (f a) (fun b tr2 => Q b (tr1 ++ tr2))) ->
  always (pbind p f) Q.
Proof.
  revert Q. induction p as [a | c k IH]; simpl; intros Q Hp.
  - exact Hp.
  - intros r. apply IH. eapply always_mono; [| apply (Hp r)].
    simpl. intros a tr Ha. exact Ha.
Qed.

Lemma always_bind {A B : Type} (m : M A) (f : A -> M B) Q :
  always m (fun o tr1 =>
    match o with
    | Ok a => always (f a) (fun b tr2 => Q b (tr1 ++ tr2))
    | Thrown e => Q (Thrown e) tr1
    end) ->
  always (bind m f) Q.
Proof.
  intros Hm. apply always_pbind. eapply always_mono; [| apply Hm].
  simpl. intros [a | e] tr H; simpl; [exact H |].
  by rewrite app_nil_r.
Qed.

Lemma always_try_catch {A : Type} (m : M A) (h : JsError -> M A) Q :
  always m (fun o tr1 =>
    match o with
    | Ok a => Q (Ok a) tr1
    | Thrown e => always (h e) (fun b tr2 => Q b (tr1 ++ tr2))
    end) ->
  always (try_catch m h) Q.
Proof.
  intros Hm. apply always_pbind. eapply always_mono; [| apply Hm].
  simpl. intros [a | e] tr H; simpl; [| exact H].
  by rewrite app_nil_r.
Qed.

(** What [always] promises is what [run] delivers, for every service. *)
Lemma always_run {A W : Type} (respond : W -> forall c : Call, resp_ty c * W)
    (p : Prog A) (Q : A -> list Event -> Prop) (w : W) :
  always p Q -> Q (run respond p w).1.1 (run respond p w).1.2.
Proof.
  revert Q w. induction p as [a | c k IH]; simpl; intros Q w Hp.
  - exact Hp.
  - destruct (respond w c) as [r w1] eqn:Hr.
    specialize (IH r _ w1 (Hp r)).
    destruct (run respond (k r) w1) as [[a tr] w2]. exact IH.
Qed.

(** A body that never throws, mapped over a list: the calls are the
    calls of the elements, one after the other. *)
Lemma always_mapM {A B : Type} (f : A -> M B) (R : A -> B -> list Event -> Prop)
    (l : list A) :
  (forall x, x ∈ l -> always (f x) (fun o tr => exists y, o = Ok y /\ R x y tr)) ->
  always (mapM f l) (fun o tr =>
    exists ys trs, o = Ok ys /\ tr = concat trs /\ Forall3 R l ys trs).
Proof.
  induction l as [| x l IH]; intros Hf; simpl.
  - exists [], []. repeat split. constructor.
  - apply always_bind. eapply always_mono; [| apply Hf; left].
    simpl. intros o tr1 (y & -> & Hy).
    apply always_bind. eapply always_mono; [| apply IH].
    + simpl. intros o tr2 (ys & trs & -> & -> & Hall). simpl.
      exists (y :: ys), (tr1 :: trs). rewrite app_nil_r.
      repeat split. by constructor.
    + intros x' Hx'. apply Hf. by right.
Qed.

(** ** Counting calls *)

Lemma count_nil (f : Call -> bool) : count f [] = 0.
Proof. reflexivity. Qed.

Lemma count_cons (f : Call -> bool) (e : Event) (tr : list Event) :
  count f (e :: tr) = (if f (ev_call e) then 1 else 0) + count f tr.
Proof.
  unfold count. rewrite filter_cons.
  destruct (f (ev_call e)); case_decide; simpl; congruence.
Qed.

Lemma count_app (f : Call -> bool) (tr1 tr2 : list Event) :
  count f (tr1 ++ tr2) = count f tr1 + count f tr2.
Proof. unfold count. by rewrite filter_app, length_app. Qed.

Lemma images_returned_cons (e : Event) (tr : list Event) :
  images_returned (e :: tr) = event_images e + images_returned tr.
Proof. reflexivity. Qed.

Lemma images_returned_app (tr1 tr2 : list Event) :
  images_returned (tr1 ++ tr2) = images_returned tr1 + images_returned tr2.
Proof. apply sum_list_with_app. Qed.

Lemma calls_within_nil (d u g k : nat) : calls_within d u g k [].
Proof. unfold calls_within. rewrite !count_nil. lia. Qed.

Lemma calls_within_weaken (d u g k d' u' g' k' : nat) (tr : list Event) :
  d <= d' -> u <= u' -> g <= g' -> k <= k' ->
  calls_within d u g k tr -> calls_within d' u' g' k' tr.
Proof. unfold calls_within. lia. Qed.

Lemma calls_within_app (d1 u1 g1 k1 d2 u2 g2 k2 : nat) (tr1 tr2 : list Event) :
  calls_within d1 u1 g1 k1 tr1 -> calls_within d2 u2 g2 k2 tr2 ->
  calls_within (d1 + d2) (u1 + u2) (g1 + g2) (k1 + k2) (tr1 ++ tr2).
Proof.
  unfold calls_within. rewrite !count_app, images_returned_app. lia.
Qed.

(** Two properties of the same program hold together. *)
Lemma always_and {A : Type} (p : Prog A) (Q1 Q2 : A -> list Event -> Prop) :
  always p Q1 -> always p Q2 -> always p (fun a tr => Q1 a tr /\ Q2 a tr).
Proof.
  revert Q1 Q2. induction p as [a | c k IH]; intros Q1 Q2; simpl; [done |].
  intros H1 H2 r. apply IH; [apply H1 | apply H2].
Qed.

(** ** URL generation (C2) *)

Lemma makeAccessibleUrl_cases (key : Val) :
  always (Products.makeAccessibleUrl key) (product_url_generation key).
Proof.
  unfold Products.makeAccessibleUrl, product_url_generation.
  destruct (truthy key) eqn:Hk; simpl; [| done].
  destruct (Products.already_url key) eqn:Hu; simpl; [done |].
  intros [pub | e]; simpl.
  - unfold pub_url.
    destruct (truthy (data_publicUrl pub)) eqn:H1; simpl.
    { left. by exists pub, (data_publicUrl pub); rewrite H1. }
    destruct (truthy (publicURL pub)) eqn:H2; simpl.
    { left. exists pub, (publicURL pub). by rewrite H1, H2. }
    intros [s | e]; simpl.
    + destruct (signErr s) as [se |] eqn:Hse; simpl;
        [| destruct (truthy (signedURL s)) eqn:Hsu; simpl].
      all: right; left.
      all: exists pub, s.
      all: unfold signed_result.
      all: by rewrite H1, H2, Hse, ?Hsu.
    + intros o. destruct o as [pub2 | e2] eqn:Ho; simpl.
      all: do 3 right.
      all: eexists pub, e, _.
      all: by rewrite H1, H2.
  - intros o. destruct o as [pub2 | e2] eqn:Ho; simpl.
    all: right; right; left.
    all: by eexists e, _.
Qed.

Lemma variation_image_url_cases (key : Val) :
  always (Products.variation_image_url key) (variation_url_generation key).
Proof.
  unfold Products.variation_image_url, variation_url_generation. simpl.
  intros [pub | e]; simpl.
  - unfold pub_url.
    destruct (truthy (data_publicUrl pub)) eqn:H1; simpl;
      [| destruct (truthy (publicURL pub)) eqn:H2; simpl].
    all: exists (Ok pub).
    all: by rewrite H1, ?H2.
  - by exists (Thrown e).
Qed.

(** C2, as amended: for a product image key that is neither empty nor
    already an http(s) URL, [makeAccessibleUrl] asks for the public URL
    first and makes one signed-URL call only when the public answer has
    no URL; when one of the two calls throws it asks for the public URL
    once more; an empty key or a key that is already a URL makes no call.
    For the image keys of a variation the public URL is asked once and
    there is no signed-URL fallback. *)
Theorem C2_url_generation (key : Val) :
  always (Products.makeAccessibleUrl key) (product_url_generation key)
  /\ always (Products.variation_image_url key) (variation_url_generation key).
Proof.
  split; [apply makeAccessibleUrl_cases | apply variation_image_url_cases].
Qed.

(** C2 as the specification states it fails: a stored key that already is
    a URL is returned without any call to the storage service. *)
Lemma C2_counterexample :
  ~ (forall key : Val,
       always (Products.makeAccessibleUrl key) (fun _ tr => public_then_signed key tr)).
Proof.
  intros H. specialize (H (VStr "https://cdn.example.com/a.png")).
  vm_compute in H. destruct H as [o [[H _] | [s [H _]]]]; discriminate H.
Qed.

(** ** How many calls the helpers make *)

Lemma calls_within_concat {A B : Type} (k : A -> nat) (l : list A) (ys : list B)
    (trs : list (list Event)) :
  Forall3 (fun x _ tr => calls_within 0 0 0 (k x) tr) l ys trs ->
  calls_within 0 0 0 (sum_list_with k l) (concat trs).
Proof.
  induction 1 as [| x y tr l ys trs Hx _ IH]; simpl.
  - apply calls_within_nil.
  - apply (calls_within_app 0 0 0 _ 0 0 0 _); assumption.
Qed.

Lemma makeAccessibleUrl_calls (key : Val) :
  always (Products.makeAccessibleUrl key)
    (fun o tr => exists u, o = Ok u /\ calls_within 0 0 0 1 tr).
Proof.
  eapply always_mono; [| apply makeAccessibleUrl_cases].
  intros o tr. unfold product_url_generation, calls_within.
  destruct (negb (truthy key)); [| destruct (Products.already_url key)].
  - intros [-> ->]. eexists. split; [done |]. rewrite !count_nil. lia.
  - intros [-> ->]. eexists. split; [done |]. rewrite !count_nil. lia.
  - intros [(pub & u & -> & _ & ->) | [(pub & s & -> & _ & ->)
      | [(e & o' & -> & ->) | (pub & e & o' & -> & _ & ->)]]].
    all: eexists; split; [done |].
    all: rewrite !count_cons, !count_nil; simpl; lia.
Qed.

Lemma variation_image_url_calls (key : Val) :
  always (Products.variation_image_url key)
    (fun o tr => exists u, o = Ok u /\ calls_within 0 0 0 1 tr).
Proof.
  eapply always_mono; [| apply variation_image_url_cases].
  intros o tr (o' & -> & ->). eexists. split; [done |].
  unfold calls_within. rewrite !count_cons, !count_nil; simpl; lia.
Qed.

Lemma mapM_url_calls (f : Val -> M Val) (keys : list Val) :
  (forall key, always (f key) (fun o tr => exists u, o = Ok u /\ calls_within 0 0 0 1 tr)) ->
  always (mapM f keys)
    (fun o tr => exists urls, o = Ok urls /\ calls_within 0 0 0 (length keys) tr).
Proof.
  intros Hf.
  eapply always_mono; [| apply (always_mapM f (fun _ _ tr => calls_within 0 0 0 1 tr))].
  - intros o tr (ys & trs & -> & -> & Hall). exists ys. split; [done |].
    apply (calls_within_concat (fun _ => 1)) in Hall.
    replace (length keys) with (sum_list_with (fun _ : Val => 1) keys); [done |].
    clear. induction keys as [| x keys IH]; simpl; [done | by rewrite IH].
  - intros x _. apply Hf.
Qed.
Ltac calls_solve :=
  unfold calls_within in *;
  repeat rewrite ?count_app, ?count_cons, ?count_nil,
                 ?images_returned_app, ?images_returned_cons;
  simpl; lia.

Lemma nonempty_array_Some (v : Val) (keys : list Val) :
  nonempty_array v = Some keys -> v = VArr keys.
Proof. destruct v as [| | | | | [| x l] |]; simpl; congruence. Qed.

Lemma images_step_calls (f : Val -> M Val) (clone : Obj) :
  (forall key, always (f key) (fun o tr => exists u, o = Ok u /\ calls_within 0 0 0 1 tr)) ->
  always
    (match nonempty_array (prop clone "images") with
     | Some keys =>
         let* urls := mapM f keys in
         ret (filter (fun u => truthy u = true) urls)
     | None => ret []
     end)
    (fun o tr => exists images, o = Ok images /\ calls_within 0 0 0 (row_images clone) tr).
Proof.
  intros Hf. destruct (nonempty_array (prop clone "images")) as [keys |] eqn:Hk.
  - apply nonempty_array_Some in Hk. unfold row_images. rewrite Hk.
    apply always_bind. eapply always_mono; [| apply mapM_url_calls, Hf].
    simpl. intros o tr (urls & -> & Hc). eexists. split; [done |].
    by rewrite app_nil_r.
  - simpl. eexists. split; [done |]. apply calls_within_nil.
Qed.

Lemma variationWithAccessibleImages_calls (variation : Obj) :
  always (Products.variationWithAccessibleImages variation)
    (fun o tr => exists c, o = Ok c /\ calls_within 0 0 0 (row_images variation) tr).
Proof.
  unfold Products.variationWithAccessibleImages.
  apply always_bind. eapply always_mono;
    [| apply images_step_calls, variation_image_url_calls].
  simpl. intros o tr (images & -> & Hc). simpl. eexists. split; [done |].
  by rewrite app_nil_r.
Qed.

Lemma variations_router_helper_calls (variation : option Obj) :
  always (Variations.variationWithAccessibleImages variation)
    (fun o tr => exists c, o = Ok c /\ calls_within 0 0 0 (row_images (spread variation)) tr).
Proof.
  unfold Variations.variationWithAccessibleImages.
  apply always_bind. eapply always_mono;
    [| apply images_step_calls, variation_image_url_calls].
  simpl. intros o tr (images & -> & Hc). simpl. eexists. split; [done |].
  by rewrite app_nil_r.
Qed.

Lemma mapM_rows_calls {B : Type} (f : Obj -> M B) (rows : list Obj) :
  (forall row, always (f row)
     (fun o tr => exists c, o = Ok c /\ calls_within 0 0 0 (row_images row) tr)) ->
  always (mapM f rows)
    (fun o tr => exists cs, o = Ok cs
                 /\ calls_within 0 0 0 (sum_list_with row_images rows) tr).
Proof.
  intros Hf.
  eapply always_mono;
    [| apply (always_mapM f (fun row _ tr => calls_within 0 0 0 (row_images row) tr))].
  - intros o tr (ys & trs & -> & -> & Hall). exists ys. split; [done |].
    by apply calls_within_concat in Hall.
  - intros x _. apply Hf.
Qed.

Lemma productWithAccessibleImages_calls (product : option Obj) (includeVariations : bool) :
  always (Products.productWithAccessibleImages product includeVariations)
    (fun o tr => exists c, o = Ok c
       /\ calls_within (if includeVariations then 1 else 0) 0 0
            (row_images (spread product)) tr).
Proof.
  unfold Products.productWithAccessibleImages.
  apply always_bind. eapply always_mono;
    [| apply images_step_calls, makeAccessibleUrl_calls].
  simpl. intros o tr (images & -> & Hc).
  destruct (includeVariations && _) eqn:Hv.
  - apply andb_true_iff in Hv as [-> _]. simpl.
    intros [[[vs |] [e |]] | e]; simpl.
    + eexists. split; [done |]. calls_solve.
    + apply always_try_catch, always_bind.
        eapply always_mono;
          [| apply mapM_rows_calls, variationWithAccessibleImages_calls].
        simpl. intros o tr2 (cs & -> & Hc2). simpl.
        eexists. split; [done |]. calls_solve.
    + eexists. split; [done |]. calls_solve.
    + eexists. split; [done |]. calls_solve.
    + eexists. split; [done |]. calls_solve.
  - simpl. eexists. split; [done |]. rewrite app_nil_r.
    destruct includeVariations; calls_solve.
Qed.

Lemma upload_loop_calls (prefix : string) (fs : list File) (i : nat) (imageKeys : list string) :
  always (upload_loop prefix i fs imageKeys)
    (fun _ tr => calls_within 0 (length fs) 0 0 tr).
Proof.
  revert i imageKeys. induction fs as [| f fs IH]; intros i imageKeys; simpl.
  - apply calls_within_nil.
  - intros now [[e |] | e]; simpl.
    + destruct (storage_policy_error e); simpl; calls_solve.
    + eapply always_mono; [| apply IH].
      simpl. intros o tr Hc. calls_solve.
    + calls_solve.
Qed.


(** ** Symbolic execution of the handlers *)

Ltac destruct_vars :=
  repeat match goal with
  | x : Outcome _ |- _ => destruct x
  | x : LoopEnd |- _ => destruct x
  | H : exists _, _ |- _ => destruct H
  | H : _ /\ _ |- _ => destruct H
  | H : Ok _ = Ok _ |- _ => injection H as H; try subst
  | H : Thrown _ = Ok _ |- _ => discriminate H
  end.

Lemma row_images_insert_prop (o o' : Obj) :
  row_images (<["images" := prop o' "images"]> o) = row_images o'.
Proof. unfold row_images at 1, prop at 1. by rewrite lookup_insert_eq. Qed.

Lemma row_images_spread (o : option Obj) :
  row_images (spread o) = from_option row_images 0 o.
Proof. by destruct o. Qed.

Ltac calls_auto :=
  unfold calls_within in *;
  repeat rewrite ?count_app, ?count_cons, ?count_nil,
                 ?images_returned_app, ?images_returned_cons;
  simpl;
  repeat match goal with
         | H : data ?a = _ |- context [data ?a] => rewrite H
         | H : data ?a = _, H' : context [data ?a] |- _ => rewrite H in H'
         end;
  rewrite ?row_images_insert_prop, ?row_images_spread in *;
  simpl; lia.

Ltac spec_at p H :=
  lazymatch p with
  | pbind ?m _ => apply always_pbind; spec_at m H
  | _ => eapply always_mono; [| apply H]
  end.

Ltac head_of p :=
  lazymatch p with
  | pbind ?m _ => head_of m
  | _ => p
  end.

Ltac exec_step :=
  lazymatch goal with
  | |- forall _, _ => intro
  | |- always ?p _ =>
      let h := head_of p in
      lazymatch h with
      | upload_loop _ _ _ _ => spec_at p upload_loop_calls
      | Products.productWithAccessibleImages _ _ =>
          spec_at p productWithAccessibleImages_calls
      | Variations.variationWithAccessibleImages _ =>
          spec_at p variations_router_helper_calls
      | mapM _ _ =>
          spec_at p mapM_rows_calls;
          [| intros;
             first [ apply (productWithAccessibleImages_calls (Some _) false)
                   | apply (variations_router_helper_calls (Some _)) ] ]
      | match ?x with _ => _ end => destruct x eqn:?
      end
  end.

Ltac exec :=
  repeat first [ progress simpl | progress unfold bind, try_catch | progress destruct_vars | exec_step ].

Lemma handler_calls (pf : Platform) (r : Route) (req : Request) :
  always (handler pf r req)
    (fun _ tr => calls_within (db_bound r) (files_received req) (url_extra r) 0 tr).
Proof.
  destruct r; unfold handler, db_bound, url_extra, files_received.
  all: unfold Products.post, Products.get_list, Products.get_one, Products.put,
    Products.delete, Variations.post, Variations.get_for_product, Variations.put,
    Variations.delete, Settings.get_all, Settings.get_key, Settings.put_key,
    Settings.post_upload, Settings.post_video, Settings.get_initialize, Settings.user_id.
  all: exec.
  all: calls_auto.
Qed.

(** ** Calls per request (C1, C3) *)

Lemma count_api (tr : list Event) :
  count is_api tr = count is_db tr + count is_upload tr + count is_url tr.
Proof.
  induction tr as [| [c r] tr IH]; [done |].
  rewrite !count_cons, IH. destruct c; simpl; lia.
Qed.

Lemma attach_user_files (verify : string -> option Obj) (req : Request) :
  files_received (Products.attach_user verify req) = files_received req.
Proof.
  unfold Products.attach_user.
  destruct (authorization req) as [auth |]; [| done].
  destruct (String.eqb auth ""); [done |].
  destruct (split_on " " auth !! 1%nat) as [token |]; [| done].
  by destruct (verify token).
Qed.

Lemma handle_calls (pf : Platform) (r : Route) (req : Request) :
  always (handle pf r req)
    (fun _ tr => calls_within (middleware_db r + db_bound r) (files_received req)
                   (url_extra r) 0 tr).
Proof.
  unfold handle, middleware_db. destruct (router_of r) eqn:Hr.
  - rewrite <- (attach_user_files (jwt_verify pf) req). apply handler_calls.
  - apply handler_calls.
  - unfold Settings.table_check. simpl. intros [a | e]; simpl.
    all: eapply always_mono; [| apply handler_calls].
    all: simpl; intros o tr Hc; calls_auto.
Qed.


Lemma db_bound_le_3 (r : Route) : middleware_db r + db_bound r <= 3.
Proof. destruct r; vm_compute; lia. Qed.

(** ** Where the uploads come among the database operations *)

Lemma db_before_uploads_app (n : nat) (tr1 tr2 : list Event) :
  db_before_uploads n (tr1 ++ tr2)
  = db_before_uploads n tr1 ++ db_before_uploads (n + count is_db tr1) tr2.
Proof.
  revert n. induction tr1 as [| e tr1 IH]; intros n; simpl.
  - by rewrite count_nil, Nat.add_0_r.
  - rewrite count_cons. destruct e as [c r]. destruct c; simpl; rewrite IH; simpl;
      repeat f_equal; lia.
Qed.

Lemma db_before_uploads_quiet (n : nat) (tr : list Event) :
  count is_upload tr = 0 -> db_before_uploads n tr = [].
Proof.
  revert n. induction tr as [| [c r] tr IH]; intros n; [done |].
  rewrite count_cons. destruct c; simpl; try done; intros H; by apply IH.
Qed.

Lemma db_before_uploads_run (n : nat) (tr : list Event) :
  count is_db tr = 0 -> db_before_uploads n tr = replicate (count is_upload tr) n.
Proof.
  induction tr as [| [c r] tr IH]; [done |].
  rewrite !count_cons. destruct c; simpl; try done; intros H; by rewrite IH.
Qed.

Lemma db_before_uploads_S (n : nat) (tr : list Event) :
  db_before_uploads (S n) tr = S <$> db_before_uploads n tr.
Proof.
  revert n. induction tr as [| [c r] tr IH]; intros n; [done |].
  destruct c; simpl; by rewrite IH.
Qed.

Lemma db_before_uploads_spec (d n : nat) (tr : list Event) :
  Forall (fun m => m = d) (db_before_uploads n tr)
  <-> forall tr1 e tr2, tr = tr1 ++ e :: tr2 -> is_upload (ev_call e) = true ->
        n + count is_db tr1 = d.
Proof.
  revert n. induction tr as [| e tr IH]; intros n; simpl.
  - split; [| done]. by intros _ [| ? ?] ? ? ?.
  - destruct (is_upload (ev_call e)) eqn:He.
    + rewrite Forall_cons, IH. split.
      * intros [Hn H] [| e1 tr1] e' tr2; simpl.
        -- intros _ _. rewrite count_nil. lia.
        -- intros [= <- ->] He'. rewrite count_cons.
           rewrite <- (H tr1 e' tr2 eq_refl He').
           destruct e as [[] ?]; simpl in *; done.
      * intros H. split.
        -- specialize (H [] e tr eq_refl He). rewrite count_nil in H. lia.
        -- intros tr1 e' tr2 -> He'.
           specialize (H (e :: tr1) e' tr2 eq_refl He'). rewrite count_cons in H.
           destruct e as [[] ?]; simpl in *; done.
    + rewrite IH. split.
      * intros H [| e1 tr1] e' tr2; simpl.
        -- intros [= <- _] He'. congruence.
        -- intros [= <- ->] He'. rewrite count_cons.
           rewrite <- (H tr1 e' tr2 eq_refl He').
           destruct (is_db (ev_call e)); lia.
      * intros H tr1 e' tr2 -> He'.
        specialize (H (e :: tr1) e' tr2 eq_refl He'). rewrite count_cons in H.
        destruct (is_db (ev_call e)); lia.
Qed.

(** What [uploads_after] says, call by call. *)
Lemma uploads_after_spec (d : nat) (tr : list Event) :
  uploads_after d tr
  <-> forall tr1 e tr2, tr = tr1 ++ e :: tr2 -> is_upload (ev_call e) = true ->
        count is_db tr1 = d.
Proof. unfold uploads_after. by rewrite db_before_uploads_spec. Qed.

Ltac order_facts :=
  unfold calls_within in *;
  repeat match goal with
    | H : _ /\ _ |- _ => destruct H
    end;
  repeat match goal with
    | H : count _ _ <= 0 |- _ => apply Nat.le_0_r in H
    end.

Ltac order_step :=
  first
    [ progress simpl
    | rewrite db_before_uploads_app
    | match goal with
      | H : count is_upload ?tr = 0 |- context [db_before_uploads ?n ?tr] =>
          rewrite (db_before_uploads_quiet n tr H)
      | H : count is_db ?tr = 0 |- context [db_before_uploads ?n ?tr] =>
          rewrite (db_before_uploads_run n tr H)
      | H : count is_db ?tr = 0 |- context [count is_db ?tr] => rewrite H
      end
    | progress rewrite ?count_app, ?count_cons, ?count_nil ].

Ltac order_close :=
  order_facts;
  unfold uploads_after;
  rewrite ?app_nil_r;
  repeat order_step;
  repeat first [ apply Forall_nil_2 | apply Forall_app_2 | apply Forall_cons_2
               | apply Forall_replicate ];
  try reflexivity.

Lemma handler_upload_order (pf : Platform) (r : Route) (req : Request) :
  always (handler pf r req) (fun _ tr => uploads_after (db_before r) tr).
Proof.
  destruct r; unfold handler, db_before.
  all: unfold Products.post, Products.get_list, Products.get_one, Products.put,
    Products.delete, Variations.post, Variations.get_for_product, Variations.put,
    Variations.delete, Settings.get_all, Settings.get_key, Settings.put_key,
    Settings.post_upload, Settings.post_video, Settings.get_initialize, Settings.user_id.
  all: exec.
  all: order_close.
Qed.

Lemma handle_upload_order (pf : Platform) (r : Route) (req : Request) :
  always (handle pf r req)
    (fun _ tr => uploads_after (middleware_db r + db_before r) tr).
Proof.
  unfold handle, middleware_db. destruct (router_of r) eqn:Hr.
  - apply handler_upload_order.
  - apply handler_upload_order.
  - unfold Settings.table_check. simpl. intros [a | e]; simpl.
    all: eapply always_mono; [| apply handler_upload_order].
    all: simpl; unfold uploads_after; intros _ tr H; simpl.
    all: rewrite db_before_uploads_S, Forall_fmap.
    all: eapply Forall_impl; [exact H |]; simpl; intros; lia.
Qed.

(** C1, as amended: every route performs at most three database
    operations for a request.  The handler itself performs at most
    [db_bound]: one for the listings, the deletes, POST variations, GET
    settings and GET setting; two for POST, GET-by-id and PUT products
    (insert then update of the images, product then variations, stored
    images then update), PUT setting and the video upload (update, then
    insert when no row matched), the image upload and initialize; three
    for PUT variations.  The settings router adds the table probe of its
    middleware.  Storage uploads, one at most for each received file, are
    made in one run, with no database operation between two of them:
    after exactly [db_before] database operations of the handler, which
    is none in PUT products, POST variations and the video upload (there
    the uploads come before every database operation of the handler), and
    one in POST products (the insert), PUT variations (the read of
    product_id) and the image upload (the read of the setting). *)
Theorem C1_database_operations (pf : Platform) (r : Route) (req : Request) :
  always (handle pf r req)
    (fun _ tr => count is_db tr <= middleware_db r + db_bound r
                 /\ count is_upload tr <= files_received req
                 /\ uploads_after (middleware_db r + db_before r) tr)
  /\ always (handler pf r req)
       (fun _ tr => count is_db tr <= db_bound r /\ uploads_after (db_before r) tr)
  /\ middleware_db r + db_bound r <= 3.
Proof.
  split; [| split].
  - eapply always_mono;
      [| apply always_and; [apply handle_calls | apply handle_upload_order]].
    unfold calls_within. simpl. intros o tr [H Ho]. repeat split; [lia | lia | done].
  - eapply always_mono;
      [| apply always_and; [apply handler_calls | apply handler_upload_order]].
    unfold calls_within. simpl. intros o tr [H Ho]. split; [lia | done].
  - apply db_bound_le_3.
Qed.

(** The two orders, on a run: POST of a product uploads after the insert,
    PUT of a product before its first database operation. *)
Example post_product_uploads_after_insert :
  db_before_uploads 0
    (serve storing_service (handle example_platform ProductsPost post_product_request)).2
  = [ 1 ].
Proof. vm_compute. reflexivity. Qed.

Example put_product_uploads_first :
  db_before_uploads 0
    (trace_of store_respond (handle example_platform ProductsPut put_product_request)
       (shop false))
  = [ 0 ].
Proof. vm_compute. reflexivity. Qed.

(** C1 as stated fails: PUT on a setting that has no row yet updates,
    gets "no rows" back, and inserts. *)
Lemma C1_counterexample :
  ~ (forall pf r req, always (handler pf r req) (fun _ tr => single_db_operation tr)).
Proof.
  intros H.
  pose proof (always_run (stateless upsert_service) _ _ tt
                (H example_platform SettingsPutKey put_setting_request)) as Hrun.
  vm_compute in Hrun. lia.
Qed.

(** C3, as amended: a request is translated into at most three database
    calls, one upload at most for each file it carries, and URL calls:
    three at most for each image key in the rows the database returned,
    and one more in the two settings uploads. *)
Theorem C3_api_calls (pf : Platform) (r : Route) (req : Request) :
  always (handle pf r req)
    (fun _ tr =>
       count is_db tr <= 3
       /\ count is_upload tr <= files_received req
       /\ count is_url tr <= url_extra r + 3 * images_returned tr
       /\ count is_api tr
           <= 3 + files_received req + url_extra r + 3 * images_returned tr).
Proof.
  eapply always_mono; [| apply handle_calls].
  intros o tr H. rewrite count_api. pose proof (db_bound_le_3 r).
  unfold calls_within in H. lia.
Qed.

(** C3 as stated fails: POST of a product with one image inserts the
    row, uploads the file, updates the row and asks for the public URL. *)
Lemma C3_counterexample :
  ~ (forall pf r req, always (handler pf r req) (fun _ tr => at_most_two_calls tr)).
Proof.
  intros H.
  pose proof (always_run (stateless storing_service) _ _ tt
                (H example_platform ProductsPost post_product_request)) as Hrun.
  vm_compute in Hrun. lia.
Qed.


(** ** Site settings (C10) *)

Lemma fold_settings (rows : list Obj) (k : string) :
  k <> "__proto__" ->
  foldl Settings.add_setting ∅ rows !! k = stored_setting rows k.
Proof.
  intros Hk. unfold stored_setting.
  induction rows as [| row rows IH] using rev_ind; [done |].
  rewrite foldl_app, filter_app. simpl. unfold Settings.add_setting at 1.
  rewrite filter_cons, filter_nil.
  destruct (String.eqb_spec (to_str (prop row "key")) "__proto__") as [Hp | Hp].
  - rewrite IH. case_decide as Heq; [congruence |]. by rewrite app_nil_r.
  - case_decide as Heq.
    + rewrite Heq, lookup_insert_eq, last_snoc. done.
    + rewrite lookup_insert_ne by done. by rewrite IH, app_nil_r.
Qed.

Lemma fold_settings_truthy (rows : list Obj) (k : string) (v : Val) :
  foldl Settings.add_setting ∅ rows !! k = Some v -> truthy v = true.
Proof.
  revert v. induction rows as [| row rows IH] using rev_ind; intros v; [done |].
  rewrite foldl_app. simpl. unfold Settings.add_setting at 1.
  destruct (String.eqb _ "__proto__"); [apply IH |].
  destruct (decide (to_str (prop row "key") = k)) as [<- | Hne].
  - rewrite lookup_insert_eq. by intros [= <-].
  - rewrite lookup_insert_ne by done. apply IH.
Qed.

Lemma ensure_setting_same (k d : string) (o : Obj) :
  (forall v, o !! k = Some v -> truthy v = true) ->
  Settings.ensure_setting k d o !! k = Some (default (Settings.text_setting d) (o !! k)).
Proof.
  intros Ht. unfold Settings.ensure_setting, prop.
  destruct (o !! k) as [v |] eqn:Hv; simpl.
  - by rewrite (Ht v eq_refl).
  - by rewrite lookup_insert_eq.
Qed.

Lemma ensure_setting_other (k k' d : string) (o : Obj) :
  k <> k' -> Settings.ensure_setting k d o !! k' = o !! k'.
Proof.
  intros Hne. unfold Settings.ensure_setting.
  destruct (truthy (prop o k)); [done |]. by rewrite lookup_insert_ne.
Qed.

Lemma settings_object_lookup (rows : list Obj) (k : string) :
  k <> "__proto__" ->
  Settings.settings_object rows !! k =
    match (list_to_map background_defaults : gmap string string) !! k with
    | Some d => Some (default (Settings.text_setting d) (stored_setting rows k))
    | None => stored_setting rows k
    end.
Proof.
  intros Hk. unfold Settings.settings_object.
  pose proof (fold_settings_truthy rows) as Ht.
  destruct (decide (k = "site_background_video_url")) as [-> | H3].
  { rewrite ensure_setting_same.
    - rewrite !ensure_setting_other by done. by rewrite fold_settings.
    - intros v. rewrite !ensure_setting_other by done. apply Ht. }
  rewrite ensure_setting_other by done.
  destruct (decide (k = "site_background_value")) as [-> | H2].
  { rewrite ensure_setting_same.
    - rewrite !ensure_setting_other by done. by rewrite fold_settings.
    - intros v. rewrite !ensure_setting_other by done. apply Ht. }
  rewrite ensure_setting_other by done.
  destruct (decide (k = "site_background_type")) as [-> | H1].
  { rewrite ensure_setting_same by apply Ht. by rewrite fold_settings. }
  rewrite ensure_setting_other by done. rewrite fold_settings by done.
  replace ((list_to_map background_defaults : gmap string string) !! k)
    with (@None string); [done |].
  symmetry. unfold background_defaults. simpl.
  by rewrite !lookup_insert_ne, lookup_empty.
Qed.

Lemma missing_table_returned (e : JsError) :
  Settings.missing_table_error e = missing_table returned_codes e.
Proof.
  unfold Settings.missing_table_error, missing_table. simpl.
  rewrite !orb_false_r. by rewrite !orb_assoc.
Qed.

Lemma missing_table_thrown (e : JsError) :
  Settings.missing_table_exception e = missing_table thrown_codes e.
Proof.
  unfold Settings.missing_table_exception, missing_table. simpl.
  rewrite !orb_false_r. rewrite orb_comm. by rewrite !orb_assoc.
Qed.

Lemma text_setting_default (d : string) : Settings.text_setting d = default_setting d.
Proof. reflexivity. Qed.

(** C10, as amended: when the query succeeds, GET on the settings
    collection answers 200 with a settings object in which
    site_background_type, site_background_value and
    site_background_video_url are present, holding the stored row when
    there is one and the defaults 'color', '#f5f5f5' and '' (of type
    'text') otherwise.  When the query returns an error that carries the
    code 42P01 or PGRST116, or a message containing 'does not exist',
    'relation' or 'não existe', it answers 200 with an empty settings
    object.  When the query throws, it does so for the same marks in the
    message and for the code 42P01 only: an error thrown with the code
    PGRST116 and none of the marks is answered with status 500.  Any
    other failure is answered with status 500 and the error message,
    without a settings object. *)
Theorem C10_settings (development : bool) (req : Request) (rows : list Obj) :
  always (Settings.get_all development req)
    (fun o tr => exists ans resp,
       tr = [ Ev (CDbMany settings_query) ans ] /\ o = Ok resp
       /\ settings_answer development ans resp)
  /\ Forall (fun d : string * string =>
       Settings.settings_object rows !! d.1
       = Some (default (default_setting d.2) (stored_setting rows d.1)))
       background_defaults.
Proof.
  split.
  - unfold Settings.get_all, settings_answer. simpl. intros [r | e]; simpl.
    + destruct (error r) as [e |] eqn:He; simpl.
      * rewrite missing_table_returned.
        destruct (missing_table returned_codes e) eqn:Hm; simpl.
        all: exists (Ok r); eexists; rewrite He, Hm; done.
      * exists (Ok r). eexists. by rewrite He.
    + rewrite missing_table_thrown.
      destruct (missing_table thrown_codes e) eqn:Hm; simpl.
      all: exists (Thrown e); eexists; rewrite Hm; done.
  - repeat constructor; simpl; by rewrite settings_object_lookup.
Qed.

(** The same error, returned and thrown: returned it counts as a
    missing table, thrown it is answered with status 500. *)
Example rejection_PGRST116 (development : bool) (req : Request) :
  missing_table returned_codes no_rows_rejection = true
  /\ missing_table thrown_codes no_rows_rejection = false
  /\ (serve (rejecting_service no_rows_rejection) (Settings.get_all development req)).1
     = Ok (res_status_json 500
             (Settings.error_stack_body development no_rows_rejection)).
Proof. by destruct development. Qed.

(** C10 as stated fails: a failure that is not a missing table is
    answered with status 500 and no settings object. *)
Lemma C10_counterexample :
  ~ (forall development req,
       always (Settings.get_all development req)
         (fun o _ => exists resp, o = Ok resp /\ returns_settings resp)).
Proof.
  intros H.
  pose proof (always_run (stateless timeout_service) _ _ tt (H false empty_request)) as Hrun.
  vm_compute in Hrun. destruct Hrun as (resp & [= <-] & Hs & _). discriminate Hs.
Qed.

(** ** The product listing (C7) *)

Lemma sort_clause_selected (req : Request) :
  Products.sort_clause req = [ ordering_selected req ].
Proof.
  unfold Products.sort_clause, ordering_selected.
  destruct (query req !! "sort") as [[s | l] |]; simpl; [| done | done].
  destruct (String.eqb_spec s "") as [-> | Hs]; simpl; [done |].
  destruct (String.eqb_spec s "price_asc") as [-> | H1]; [done |].
  destruct (String.eqb_spec s "price_desc") as [-> | H2]; [done |].
  destruct (String.eqb_spec s "name_asc") as [-> | H3]; [done |].
  destruct (String.eqb_spec s "name_desc") as [-> | H4]; [done |].
  unfold orderings. simpl.
  rewrite !lookup_insert_ne by done.
  destruct (decide ("newest" = s)) as [<- | H5].
  - by rewrite lookup_insert_eq.
  - by rewrite lookup_insert_ne, lookup_empty.
Qed.

Lemma get_list_query (req : Request) (cl : list Clause) :
  Products.list_clauses req = Ok cl ->
  always (Products.get_list req)
    (fun _ tr => exists ans rest,
       tr = Ev (CDbMany (listing_query cl)) ans :: rest /\ count is_db rest = 0).
Proof.
  intros Hcl. unfold Products.get_list. rewrite Hcl. simpl.
  intros [r | e]; simpl.
  - destruct (error r) as [e |] eqn:He; simpl.
    + by eexists _, _.
    + unfold bind. do 2 apply always_pbind.
      eapply always_mono;
        [| apply mapM_rows_calls; intros;
           apply (productWithAccessibleImages_calls (Some _) false)].
      simpl. intros o tr (cs & -> & (Hdb & _)). simpl.
      eexists _, _. split; [done |]. rewrite !app_nil_r. lia.
  - by eexists _, _.
Qed.

Lemma active_filter_visibility (req : Request) :
  Products.active_filter req = visibility req.
Proof.
  unfold Products.active_filter, Products.is_admin, visibility, prop.
  destruct (user req) as [u |]; [| done]. simpl.
  destruct (u !! "role") as [[| | b | n | s | l | o] |]; simpl; try done.
  destruct (String.eqb_spec s "admin"); by case_decide.
Qed.

Lemma search_filter_clauses (req : Request) :
  Products.search_filter req = filter_clauses req Search.
Proof.
  unfold Products.search_filter, filter_clauses. simpl.
  destruct (query req !! "search") as [[s | l] |]; simpl; [| done | done].
  by destruct (String.eqb s "").
Qed.

Lemma brand_filter_clauses (req : Request) :
  Products.brand_filter req = filter_clauses req Brand.
Proof.
  unfold Products.brand_filter, filter_clauses. simpl.
  destruct (query req !! "brand") as [[s | l] |]; simpl; [| done | done].
  by destruct (String.eqb s "").
Qed.

Lemma among_spec (mk : list Val -> Clause) (l : list string) :
  (if bool_decide (l = []) then Ok [] else Ok [ mk (VStr <$> l) ])
  = Ok (among mk l) :> Outcome (list Clause).
Proof. by destruct l. Qed.

Lemma list_filter_clauses (f : Filter) (mk : list Val -> Clause) (req : Request)
    (cl : list Clause) :
  (forall q, predicate f q = among mk (values q)) ->
  Products.list_filter (parameter f) mk req = Ok cl -> cl = filter_clauses req f.
Proof.
  intros Hf. unfold Products.list_filter, filter_clauses.
  destruct (query req !! parameter f) as [[s | l] |]; simpl;
    [| done | by intros [= <-]].
  destruct (String.eqb s ""); simpl; [by intros [= <-] |].
  rewrite Hf, among_spec. by intros [= <-].
Qed.

Lemma category_types_Ok (cats acc ts : list string) :
  Products.category_types cats acc = Ok ts -> ts = acc ++ cats ≫= types_of.
Proof.
  revert acc. induction cats as [| c cats IH]; intros acc; simpl.
  - intros [= <-]. by rewrite app_nil_r.
  - unfold types_of at 1.
    destruct (_ !! c) as [tc |] eqn:Hc; simpl.
    + intros H%IH. by rewrite H, <- app_assoc.
    + case_bool_decide; [done |]. apply IH.
Qed.

Lemma categories_filter_clauses (req : Request) (cl : list Clause) :
  Products.categories_filter req = Ok cl -> cl = filter_clauses req Categories.
Proof.
  unfold Products.categories_filter, filter_clauses. simpl.
  destruct (query req !! "categories") as [[s | l] |]; simpl;
    [| done | by intros [= <-]].
  destruct (String.eqb s ""); simpl; [by intros [= <-] |].
  case_bool_decide as Hl; [intros [= <-]; by rewrite Hl |].
  destruct (Products.category_types _ []) as [ts | e] eqn:Hts; [| done].
  apply category_types_Ok in Hts. simpl in Hts. subst ts.
  rewrite among_spec. by intros [= <-].
Qed.

Ltac range_cases s :=
  repeat match goal with
    | |- context [String.eqb s ?lit] =>
        destruct (String.eqb_spec s lit) as [-> | ?]; simpl;
        [vm_compute; reflexivity |]
    end;
  rewrite !lookup_insert_ne by done; by rewrite lookup_empty.

Lemma price_filter_clauses (req : Request) :
  Products.price_filter req = filter_clauses req PriceRange.
Proof.
  unfold Products.price_filter, filter_clauses. simpl.
  destruct (query req !! "priceRange") as [[s | l] |]; simpl; [| done | done].
  destruct (String.eqb_spec s "") as [-> | H0]; simpl; [done |].
  range_cases s.
Qed.

Lemma discount_filter_clauses (req : Request) :
  Products.discount_filter req = filter_clauses req DiscountRange.
Proof.
  unfold Products.discount_filter, filter_clauses. simpl.
  destruct (query req !! "discountRange") as [[s | l] |]; simpl; [| done | done].
  destruct (String.eqb_spec s "") as [-> | H0]; simpl; [done |].
  range_cases s.
Qed.

Lemma list_clauses_predicates (req : Request) (cl : list Clause) :
  Products.list_clauses req = Ok cl ->
  cl = visibility req ++ listing_predicates req ++ [ ordering_selected req ].
Proof.
  unfold Products.list_clauses, Products.obind.
  destruct (Products.brands_filter req) as [brands | e] eqn:H1; [| done].
  destruct (Products.types_filter req) as [types | e] eqn:H2; [| done].
  destruct (Products.categories_filter req) as [categories | e] eqn:H3; [| done].
  destruct (Products.sizes_filter req) as [sizes | e] eqn:H4; [| done].
  destruct (Products.colors_filter req) as [colors | e] eqn:H5; [| done].
  intros [= <-].
  apply (list_filter_clauses Brands) in H1; [| done].
  apply (list_filter_clauses Types) in H2; [| done].
  apply categories_filter_clauses in H3.
  apply (list_filter_clauses Sizes) in H4; [| done].
  apply (list_filter_clauses Colors) in H5; [| done].
  subst. rewrite active_filter_visibility, search_filter_clauses, brand_filter_clauses,
    price_filter_clauses, discount_filter_clauses, sort_clause_selected.
  unfold listing_predicates, filters. simpl. rewrite app_nil_r.
  by rewrite <- !app_assoc.
Qed.

Lemma no_order_filter (l : list Clause) :
  Forall (fun c => is_order c = false) l -> filter (fun c => is_order c = true) l = [].
Proof.
  induction 1 as [| c l Hc _ IH]; [done |].
  rewrite filter_cons, Hc. by case_decide.
Qed.

Lemma range_no_order (table : list (string * list Clause)) (q : QVal) :
  Forall (fun p => Forall (fun c => is_order c = false) p.2) table ->
  filter (fun c => is_order c = true) (range table q) = [].
Proof.
  intros Ht. destruct q as [s | l]; [| done]. simpl.
  destruct (_ !! s) as [p |] eqn:Hp; [| done]. simpl.
  apply elem_of_list_to_map_2 in Hp. rewrite Forall_forall in Ht.
  apply no_order_filter. exact (Ht _ Hp).
Qed.

Lemma among_no_order (mk : list Val -> Clause) (l : list string) :
  (forall vs, is_order (mk vs) = false) ->
  filter (fun c => is_order c = true) (among mk l) = [].
Proof.
  intros Hmk. destruct l as [| x l]; [done |]. simpl.
  rewrite filter_cons, Hmk. by case_decide.
Qed.

Lemma filter_clauses_no_order (req : Request) (f : Filter) :
  filter (fun c => is_order c = true) (filter_clauses req f) = [].
Proof.
  unfold filter_clauses.
  destruct (query req !! parameter f) as [q |]; [| done].
  destruct (qtruthy (Some q)); [| done].
  destruct f; simpl; try (by apply among_no_order); try done.
  - apply range_no_order. repeat constructor.
  - apply range_no_order. repeat constructor.
Qed.

Lemma ordering_selected_order (req : Request) : is_order (ordering_selected req) = true.
Proof.
  unfold ordering_selected.
  destruct (query req !! "sort") as [[s | l] |]; try done.
  destruct (_ !! s) as [c |] eqn:Hc; [| done]. simpl.
  apply elem_of_list_to_map_2 in Hc.
  unfold orderings in Hc. rewrite !elem_of_cons, elem_of_nil in Hc.
  repeat (destruct Hc as [Hc | Hc]; [by simplify_eq |]). done.
Qed.

Lemma visibility_no_order (req : Request) :
  filter (fun c => is_order c = true) (visibility req) = [].
Proof.
  unfold visibility. destruct (user req ≫= _) as [[| | b | n | s | l | o] |]; try done.
  by case_decide.
Qed.

(** C7: in the product listing each of the nine filters adds its
    predicate to the query when its query parameter is present and not
    empty, and only then: the clauses of the query are the visibility
    clause, then the predicates of the filters in the order search,
    brand, brands, types, categories, sizes, colors, price range and
    discount range, then the ordering.  The query carries exactly one
    ordering clause, the one [sort] names, newest first (created_at
    descending) when [sort] is absent or names none.  The handler sends
    this clause list, in one database call. *)
Theorem C7_listing_filters (req : Request) (cl : list Clause) :
  Products.list_clauses req = Ok cl ->
  cl = visibility req ++ listing_predicates req ++ [ ordering_selected req ]
  /\ (forall f, filter_clauses req f <> [] -> present req (parameter f))
  /\ filter (fun c => is_order c = true) cl = [ ordering_selected req ]
  /\ always (Products.get_list req)
       (fun _ tr => exists ans rest,
          tr = Ev (CDbMany (listing_query cl)) ans :: rest /\ count is_db rest = 0).
Proof.
  intros Hcl. split; [by apply list_clauses_predicates |].
  split; [| split; [| by apply get_list_query]].
  - intros f. unfold filter_clauses, present.
    destruct (query req !! parameter f) as [q |]; [| done].
    by destruct (qtruthy (Some q)).
  - rewrite (list_clauses_predicates req cl Hcl).
    rewrite !filter_app, visibility_no_order. unfold listing_predicates, filters.
    simpl. rewrite !filter_app, !filter_clauses_no_order. simpl.
    rewrite filter_cons, filter_nil, ordering_selected_order. by case_decide.
Qed.

Lemma C7_witness :
  Products.list_clauses listing_request = Ok listing_clauses
  /\ filter (fun c => is_order c = true) listing_clauses = [ Order "price" (Some true) ].
Proof.
  assert (H : Products.list_clauses listing_request = Ok listing_clauses)
    by (vm_compute; reflexivity).
  split; [exact H |].
  destruct (C7_listing_filters listing_request listing_clauses H) as (_ & _ & Ho & _).
  exact Ho.
Defined.


(** ** What the image helpers compute (C4, C5, C8) *)

Lemma not_rewritten (k : string) :
  k ∉ rewritten -> k <> "images" /\ k <> "image" /\ k <> "variations".
Proof.
  unfold rewritten. rewrite !not_elem_of_cons. intros (? & ? & ? & _). done.
Qed.

Lemma is_active_not_rewritten : "is_active" ∉ rewritten.
Proof. unfold rewritten. rewrite !not_elem_of_cons. repeat split; try done. apply not_elem_of_nil. Qed.

Lemma generated_app_l (tr1 tr2 : list Event) (u : Val) :
  generated tr1 u -> generated (tr1 ++ tr2) u.
Proof. unfold generated. rewrite Exists_app. by left. Qed.

Lemma generated_app_r (tr1 tr2 : list Event) (u : Val) :
  generated tr2 u -> generated (tr1 ++ tr2) u.
Proof. unfold generated. rewrite Exists_app. by right. Qed.

Lemma accessible_app_l (tr1 tr2 : list Event) (u : Val) :
  accessible tr1 u -> accessible (tr1 ++ tr2) u.
Proof. intros [H | H]; [left; by apply generated_app_l | by right]. Qed.

Lemma accessible_app_r (tr1 tr2 : list Event) (u : Val) :
  accessible tr2 u -> accessible (tr1 ++ tr2) u.
Proof. intros [H | H]; [left; by apply generated_app_r | by right]. Qed.

Lemma accessible_cons (e : Event) (tr : list Event) (u : Val) :
  accessible tr u -> accessible (e :: tr) u.
Proof. apply (accessible_app_r [e]). Qed.

Lemma pub_or_null_truthy (pub : PubResp) :
  truthy (Products.pub_or_null pub) = true ->
  Products.pub_or_null pub = data_publicUrl pub
  \/ Products.pub_or_null pub = publicURL pub.
Proof.
  unfold Products.pub_or_null, js_or.
  destruct (truthy (data_publicUrl pub)) eqn:H1; simpl.
  - rewrite H1. by left.
  - destruct (truthy (publicURL pub)) eqn:H2; simpl; [by right | done].
Qed.

Lemma pub_url_Some (pub : PubResp) (u : Val) :
  pub_url pub = Some u -> u = data_publicUrl pub \/ u = publicURL pub.
Proof.
  unfold pub_url.
  destruct (truthy (data_publicUrl pub)); [intros [= <-]; by left |].
  destruct (truthy (publicURL pub)); [intros [= <-]; by right | done].
Qed.

Lemma pub_url_None_null (pub : PubResp) :
  pub_url pub = None -> Products.pub_or_null pub = VNull.
Proof.
  unfold pub_url, Products.pub_or_null, js_or.
  destruct (truthy (data_publicUrl pub)) eqn:H1; [done |].
  by destruct (truthy (publicURL pub)) eqn:H2.
Qed.

Lemma last_resort_generated (key : Val) (o : Outcome PubResp) (tr : list Event) :
  truthy (last_resort o) = true ->
  generated (tr ++ [ Ev (pub_call key) o ]) (last_resort o).
Proof.
  intros Ht. apply generated_app_r. apply Exists_cons_hd.
  destruct o as [pub | e]; [| done]. simpl in *. by apply pub_or_null_truthy.
Qed.

(** The URL made for a product image key is null or accessible. *)
Lemma makeAccessibleUrl_accessible (key : Val) :
  always (Products.makeAccessibleUrl key)
    (fun o tr => exists u, o = Ok u /\ (truthy u = true -> accessible tr u)
                           /\ count is_db tr = 0).
Proof.
  eapply always_mono; [| apply makeAccessibleUrl_cases].
  intros o tr. unfold product_url_generation.
  destruct (negb (truthy key)); [| destruct (Products.already_url key) eqn:Hu].
  - intros [-> ->]. by exists VNull.
  - intros [-> ->]. exists key. split; [done |]. split; [by right | done].
  - intros [(pub & u & -> & Hp & ->) | [(pub & s & -> & Hp & ->)
      | [(e & o' & -> & ->) | (pub & e & o' & -> & Hp & ->)]]].
    + exists u. split; [done |]. split; [| done]. intros _. left.
      apply Exists_cons_hd. by apply pub_url_Some.
    + eexists. split; [done |]. split; [| done]. unfold signed_result.
      rewrite (pub_url_None_null _ Hp).
      destruct (signErr s); [done |].
      destruct (truthy (signedURL s)) eqn:Hs; [| done].
      intros _. left. apply Exists_cons_tl, Exists_cons_hd. done.
    + eexists. split; [done |]. split; [| done]. intros Ht. left.
      by apply (last_resort_generated key o' [_]).
    + eexists. split; [done |]. split; [| done]. intros Ht. left.
      by apply (last_resort_generated key o' [_; _]).
Qed.

Lemma variation_image_url_accessible (key : Val) :
  always (Products.variation_image_url key)
    (fun o tr => exists u, o = Ok u /\ (truthy u = true -> accessible tr u)
                           /\ count is_db tr = 0).
Proof.
  eapply always_mono; [| apply variation_image_url_cases].
  intros o tr (o' & -> & ->). eexists. split; [done |]. split; [| done].
  intros Ht. left. apply Exists_cons_hd.
  destruct o' as [pub | e]; [| done]. simpl in *.
  destruct (pub_url pub) as [u |] eqn:Hp; [| done]. by apply pub_url_Some.
Qed.

(** The step shared by the three helpers: map the keys, keep what is
    not empty. *)
Lemma images_step_accessible (f : Val -> M Val) (clone : Obj) :
  (forall key, always (f key)
     (fun o tr => exists u, o = Ok u /\ (truthy u = true -> accessible tr u)
                            /\ count is_db tr = 0)) ->
  always
    (match nonempty_array (prop clone "images") with
     | Some keys =>
         let* urls := mapM f keys in
         ret (filter (fun u => truthy u = true) urls)
     | None => ret []
     end)
    (fun o tr => exists images, o = Ok images
       /\ Forall (fun u => truthy u = true /\ accessible tr u) images
       /\ count is_db tr = 0).
Proof.
  intros Hf. destruct (nonempty_array (prop clone "images")) as [keys |] eqn:Hk.
  - apply always_bind.
    eapply always_mono;
      [| apply (always_mapM f
           (fun _ u tr => (truthy u = true -> accessible tr u) /\ count is_db tr = 0))].
    + simpl. intros o tr (urls & trs & -> & -> & Hall). simpl.
      eexists. split; [done |]. rewrite app_nil_r.
      clear Hk. induction Hall as [| key u tr keys urls trs [Hu Hd] _ [IH1 IH2]]; simpl.
      { split; [constructor | done]. }
      rewrite count_app, Hd, IH2. split; [| done].
      rewrite filter_cons. case_decide as Ht.
      * constructor.
        -- split; [done |]. by apply accessible_app_l, Hu.
        -- eapply Forall_impl; [apply IH1 |]. simpl. intros v [? ?].
           split; [done |]. by apply accessible_app_r.
      * eapply Forall_impl; [apply IH1 |]. simpl. intros v [? ?].
        split; [done |]. by apply accessible_app_r.
    + intros key _. apply Hf.
  - simpl. exists []. by repeat split.
Qed.

Lemma images_ok_mono (tr0 tr tr1 : list Event) (images : list Val) :
  Forall (fun u => truthy u = true /\ accessible tr u) images ->
  Forall (fun u => truthy u = true /\ accessible (tr0 ++ tr ++ tr1) u) images.
Proof.
  intros H. eapply Forall_impl; [apply H |]. intros u [? ?]. split; [done |].
  by apply accessible_app_r, accessible_app_l.
Qed.

Lemma product_images_ok_mono (tr0 tr tr1 : list Event) (c : Obj) :
  product_images_ok tr c -> product_images_ok (tr0 ++ tr ++ tr1) c.
Proof.
  intros (images & ? & ? & H). exists images. repeat split; try done.
  by apply images_ok_mono.
Qed.

Lemma variation_images_ok_mono (tr0 tr tr1 : list Event) (c : Obj) :
  variation_images_ok tr c -> variation_images_ok (tr0 ++ tr ++ tr1) c.
Proof.
  intros (images & ? & H). exists images. split; [done |].
  by apply images_ok_mono.
Qed.

(** Mapping a helper over rows: each result keeps its property in the
    whole sequence of calls. *)
Lemma mapM_rows_ok {B : Type} (f : Obj -> M B) (P : Obj -> list Event -> B -> Prop)
    (rows : list Obj) :
  (forall row tr0 tr tr1 c, P row tr c -> P row (tr0 ++ tr ++ tr1) c) ->
  (forall row, always (f row)
     (fun o tr => exists c, o = Ok c /\ P row tr c /\ count is_db tr = 0)) ->
  always (mapM f rows)
    (fun o tr => exists cs, o = Ok cs
       /\ Forall2 (fun row c => P row tr c) rows cs /\ count is_db tr = 0).
Proof.
  intros Hmono Hf.
  eapply always_mono;
    [| apply (always_mapM f (fun row c tr => P row tr c /\ count is_db tr = 0))].
  - intros o tr (cs & trs & -> & -> & Hall). exists cs. split; [done |].
    induction Hall as [| row c tr rows cs trs [Hc Hd] _ [IH1 IH2]]; simpl.
    { split; [constructor | done]. }
    rewrite count_app, Hd, IH2. split; [| done]. constructor.
    + specialize (Hmono row [] tr (concat trs) c Hc). by simpl in Hmono.
    + eapply Forall2_impl; [apply IH1 |]. simpl. intros row' c' Hc'.
      specialize (Hmono row' tr (concat trs) [] c' Hc'). by rewrite app_nil_r in Hmono.
  - intros row _. apply Hf.
Qed.

(** The variation helper of the products router. *)
Lemma variationWithAccessibleImages_ok (variation : Obj) :
  always (Products.variationWithAccessibleImages variation)
    (fun o tr => exists c, o = Ok c
       /\ (product_images_ok tr c
           /\ forall k, k ∉ rewritten -> c !! k = variation !! k)
       /\ count is_db tr = 0).
Proof.
  unfold Products.variationWithAccessibleImages.
  apply always_bind. eapply always_mono;
    [| apply images_step_accessible, variation_image_url_accessible].
  simpl. intros o tr (images & -> & Hi & Hd). simpl. rewrite app_nil_r.
  eexists. split; [done |]. split; [| done]. split.
  - exists images. rewrite lookup_insert_ne, !lookup_insert_eq by done. done.
  - intros k Hk. apply not_rewritten in Hk as (? & ? & ?).
    by rewrite !lookup_insert_ne.
Qed.

(** The helper of the variations router. *)
Lemma variations_router_helper_ok (variation : option Obj) :
  always (Variations.variationWithAccessibleImages variation)
    (fun o tr => exists c, o = Ok c
       /\ (variation_images_ok tr c
           /\ forall k, k <> "images" -> c !! k = spread variation !! k)
       /\ count is_db tr = 0).
Proof.
  unfold Variations.variationWithAccessibleImages.
  apply always_bind. eapply always_mono;
    [| apply images_step_accessible, variation_image_url_accessible].
  simpl. intros o tr (images & -> & Hi & Hd). simpl. rewrite app_nil_r.
  eexists. split; [done |]. split; [| done]. split.
  - exists images. by rewrite lookup_insert_eq.
  - intros k Hk. by rewrite lookup_insert_ne.
Qed.

Lemma no_db_count (P : Event -> Prop) (tr : list Event) :
  Forall (fun e => is_db (ev_call e) = true -> P e) tr ->
  (forall e, P e -> False) -> count is_db tr = 0.
Proof.
  intros H HP. induction H as [| e tr He _ IH]; [done |].
  rewrite count_cons, IH. destruct (is_db (ev_call e)) eqn:Hd; [| done].
  destruct (HP e (He eq_refl)).
Qed.

Lemma count_db_0_Forall (P : Event -> Prop) (tr : list Event) :
  count is_db tr = 0 -> Forall (fun e => is_db (ev_call e) = true -> P e) tr.
Proof.
  induction tr as [| e tr IH]; [constructor |].
  rewrite count_cons. destruct (is_db (ev_call e)) eqn:Hd; [done |].
  intros H. constructor; [congruence | by apply IH].
Qed.

Lemma product_result_mono (product : option Obj) (tr0 tr tr1 : list Event) (c : Obj) :
  product_result product tr c -> product_result product (tr0 ++ tr ++ tr1) c.
Proof.
  intros (Hi & Hk & Hv). split; [by apply product_images_ok_mono |].
  split; [done |]. destruct Hv as [(vcs & Hc & Hall) | Hv]; [left | by right].
  exists vcs. split; [done |]. eapply Forall_impl; [apply Hall |].
  intros v. apply product_images_ok_mono.
Qed.

Lemma productWithAccessibleImages_ok (product : option Obj) (includeVariations : bool) :
  always (Products.productWithAccessibleImages product includeVariations)
    (fun o tr => exists c, o = Ok c
       /\ product_result product tr c
       /\ Forall (only_variations_query includeVariations (prop (spread product) "id")) tr).
Proof.
  unfold Products.productWithAccessibleImages.
  apply always_bind. eapply always_mono;
    [| apply images_step_accessible, makeAccessibleUrl_accessible].
  simpl. intros o tr (images & -> & Hi & Hd).
  set (clone := <["image" := Products.first_or_null images]>
                  (<["images" := VArr images]> (spread product))).
  assert (Hid : prop clone "id" = prop (spread product) "id").
  { unfold prop, clone. by rewrite !lookup_insert_ne. }
  assert (Hbase : forall tr1, product_result product (tr ++ tr1) clone).
  { intros tr1. split; [| split].
    - exists images. unfold clone.
      rewrite lookup_insert_ne, !lookup_insert_eq by done.
      repeat split. apply (images_ok_mono [] tr tr1 images Hi).
    - intros k Hk. apply not_rewritten in Hk as (? & ? & ?). unfold clone.
      by rewrite !lookup_insert_ne.
    - right. unfold clone. by rewrite !lookup_insert_ne. }
  assert (Hq0 : Forall (only_variations_query includeVariations
                          (prop (spread product) "id")) tr).
  { by apply count_db_0_Forall. }
  destruct (includeVariations && _) eqn:Hv.
  - apply andb_true_iff in Hv as [-> _]. rewrite Hid.
    set (q := Products.variations_query (prop (spread product) "id")). simpl.
    intros [r | e]; simpl.
    + destruct (error r) as [e |] eqn:He; [| destruct (data r) as [vs |] eqn:Hdt]; simpl.
      * eexists. split; [done |]. split; [apply Hbase |].
        apply Forall_app. split; [done |]. by repeat constructor.
      * apply always_try_catch, always_bind.
        eapply always_mono;
          [| apply (mapM_rows_ok Products.variationWithAccessibleImages
                      (fun v tr c => product_images_ok tr c
                                     /\ forall k, k ∉ rewritten -> c !! k = v !! k));
             [| apply variationWithAccessibleImages_ok]].
        -- simpl. intros o tr2 (vcs & -> & Hall & Hd2). simpl.
           rewrite app_nil_r. eexists. split; [done |]. split.
           ++ destruct (Hbase (Ev (CDbMany q) (Ok r) :: tr2)) as (Hb1 & Hb2 & _).
              split; [| split].
              ** destruct Hb1 as (imgs & ? & ? & ?). exists imgs.
                 by rewrite !lookup_insert_ne.
              ** intros k Hk. rewrite lookup_insert_ne; [by apply Hb2 |].
                 by apply not_rewritten in Hk as (? & ? & ?).
              ** left. exists vcs. rewrite lookup_insert_eq. split; [done |].
                 clear -Hall. induction Hall as [| v c vs vcs [Hc _] _ IH];
                   constructor; [| done].
                 apply (product_images_ok_mono (tr ++ [Ev (CDbMany q) (Ok r)]) tr2 [] c) in Hc.
                 by rewrite app_nil_r, <- app_assoc in Hc.
           ++ apply Forall_app. split; [done |]. constructor; [done |].
              by apply count_db_0_Forall.
        -- intros v tr0 tr1 tr3 c [Hc Hk]. split; [| done].
           by apply product_images_ok_mono.
      * eexists. split; [done |]. split; [apply Hbase |].
        apply Forall_app. split; [done |]. by repeat constructor.
    + eexists. split; [done |]. split.
      * destruct (Hbase [Ev (CDbMany q) (Thrown e)]) as (Hb1 & Hb2 & _).
        split; [| split].
        -- destruct Hb1 as (imgs & ? & ? & ?). exists imgs.
           by rewrite !lookup_insert_ne.
        -- intros k Hk. rewrite lookup_insert_ne; [by apply Hb2 |].
           by apply not_rewritten in Hk as (? & ? & ?).
        -- left. exists []. rewrite lookup_insert_eq. by split.
      * apply Forall_app. split; [done |]. by repeat constructor.
  - simpl. rewrite app_nil_r. eexists. split; [done |]. split; [| done].
    specialize (Hbase []). by rewrite app_nil_r in Hbase.
Qed.


(** ** The read endpoints, answer by answer *)

Lemma product_helper_no_variations (row : Obj) :
  always (Products.productWithAccessibleImages (Some row) false)
    (fun o tr => exists c, o = Ok c /\ product_result (Some row) tr c
                           /\ count is_db tr = 0).
Proof.
  eapply always_mono; [| apply productWithAccessibleImages_ok].
  simpl. intros o tr (c & -> & Hc & Hq). exists c. repeat split; try apply Hc.
  eapply no_db_count; [apply Hq |]. by intros e [? _].
Qed.

Lemma get_list_answer (req : Request) :
  always (Products.get_list req)
    (fun o tr => exists resp, o = Ok resp /\ list_answer req tr resp).
Proof.
  unfold Products.get_list, list_answer.
  destruct (Products.list_clauses req) as [cl | e]; simpl; [| by eexists].
  intros [r | e]; simpl.
  - destruct (error r) as [e |] eqn:He; simpl.
    + eexists. split; [done |]. eexists (Ok r), []. by rewrite He.
    + unfold bind. do 2 apply always_pbind.
      eapply always_mono;
        [| apply (mapM_rows_ok
                    (fun p => Products.productWithAccessibleImages (Some p) false)
                    (fun row tr c => product_result (Some row) tr c));
           [intros; by apply product_result_mono
           | apply product_helper_no_variations]].
      simpl. intros o tr (cs & -> & Hall & Hd). simpl. rewrite !app_nil_r.
      eexists. split; [done |]. exists (Ok r), tr. rewrite He.
      repeat split; [done |]. by exists cs.
  - eexists. split; [done |]. by eexists (Thrown e), [].
Qed.

Lemma get_one_answer (req : Request) :
  always (Products.get_one req)
    (fun o tr => exists resp, o = Ok resp /\ one_answer req tr resp).
Proof.
  unfold Products.get_one, one_answer.
  destruct (params req !! "id") as [id |]; simpl; [| by eexists].
  destruct (String.eqb id ""); simpl; [by eexists |].
  intros [r | e]; simpl.
  - destruct (error r) as [e |] eqn:He; [| destruct (data r) as [d |] eqn:Hd]; simpl.
    + destruct (Products.no_rows_error e) eqn:Hn; simpl.
      all: eexists; split; [done |]; eexists (Ok r), []; by rewrite He, Hn.
    + unfold bind. do 2 apply always_pbind.
      eapply always_mono; [| apply productWithAccessibleImages_ok].
      simpl. intros o tr (c & -> & Hc & Hq). simpl. rewrite !app_nil_r.
      eexists. split; [done |]. exists (Ok r), tr. rewrite He, Hd.
      split; [done |]. by exists c.
    + eexists. split; [done |]. eexists (Ok r), []. by rewrite He, Hd.
  - eexists. split; [done |]. by eexists (Thrown e), [].
Qed.

Lemma get_for_product_answer (req : Request) :
  always (Variations.get_for_product req)
    (fun o tr => exists resp, o = Ok resp /\ variations_answer req tr resp).
Proof.
  unfold Variations.get_for_product, variations_answer.
  destruct (params req !! "product_id") as [id |]; simpl; [| by eexists].
  destruct (String.eqb id ""); simpl; [by eexists |].
  intros [r | e]; simpl.
  - destruct (error r) as [e |] eqn:He; simpl.
    + eexists. split; [done |]. eexists (Ok r), []. by rewrite He.
    + unfold bind. do 2 apply always_pbind.
      eapply always_mono;
        [| apply (mapM_rows_ok
                    (fun v => Variations.variationWithAccessibleImages (Some v))
                    (fun row tr c => variation_images_ok tr c
                       /\ forall k, k <> "images" -> c !! k = row !! k));
           [intros row tr0 tr tr1 c [? ?]; split;
              [by apply variation_images_ok_mono | done]
           | intros row; apply (variations_router_helper_ok (Some row))]].
      simpl. intros o tr (cs & -> & Hall & Hd). simpl. rewrite !app_nil_r.
      eexists. split; [done |]. exists (Ok r), tr. rewrite He.
      repeat split; [done |]. by exists cs.
  - eexists. split; [done |]. by eexists (Thrown e), [].
Qed.


(** ** Image references in the answers (C4) *)

Lemma objects_fmap (cs : list Obj) : objects (Some (VArr (VObj <$> cs))) = cs.
Proof.
  induction cs as [| c cs IH]; [done |]. simpl in *. by f_equal.
Qed.

Lemma product_images_refs (tr : list Event) (c : Obj) :
  product_images_ok tr c -> Forall (accessible tr) (image_refs c).
Proof.
  intros (images & Hi & Hf & Hall). unfold image_refs, array_refs.
  rewrite Hi, Hf. apply Forall_app. split.
  - eapply Forall_impl; [apply Hall |]. by intros u [_ ?].
  - destruct Hall as [| u images [_ Hu] _]; simpl; [done |].
    destruct u; simpl; first [ by apply Forall_nil | by apply Forall_singleton ].
Qed.

Lemma variation_images_refs (tr : list Event) (c : Obj) :
  variation_images_ok tr c -> Forall (accessible tr) (array_refs c).
Proof.
  intros (images & Hi & Hall). unfold array_refs. rewrite Hi.
  eapply Forall_impl; [apply Hall |]. by intros u [_ ?].
Qed.

Lemma product_images_ok_cons (e : Event) (tr : list Event) (c : Obj) :
  product_images_ok tr c -> product_images_ok (e :: tr) c.
Proof. intros H. apply (product_images_ok_mono [e] tr []) in H. by rewrite app_nil_r in H. Qed.

Lemma variation_images_ok_cons (e : Event) (tr : list Event) (c : Obj) :
  variation_images_ok tr c -> variation_images_ok (e :: tr) c.
Proof. intros H. apply (variation_images_ok_mono [e] tr []) in H. by rewrite app_nil_r in H. Qed.

Lemma returned_products_error (s : nat) (e : Val) :
  returned_products (res_status_json s {[ "error" := e ]}) = [].
Proof. done. Qed.

Lemma list_answer_refs (req : Request) (tr : list Event) (resp : Response) :
  list_answer req tr resp ->
  Forall (fun c => product_images_ok tr c) (returned_products resp).
Proof.
  unfold list_answer. destruct (Products.list_clauses req) as [cl | e].
  - intros (ans & rest & -> & _ & H). destruct ans as [r | e].
    + destruct (error r) as [e |]; [by subst |].
      destruct H as (cs & -> & Hall). unfold returned_products. simpl json.
      rewrite lookup_singleton_eq, objects_fmap.
      rewrite lookup_singleton_ne by done. simpl. rewrite app_nil_r.
      induction Hall as [| row c rows cs (Hc & _) _ IH]; constructor; [| done].
      by apply product_images_ok_cons.
    + by subst.
  - by intros [-> ->].
Qed.

Lemma one_answer_refs (req : Request) (tr : list Event) (resp : Response) :
  one_answer req tr resp ->
  Forall (fun c =>
            product_images_ok tr c
            /\ (Forall (product_images_ok tr) (objects (c !! "variations"))
                \/ c !! "variations" = spread (first_row tr) !! "variations"))
         (returned_products resp).
Proof.
  unfold one_answer. destruct (params req !! "id") as [id |]; [| by intros [-> ->]].
  destruct (String.eqb id ""); [by intros [-> ->] |].
  intros (ans & rest & -> & H). destruct ans as [r | e]; [| by destruct H as [-> ->]].
  destruct (error r) as [e |] eqn:He.
  { destruct H as [-> ->]. unfold not_found. by destruct (Products.no_rows_error e). }
  destruct (data r) as [d |] eqn:Hd; [| by destruct H as [-> ->]].
  destruct H as (c & -> & (Hi & _ & Hv) & _).
  unfold returned_products. simpl json.
  rewrite lookup_singleton_ne by done. rewrite lookup_singleton_eq. simpl.
  constructor; [| done]. split; [by apply product_images_ok_cons |].
  destruct Hv as [(vcs & -> & Hall) | Hv].
  - left. rewrite objects_fmap. eapply Forall_impl; [apply Hall |].
    intros v. apply product_images_ok_cons.
  - right. by rewrite Hd.
Qed.

Lemma variations_answer_refs (req : Request) (tr : list Event) (resp : Response) :
  variations_answer req tr resp ->
  Forall (variation_images_ok tr) (returned_variations resp).
Proof.
  unfold variations_answer.
  destruct (params req !! "product_id") as [id |]; [| by intros [-> ->]].
  destruct (String.eqb id ""); [by intros [-> ->] |].
  intros (ans & rest & -> & _ & H). destruct ans as [r | e]; [| by subst].
  destruct (error r) as [e |]; [by subst |].
  destruct H as (cs & -> & Hall). unfold returned_variations. simpl json.
  rewrite lookup_singleton_eq, objects_fmap.
  induction Hall as [| row c rows cs (Hc & _) _ IH]; constructor; [| done].
  by apply variation_images_ok_cons.
Qed.

(** C4, as amended: every image reference the read endpoints compute
    -- the [images] array and the [image] field of each returned product
    and of each variation attached to it, and the [images] array of each
    variation the variations router returns -- is a URL the storage
    service generated during the request (public or signed), or a stored
    entry that already was an http(s) URL and is passed through as it
    is. *)
Theorem C4_image_references (pf : Platform) (req : Request) :
  always (handle pf ProductsList req)
    (fun o tr => exists resp, o = Ok resp
       /\ Forall (fun c => Forall (accessible tr) (image_refs c)) (returned_products resp))
  /\ always (handle pf ProductsGet req)
       (fun o tr => exists resp, o = Ok resp
          /\ Forall (fun c =>
               Forall (accessible tr) (image_refs c)
               /\ (Forall (fun v => Forall (accessible tr) (image_refs v))
                          (objects (c !! "variations"))
                   \/ c !! "variations" = spread (first_row tr) !! "variations"))
               (returned_products resp))
  /\ always (handle pf VariationsGet req)
       (fun o tr => exists resp, o = Ok resp
          /\ Forall (fun c => Forall (accessible tr) (array_refs c))
               (returned_variations resp)).
Proof.
  split; [| split]; unfold handle; simpl.
  - eapply always_mono; [| apply get_list_answer].
    simpl. intros o tr (resp & -> & H). exists resp. split; [done |].
    eapply Forall_impl; [by apply list_answer_refs in H |].
    intros c. apply product_images_refs.
  - eapply always_mono; [| apply get_one_answer].
    simpl. intros o tr (resp & -> & H). exists resp. split; [done |].
    eapply Forall_impl; [by apply one_answer_refs in H |].
    simpl. intros c [Hc Hv]. split; [by apply product_images_refs |].
    destruct Hv as [Hv | Hv]; [left | by right].
    eapply Forall_impl; [apply Hv |]. intros v. apply product_images_refs.
  - eapply always_mono; [| apply get_for_product_answer].
    simpl. intros o tr (resp & -> & H). exists resp. split; [done |].
    eapply Forall_impl; [by apply variations_answer_refs in H |].
    intros c. apply variation_images_refs.
Qed.

(** C4 as stated fails: an image stored as an absolute URL is returned
    as it is, and the storage service is not asked. *)
Lemma C4_counterexample :
  ~ (forall pf req,
       always (handle pf ProductsGet req)
         (fun o tr => exists resp, o = Ok resp /\ every_image_generated tr resp)).
Proof.
  intros H.
  pose proof (always_run (stateless linked_service) _ _ tt
                (H example_platform get_product_request)) as Hrun.
  destruct Hrun as (resp & Hresp & Hgen).
  vm_compute in Hresp. injection Hresp as <-.
  unfold every_image_generated in Hgen. vm_compute in Hgen.
  inversion Hgen as [| c cs Hc _]; subst.
  inversion Hc as [| u us Hu _]; subst.
  inversion Hu as [e l He | e l He]; subst; [done |].
  inversion He as [e' l' He' | e' l' He']; subst; [done |].
  inversion He'.
Qed.


(** ** Filtered images and the [image] field (C5) *)

Lemma product_images_filtered (tr : list Event) (c : Obj) :
  product_images_ok tr c -> images_filtered c.
Proof.
  intros (images & Hi & Hf & Hall). exists images. repeat split; try done.
  eapply Forall_impl; [apply Hall |]. by intros u [? _].
Qed.

(** In the products router the claim holds: each returned product, and
    each variation the handler attaches, has its images filtered and its
    [image] set. *)
Lemma products_router_images_filtered (pf : Platform) (req : Request) :
  always (handle pf ProductsList req)
    (fun o tr => exists resp, o = Ok resp
       /\ Forall images_filtered (returned_products resp))
  /\ always (handle pf ProductsGet req)
       (fun o tr => exists resp, o = Ok resp
          /\ Forall (fun c =>
               images_filtered c
               /\ (Forall images_filtered (objects (c !! "variations"))
                   \/ c !! "variations" = spread (first_row tr) !! "variations"))
               (returned_products resp)).
Proof.
  split; unfold handle; simpl.
  - eapply always_mono; [| apply get_list_answer].
    simpl. intros o tr (resp & -> & H). exists resp. split; [done |].
    eapply Forall_impl; [by apply list_answer_refs in H |].
    intros c. apply product_images_filtered.
  - eapply always_mono; [| apply get_one_answer].
    simpl. intros o tr (resp & -> & H). exists resp. split; [done |].
    eapply Forall_impl; [by apply one_answer_refs in H |].
    simpl. intros c [Hc Hv]. split; [by apply product_images_filtered in Hc |].
    destruct Hv as [Hv | Hv]; [left | by right].
    eapply Forall_impl; [apply Hv |]. intros v. apply product_images_filtered.
Qed.

(** In the variations router [images] is filtered as well. *)
Lemma variations_router_images_filtered (pf : Platform) (req : Request) :
  always (handle pf VariationsGet req)
    (fun o tr => exists resp, o = Ok resp
       /\ Forall (fun c => Forall (fun u => truthy u = true) (array_refs c))
            (returned_variations resp)).
Proof.
  unfold handle; simpl. eapply always_mono; [| apply get_for_product_answer].
  simpl. intros o tr (resp & -> & H). exists resp. split; [done |].
  eapply Forall_impl; [by apply variations_answer_refs in H |].
  intros c (images & Hi & Hall). unfold array_refs. rewrite Hi.
  eapply Forall_impl; [apply Hall |]. by intros u [? _].
Qed.

(** C5 at the failing input: the variations router returns a variation
    whose [images] holds the URL of its stored image and which has no
    [image] field, where the claim wants the first URL. *)
Theorem C5_variation_image_missing :
  (serve variation_service
     (handle example_platform VariationsGet get_variations_request)).1
  = Ok (res_json {[ "variations" := VArr [ VObj returned_variation ] ]})
  /\ returned_variation !! "image" = None
  /\ ~ images_filtered returned_variation.
Proof.
  split; [by vm_compute |]. split; [by vm_compute |].
  intros (images & _ & _ & Hf). vm_compute in Hf. discriminate Hf.
Qed.


(** ** Inactive products and non-admin clients (C8) *)

Lemma not_admin_after_middleware (verify : string -> option Obj) (req : Request) :
  user req = None -> ~ authenticated_admin verify req ->
  Products.is_admin (Products.attach_user verify req) = false.
Proof.
  intros Hu Hna. unfold Products.attach_user.
  destruct (authorization req) as [auth |] eqn:Ha;
    [| by unfold Products.is_admin; rewrite Hu].
  destruct (String.eqb auth ""); [by unfold Products.is_admin; rewrite Hu |].
  destruct (split_on " " auth !! 1%nat) as [token |] eqn:Ht;
    [| by unfold Products.is_admin; rewrite Hu].
  destruct (verify token) as [payload |] eqn:Hv;
    [| by unfold Products.is_admin; rewrite Hu].
  unfold Products.is_admin. simpl.
  destruct (prop payload "role") as [| | | | r | |] eqn:Hr; try done.
  destruct (String.eqb_spec r "admin") as [-> | Hne]; [| done].
  destruct Hna. by exists auth, token, payload.
Qed.

Lemma list_clauses_active (req : Request) (cl : list Clause) :
  Products.list_clauses req = Ok cl ->
  exists rest, cl = Products.active_filter req ++ rest.
Proof.
  unfold Products.list_clauses, Products.obind.
  destruct (Products.brands_filter req); [| done].
  destruct (Products.types_filter req); [| done].
  destruct (Products.categories_filter req); [| done].
  destruct (Products.sizes_filter req); [| done].
  destruct (Products.colors_filter req); [| done].
  intros [= <-]. by eexists.
Qed.

Lemma no_db_asks_only_active (tr : list Event) :
  Forall (fun e => is_db (ev_call e) = true -> False) tr -> Forall asks_only_active tr.
Proof.
  intros H. eapply Forall_impl; [apply H |].
  intros [c r] Hc. unfold asks_only_active. simpl in *.
  destruct c; try done; by destruct Hc.
Qed.

Lemma product_result_active (row : Obj) (tr : list Event) (c : Obj) :
  product_result (Some row) tr c -> active_row row -> active_row c.
Proof.
  intros (_ & Hk & _) Hr. unfold active_row.
  by rewrite Hk by apply is_active_not_rewritten.
Qed.

Lemma list_answer_hidden (req : Request) (tr : list Event) (resp : Response) :
  Products.is_admin req = false -> list_answer req tr resp ->
  inactive_hidden (Ok resp) tr.
Proof.
  intros Hadm. unfold list_answer, inactive_hidden.
  destruct (Products.list_clauses req) as [cl | e] eqn:Hcl.
  - apply list_clauses_active in Hcl as [more ->].
    unfold Products.active_filter. rewrite Hadm.
    intros (ans & rest & -> & Hd & H).
    assert (Hin : active_clause ∈ [Eq "is_active" (VBool true)] ++ more)
      by (apply elem_of_app; left; apply list_elem_of_singleton; done).
    split.
    + constructor; [by intros _ |].
      apply no_db_asks_only_active. apply count_db_0_Forall, Hd.
    + intros Hh. apply Forall_cons in Hh as [Hh _].
      eexists. split; [done |].
      destruct ans as [r | e]; [| by subst].
      destruct (error r) as [e |]; [by subst |].
      destruct H as (cs & -> & Hall). unfold returned_products. simpl json.
      rewrite lookup_singleton_eq, objects_fmap.
      rewrite lookup_singleton_ne by done. simpl. rewrite app_nil_r.
      specialize (Hh Hin). simpl in Hh.
      clear -Hall Hh. induction Hall as [| row c rows cs Hc _ IH]; [done |].
      apply Forall_cons in Hh as [Hr Hh]. constructor; [| by apply IH].
      by eapply product_result_active.
  - intros [-> ->]. split; [done |]. intros _. by eexists.
Qed.

Lemma one_answer_hidden (req : Request) (tr : list Event) (resp : Response) :
  Products.is_admin req = false -> one_answer req tr resp ->
  inactive_hidden (Ok resp) tr.
Proof.
  intros Hadm. unfold one_answer, inactive_hidden.
  destruct (params req !! "id") as [id |];
    [| intros [-> ->]; split; [done |]; intros _; by eexists].
  destruct (String.eqb id "");
    [intros [-> ->]; split; [done |]; intros _; by eexists |].
  unfold product_query, Products.active_filter. rewrite Hadm.
  intros (ans & rest & -> & H).
  assert (Hin : active_clause ∈ [Eq "id" (VStr id); Eq "is_active" (VBool true)])
    by (rewrite !elem_of_cons; right; by left).
  assert (Hrest : Forall asks_only_active rest ->
            Forall asks_only_active
              (Ev (CDbOne (mkQuery "products" (Select "*")
                     [Eq "id" (VStr id); Eq "is_active" (VBool true)])) ans :: rest))
    by (intros; constructor; [by intros _ | done]).
  destruct ans as [r | e];
    [| destruct H as [-> ->]; split; [by apply Hrest | intros _; by eexists]].
  destruct (error r) as [e |] eqn:He.
  { destruct H as [-> ->]. split; [by apply Hrest |]. intros _. eexists.
    split; [done |]. unfold not_found. by destruct (Products.no_rows_error e). }
  destruct (data r) as [d |] eqn:Hd;
    [| destruct H as [-> ->]; split; [by apply Hrest | intros _; by eexists]].
  destruct H as (c & -> & Hc & Hq). split.
  - apply Hrest. eapply Forall_impl; [apply Hq |].
    intros [call ans] Hv. unfold asks_only_active, only_variations_query in *.
    simpl in *. destruct call; try done.
    + by destruct (Hv eq_refl).
    + destruct (Hv eq_refl) as [_ [= ->]]. done.
  - intros Hh. apply Forall_cons in Hh as [Hh _]. specialize (Hh Hin).
    simpl in Hh. rewrite Hd in Hh. simpl in Hh.
    eexists. split; [done |]. unfold returned_products. simpl json.
    rewrite lookup_singleton_ne by done. rewrite lookup_singleton_eq. simpl.
    constructor; [| done]. by eapply product_result_active.
Qed.

(** C8: when the requester is not an authenticated admin, the product
    listing and the single-product endpoint put [is_active = true] in
    every query they send on the products table; hence, with a database
    that applies the predicate, every product they return is active. *)
Theorem C8_inactive_hidden (pf : Platform) (req : Request) :
  user req = None ->
  ~ authenticated_admin (jwt_verify pf) req ->
  always (handle pf ProductsList req) inactive_hidden
  /\ always (handle pf ProductsGet req) inactive_hidden.
Proof.
  intros Hu Hna.
  pose proof (not_admin_after_middleware (jwt_verify pf) req Hu Hna) as Hadm.
  split; unfold handle; simpl.
  - eapply always_mono; [| apply get_list_answer].
    simpl. intros o tr (resp & -> & H). by apply (list_answer_hidden _ _ _ Hadm).
  - eapply always_mono; [| apply get_one_answer].
    simpl. intros o tr (resp & -> & H). by apply (one_answer_hidden _ _ _ Hadm).
Qed.

Lemma C8_witness :
  always (handle example_platform ProductsList listing_request) inactive_hidden
  /\ always (handle example_platform ProductsGet listing_request) inactive_hidden.
Proof.
  apply (C8_inactive_hidden example_platform listing_request).
  - reflexivity.
  - intros (auth & token & payload & Ha & _). vm_compute in Ha. discriminate Ha.
Defined.

(** ** Images kept by an update (C9) *)

Lemma uploaded_keys_app (tr1 tr2 : list Event) :
  uploaded_keys (tr1 ++ tr2) = uploaded_keys tr1 ++ uploaded_keys tr2.
Proof. apply omap_app. Qed.

Lemma no_upload_keys (tr : list Event) :
  count is_upload tr = 0 -> uploaded_keys tr = [].
Proof.
  induction tr as [| [c r] tr IH]; [done |].
  rewrite count_cons. destruct c; simpl; try done; apply IH.
Qed.

Lemma no_db_event (tr : list Event) (q : DbQuery) (ans : resp_ty (CDbOne q)) :
  count is_db tr = 0 -> Ev (CDbOne q) ans ∈ tr -> False.
Proof.
  induction tr as [| e tr IH]; [by intros _ ?%elem_of_nil |].
  rewrite count_cons, elem_of_cons. intros Hc [<- | Hin]; simpl in *; [done |].
  apply IH; [| done]. by destruct (is_db (ev_call e)).
Qed.

Lemma upload_loop_keys (prefix : string) (fs : list File) (i : nat) (imageKeys : list string) :
  always (upload_loop prefix i fs imageKeys)
    (fun o tr => count is_db tr = 0
       /\ forall ks, o = Ok (Uploaded ks) -> ks = imageKeys ++ uploaded_keys tr).
Proof.
  revert i imageKeys. induction fs as [| f fs IH]; intros i imageKeys; simpl.
  - split; [done |]. intros ks [= <-]. by rewrite app_nil_r.
  - intros now [[e |] | e]; simpl.
    + destruct (storage_policy_error e); simpl; (split; [done |]); [| done].
      intros ks [= <-]. by rewrite app_nil_r.
    + eapply always_mono; [| apply IH].
      simpl. intros o tr [Hd Hk]. split; [done |].
      intros ks Hks. rewrite (Hk ks Hks). by rewrite <- app_assoc.
    + done.
Qed.

Opaque upload_loop.

Lemma set_if_present_frame (b : Obj) (f' : string) (g : Val -> Val) (changes : Obj)
    (f : string) :
  b !! f = None -> changes !! f = None ->
  Products.set_if_present b f' g changes !! f = None.
Proof.
  intros Hb Hc. unfold Products.set_if_present.
  destruct (b !! f') as [v |] eqn:Hv; [| done].
  rewrite lookup_insert_ne; [done |]. intros ->. congruence.
Qed.

Lemma set_if_present_other (b : Obj) (f' : string) (g : Val -> Val) (changes : Obj)
    (f : string) :
  f' <> f -> Products.set_if_present b f' g changes !! f = changes !! f.
Proof.
  intros Hne. unfold Products.set_if_present.
  destruct (b !! f'); [by rewrite lookup_insert_ne | done].
Qed.

(** The changes built from the body name no column the body lacks. *)
Lemma put_changes_frame (N : Val -> Val) (b : Obj) (f : string) :
  b !! f = None -> Products.put_changes N b !! f = None.
Proof.
  intros Hb. unfold Products.put_changes.
  repeat apply set_if_present_frame; try done.
Qed.

Lemma put_changes_no_images (N : Val -> Val) (b : Obj) :
  Products.put_changes N b !! "images" = None.
Proof.
  unfold Products.put_changes. by rewrite !set_if_present_other.
Qed.

Lemma variation_changes_frame (N : Val -> Val) (b : Obj) (f : string) :
  b !! f = None -> Variations.put_changes N b !! f = None.
Proof.
  intros Hb. unfold Variations.put_changes.
  repeat apply set_if_present_frame; try done.
Qed.

Lemma variation_changes_no_images (N : Val -> Val) (b : Obj) :
  Variations.put_changes N b !! "images" = None.
Proof.
  unfold Variations.put_changes. by rewrite !set_if_present_other.
Qed.

Lemma product_helper_quiet (product : option Obj) :
  always (Products.productWithAccessibleImages product false)
    (fun o tr => exists c, o = Ok c /\ count is_db tr = 0 /\ count is_upload tr = 0).
Proof.
  eapply always_mono; [| apply productWithAccessibleImages_calls].
  simpl. intros o tr (c & -> & Hd & Hu & _). exists c. repeat split; lia.
Qed.

Lemma variations_helper_quiet (variation : option Obj) :
  always (Variations.variationWithAccessibleImages variation)
    (fun o tr => exists c, o = Ok c /\ count is_db tr = 0 /\ count is_upload tr = 0).
Proof.
  eapply always_mono; [| apply variations_router_helper_calls].
  simpl. intros o tr (c & -> & Hd & Hu & _). exists c. repeat split; lia.
Qed.

Ltac payload_step :=
  lazymatch goal with
  | |- forall _, _ => intro
  | |- always ?p _ =>
      let h := head_of p in
      lazymatch h with
      | upload_loop _ _ _ _ => spec_at p upload_loop_keys
      | Products.productWithAccessibleImages _ _ => spec_at p product_helper_quiet
      | Variations.variationWithAccessibleImages _ => spec_at p variations_helper_quiet
      | match ?x with _ => _ end => destruct x eqn:?
      end
  end.

Ltac payload_exec :=
  repeat first [ progress simpl | progress unfold bind, try_catch
               | progress destruct_vars | payload_step ].

Ltac payload_events :=
  repeat match goal with
    | H : forall ks, Ok (Uploaded ?k) = Ok (Uploaded ks) -> _ |- _ =>
        specialize (H k eq_refl); simpl in H
    end;
  repeat match goal with
    | H : _ \/ _ |- _ => destruct H
    | H : False |- _ => destruct H
    | H : Ev (CDbOne _) _ ∈ ?tr, Hc : count is_db ?tr = 0 |- _ =>
        destruct (no_db_event _ _ _ Hc H)
    | H : Ev (CDbOne _) _ = Ev _ _ |- _ =>
        apply (f_equal ev_call) in H; simpl in H;
        first [ discriminate H | injection H as -> ]
    end.

Lemma uploaded_keys_cons_other (e : Event) (tr : list Event) :
  is_upload (ev_call e) = false -> uploaded_keys (e :: tr) = uploaded_keys tr.
Proof. destruct e as [c r]. by destruct c. Qed.

Lemma uploaded_keys_nil : uploaded_keys [] = [].
Proof. done. Qed.

Ltac payload_keys :=
  repeat first [ rewrite uploaded_keys_app
               | rewrite uploaded_keys_cons_other by reflexivity
               | rewrite uploaded_keys_nil ];
  repeat match goal with
    | H : count is_upload ?tr = 0 |- context [uploaded_keys ?tr] =>
        rewrite (no_upload_keys tr H)
    | H : _ = uploaded_keys ?tr |- context [uploaded_keys ?tr] => rewrite <- H
    end;
  rewrite ?app_nil_r; simpl.

Ltac payload_changes frame no_images :=
  split;
  [ intros f' Hne Hb; rewrite ?lookup_insert_ne by done; by apply frame
  | first
      [ rewrite lookup_insert_eq;
        lazymatch goal with
        | |- context [Ev (CDbOne (mkQuery ?t (Select "images") ?cl)) (Ok ?a)] =>
            exists (mkQuery t (Select "images") cl), a
        end;
        eexists; split;
        [ repeat first [ rewrite elem_of_app | rewrite elem_of_cons ]; eauto 8
        | split; [reflexivity | split; [eassumption |]];
          payload_keys; reflexivity ]
      | rewrite no_images; payload_keys; reflexivity ] ].

Ltac payload_close frame no_images :=
  rewrite ?app_nil_r;
  intros q ans changes Hin Hact;
  repeat first [ rewrite elem_of_app in Hin | rewrite elem_of_cons in Hin
               | rewrite elem_of_nil in Hin ];
  payload_events;
  try (simpl in Hact;
       first [ discriminate Hact
             | injection Hact as <-; payload_changes frame no_images ]).

Lemma put_update_payload (N : Val -> Val) (req : Request) :
  always (Products.put N req) (fun _ tr => updates_as_claimed (body req) tr).
Proof.
  unfold Products.put. payload_exec.
  all: payload_close (put_changes_frame N) (put_changes_no_images N).
Qed.

Lemma variation_update_payload (N : Val -> Val) (req : Request) :
  always (Variations.put N req) (fun _ tr => updates_as_claimed (body req) tr).
Proof.
  unfold Variations.put. payload_exec.
  all: payload_close (variation_changes_frame N) (variation_changes_no_images N).
Qed.

Transparent upload_loop.



(** What the stored row becomes: columns the update does not name are
    kept, the others are overwritten. *)
Lemma updated_row_frame (changes row : Obj) (f : string) :
  changes !! f = None -> updated_row changes row !! f = row !! f.
Proof. intros H. unfold updated_row. by rewrite lookup_union_r. Qed.

Lemma updated_row_written (changes row : Obj) (f : string) (v : Val) :
  changes !! f = Some v -> updated_row changes row !! f = Some v.
Proof. intros H. unfold updated_row. by apply lookup_union_Some_l. Qed.

Example put_product_appends :
  images_after (final_of store_respond
                  (handle example_platform ProductsPut put_product_request)
                  (shop false)) "products" "p1"
  = VArr [ VStr "products/p1/900_0.png"; VStr "products/p1/1000_0.png" ].
Proof. vm_compute. reflexivity. Qed.

Example put_variation_appends :
  images_after (final_of store_respond
                  (handle example_platform VariationsPut put_variation_request)
                  (shop false)) "product_variations" "v1"
  = VArr [ VStr "variations/p1/900_0.png"; VStr "variations/p1/1000_0.png" ].
Proof. vm_compute. reflexivity. Qed.

(** C9 at the failing input: the read of the stored images fails, the
    update goes through, and the stored key is gone: the images field
    holds the new key alone. *)
Theorem C9_stored_image_lost :
  images_after (shop true) "products" "p1" = VArr [ VStr "products/p1/900_0.png" ]
  /\ images_after (final_of store_respond
                     (handle example_platform ProductsPut put_product_request)
                     (shop true)) "products" "p1"
     = VArr [ VStr "products/p1/1000_0.png" ]
  /\ images_after (shop true) "product_variations" "v1"
     = VArr [ VStr "variations/p1/900_0.png" ]
  /\ images_after (final_of store_respond
                     (handle example_platform VariationsPut put_variation_request)
                     (shop true)) "product_variations" "v1"
     = VArr [ VStr "variations/unknown/1000_0.png" ].
Proof. repeat split; vm_compute; reflexivity. Qed.

(** ** Error responses (C6) *)

Lemma trace_errors_app (tr1 tr2 : list Event) :
  trace_errors (tr1 ++ tr2) = trace_errors tr1 ++ trace_errors tr2.
Proof. apply bind_app. Qed.

Lemma trace_errors_cons (e : Event) (tr : list Event) :
  trace_errors (e :: tr) = event_errors e ++ trace_errors tr.
Proof. done. Qed.

Lemma trace_errors_nil : trace_errors [] = [].
Proof. done. Qed.

Lemma error_source_app_l (tr1 tr2 : list Event) (v : Val) :
  error_source tr1 v -> error_source (tr1 ++ tr2) v.
Proof.
  intros [H | [(e & He & ->) | H]]; [by left | | by right; right].
  right; left. exists e. split; [| done].
  rewrite trace_errors_app. apply elem_of_app. by left.
Qed.

Lemma error_source_app_r (tr1 tr2 : list Event) (v : Val) :
  error_source tr2 v -> error_source (tr1 ++ tr2) v.
Proof.
  intros [H | [(e & He & ->) | H]]; [by left | | by right; right].
  right; left. exists e. split; [| done].
  rewrite trace_errors_app. apply elem_of_app. by right.
Qed.

Lemma error_explained_app_r (tr1 tr2 : list Event) (resp : Response) :
  error_explained tr2 resp -> error_explained (tr1 ++ tr2) resp.
Proof.
  intros [H | (v & Hv & Hs)]; [by left | right].
  exists v. split; [done |]. by apply error_source_app_r.
Qed.

Lemma list_filter_thrown (param : string) (mk : list Val -> Clause) (req : Request)
    (e : JsError) :
  Products.list_filter param mk req = Thrown e ->
  e = type_error (param +:+ ".split is not a function").
Proof.
  unfold Products.list_filter.
  destruct (query req !! param) as [q |]; [| done].
  destruct (qtruthy (Some q)); [| done].
  destruct q as [s | l]; simpl; [by case_bool_decide | by intros [= <-]].
Qed.

Lemma category_types_thrown (cats acc : list string) (e : JsError) :
  Products.category_types cats acc = Thrown e ->
  e = type_error "Spread syntax requires ...iterable[Symbol.iterator] to be a function".
Proof.
  revert acc. induction cats as [| c cats IH]; intros acc; simpl; [done |].
  destruct (_ !! c); [apply IH |].
  case_bool_decide; [by intros [= <-] | apply IH].
Qed.

Lemma categories_filter_thrown (req : Request) (e : JsError) :
  Products.categories_filter req = Thrown e ->
  e = type_error "categories.split is not a function"
  \/ e = type_error "Spread syntax requires ...iterable[Symbol.iterator] to be a function".
Proof.
  unfold Products.categories_filter.
  destruct (query req !! "categories") as [q |]; [| done].
  destruct (qtruthy (Some q)); [| done].
  destruct q as [s | l]; simpl; [| intros [= <-]; by left].
  case_bool_decide; [done |].
  destruct (Products.category_types _ []) as [ts | e'] eqn:Hc.
  - by case_bool_decide.
  - intros [= <-]. right. by apply category_types_thrown in Hc.
Qed.

Lemma list_clauses_thrown (req : Request) (e : JsError) :
  Products.list_clauses req = Thrown e ->
  exists m, m ∈ runtime_messages /\ e = type_error m.
Proof.
  unfold Products.list_clauses, Products.obind.
  destruct (Products.brands_filter req) as [? | e1] eqn:H1.
  2: { intros [= <-]. apply list_filter_thrown in H1 as ->.
       eexists. split; [| reflexivity]. unfold runtime_messages.
       rewrite !elem_of_cons. tauto. }
  destruct (Products.types_filter req) as [? | e2] eqn:H2.
  2: { intros [= <-]. apply list_filter_thrown in H2 as ->.
       eexists. split; [| reflexivity]. unfold runtime_messages.
       rewrite !elem_of_cons. tauto. }
  destruct (Products.categories_filter req) as [? | e3] eqn:H3.
  2: { intros [= <-]. apply categories_filter_thrown in H3 as [-> | ->].
       all: eexists; split; [| reflexivity]; unfold runtime_messages.
       all: rewrite !elem_of_cons; tauto. }
  destruct (Products.sizes_filter req) as [? | e4] eqn:H4.
  2: { intros [= <-]. apply list_filter_thrown in H4 as ->.
       eexists. split; [| reflexivity]. unfold runtime_messages.
       rewrite !elem_of_cons. tauto. }
  destruct (Products.colors_filter req) as [? | e5] eqn:H5; [done |].
  intros [= <-]. apply list_filter_thrown in H5 as ->.
  eexists. split; [| reflexivity]. unfold runtime_messages.
  rewrite !elem_of_cons. tauto.
Qed.

Lemma existing_images_thrown (o : option Obj) (e : JsError) :
  Products.existing_images o = Thrown e ->
  e = type_error "existingImages is not iterable".
Proof.
  unfold Products.existing_images. destruct o as [row |]; [| done].
  destruct (truthy (prop row "images")); [| done].
  destruct (prop row "images"); intros [= <-]; done.
Qed.

(** The upload loop answers only with its own message, and throws only
    what the storage service threw. *)
Lemma upload_loop_errors (prefix : string) (fs : list File) (i : nat)
    (imageKeys : list string) :
  always (upload_loop prefix i fs imageKeys)
    (fun o tr =>
       match o with
       | Ok (Uploaded _) => True
       | Ok (Responded resp) =>
           status resp = 500
           /\ json resp !! "error" = Some (VStr "Erro ao fazer upload das imagens")
       | Thrown e => e ∈ trace_errors tr
       end).
Proof.
  revert i imageKeys. induction fs as [| f fs IH]; intros i imageKeys; simpl; [done |].
  intros now [[e |] | e]; simpl.
  - destruct (storage_policy_error e); simpl; [done |].
    split; [done |]. by rewrite lookup_insert_eq.
  - eapply always_mono; [| apply IH].
    simpl. intros [[ks | resp] | e] tr H; done.
  - apply elem_of_cons. by left.
Qed.

Opaque upload_loop.

Ltac errors_step :=
  lazymatch goal with
  | |- forall _, _ => intro
  | |- always ?p _ =>
      let h := head_of p in
      lazymatch h with
      | upload_loop _ _ _ _ => spec_at p upload_loop_errors
      | Products.productWithAccessibleImages _ _ =>
          spec_at p productWithAccessibleImages_calls
      | Variations.variationWithAccessibleImages _ =>
          spec_at p variations_router_helper_calls
      | mapM _ _ =>
          spec_at p mapM_rows_calls;
          [| intros;
             first [ apply (productWithAccessibleImages_calls (Some _) false)
                   | apply (variations_router_helper_calls (Some _)) ] ]
      | match ?x with _ => _ end => destruct x eqn:?
      end
  end.

Ltac errors_exec :=
  repeat first [ progress simpl | progress unfold bind, try_catch
               | progress destruct_vars | errors_step ].

Ltac in_messages :=
  first [ by (unfold portuguese_messages; rewrite !elem_of_cons; tauto)
        | by (unfold runtime_messages; rewrite !elem_of_cons; tauto) ].

Ltac in_trace :=
  rewrite ?app_nil_r;
  repeat first [ rewrite trace_errors_app | rewrite trace_errors_cons
               | rewrite trace_errors_nil ];
  simpl;
  repeat match goal with
    | H : error ?a = Some _ |- context [error ?a] => rewrite H
    end;
  simpl;
  repeat first [ rewrite elem_of_app | rewrite elem_of_cons ];
  eauto 12.

Ltac runtime_facts :=
  repeat match goal with
    | H : Products.list_clauses _ = Thrown _ |- _ =>
        apply list_clauses_thrown in H as (? & ? & ->)
    | H : Products.existing_images _ = Thrown _ |- _ =>
        apply existing_images_thrown in H as ->
    end.

Ltac source_close :=
  first
    [ left; refine (ex_intro _ _ (conj _ eq_refl)); in_messages
    | right; right; refine (ex_intro _ _ (conj _ eq_refl));
      first [ in_messages | eassumption ]
    | right; left; refine (ex_intro _ _ (conj _ eq_refl)); in_trace ].

Ltac errors_close :=
  runtime_facts;
  unfold errors_explained, error_explained;
  first
    [ exact I
    | left; simpl; lia
    | right;
      unfold res_status_json, res_json, error_body, Settings.error_stack_body;
      simpl json;
      eexists; split;
      [ first [ apply lookup_singleton_eq | apply lookup_insert_eq | eassumption ]
      | simpl; source_close ] ].

Lemma handler_errors (pf : Platform) (r : Route) (req : Request) :
  always (handler pf r req) errors_explained.
Proof.
  destruct r; unfold handler.
  all: unfold Products.post, Products.get_list, Products.get_one, Products.put,
    Products.delete, Variations.post, Variations.get_for_product, Variations.put,
    Variations.delete, Settings.get_all, Settings.get_key, Settings.put_key,
    Settings.post_upload, Settings.post_video, Settings.get_initialize, Settings.user_id.
  all: errors_exec.
  all: errors_close.
Qed.

Transparent upload_loop.


(** C6, as amended: every error response (status 400 and above) is a
    JSON body with an [error] field, and the message in it is one of the
    Portuguese messages written in the routers, or the message of the
    error the database or the storage service returned or threw, passed
    on as it is, or the message of an error of the runtime. *)
Theorem C6_error_messages (pf : Platform) (r : Route) (req : Request) :
  always (handle pf r req) errors_explained.
Proof.
  unfold handle. destruct (router_of r); try apply handler_errors.
  unfold Settings.table_check. simpl. intros [a | e]; simpl.
  all: eapply always_mono; [| apply handler_errors].
  all: simpl; intros [resp | e'] tr H; [| done].
  - by apply (error_explained_app_r [_]).
  - by apply (error_explained_app_r [_]).
Qed.

(** C6 as stated fails: the message of a database error is passed on
    as the database wrote it. *)
Lemma C6_counterexample :
  ~ (forall pf r req,
       always (handler pf r req)
         (fun o _ => match o with
                     | Ok resp => error_in_portuguese resp
                     | Thrown _ => True
                     end)).
Proof.
  intros H.
  pose proof (always_run (stateless referenced_service) _ _ tt
                (H example_platform ProductsDelete delete_product_request)) as Hrun.
  vm_compute in Hrun. destruct Hrun as [Hs | (m & Hm & Hin)]; [lia |].
  injection Hm as <-.
  repeat (apply elem_of_cons in Hin as [Hin | Hin]; [discriminate Hin |]).
  by apply elem_of_nil in Hin.
Qed.

(** * Properties beyond the specification *)

(** ** Strings: what [split] gives *)

Lemma split_on_nonempty (sep : ascii) (s : string) : split_on sep s <> [].
Proof.
  induction s as [| c s IH]; simpl; [done |].
  destruct (Ascii.eqb c sep); [done |]. by destruct (split_on sep s).
Qed.

(** Splitting at the first separator and after it. *)
Lemma split_on_app (sep : ascii) (a b : string) :
  split_on sep (a +:+ String sep b) = split_on sep a ++ split_on sep b.
Proof.
  induction a as [| c a IH]; simpl.
  - by rewrite Ascii.eqb_refl.
  - destruct (Ascii.eqb c sep); [by rewrite IH |].
    rewrite IH. pose proof (split_on_nonempty sep a).
    by destruct (split_on sep a).
Qed.

Lemma split_on_whole (sep : ascii) (s : string) :
  sep ∉ chars s -> split_on sep s = [ s ].
Proof.
  unfold chars. induction s as [| c s IH]; simpl; [done |].
  intros [Hc Hs]%not_elem_of_cons. rewrite IH by done.
  destruct (Ascii.eqb_spec c sep); congruence.
Qed.

Lemma split_on_pieces (sep : ascii) (s p : string) :
  p ∈ split_on sep s -> sep ∉ chars p.
Proof.
  unfold chars. revert p. induction s as [| c s IH]; simpl; intros p.
  - intros ->%list_elem_of_singleton. apply not_elem_of_nil.
  - destruct (Ascii.eqb_spec c sep) as [-> | Hne].
    + intros [-> | Hin]%elem_of_cons; [apply not_elem_of_nil | by apply IH].
    + pose proof (split_on_nonempty sep s).
      destruct (split_on sep s) as [| q qs]; [done |].
      intros [-> | Hin]%elem_of_cons.
      * simpl. apply not_elem_of_cons. split; [congruence |].
        apply IH. by left.
      * apply IH. by right.
Qed.

Lemma last_split_on (sep : ascii) (s : string) :
  exists e, last (split_on sep s) = Some e /\ sep ∉ chars e.
Proof.
  pose proof (split_on_nonempty sep s) as Hne.
  destruct (last (split_on sep s)) as [e |] eqn:He.
  - exists e. split; [done |]. apply (split_on_pieces sep s).
    apply last_Some in He as [l' ->]. apply elem_of_app. right. by left.
  - by apply last_None in He.
Qed.

(** An element is none of the elements of a list written out. *)
Ltac not_in_list :=
  unfold chars; simpl;
  repeat (apply not_elem_of_cons; split; [done |]); apply not_elem_of_nil.

(** X1. The extension the upload loop puts in a storage key
    ([(f.originalname && f.originalname.split('.').pop()) || 'jpg']): it
    is never empty and holds no dot, whatever the name of the file; for
    a name that ends in a dot and a non-empty extension it is that
    extension; and it is 'jpg' for a name that is empty or ends in a
    dot. *)
Theorem file_ext_spec (name base e : string) :
  (file_ext name <> "" /\ "."%char ∉ chars (file_ext name))
  /\ (e <> "" -> "."%char ∉ chars e -> file_ext (base +:+ String "." e) = e)
  /\ file_ext "" = "jpg"
  /\ file_ext (base +:+ ".") = "jpg".
Proof.
  split; [| split; [| split; [done |]]].
  - unfold file_ext. destruct (String.eqb name "").
    { split; [done | not_in_list]. }
    destruct (last_split_on "." name) as (x & -> & Hx).
    destruct (String.eqb_spec x "") as [-> | Hne]; [| done].
    split; [done | not_in_list].
  - intros Hne Hdot. unfold file_ext.
    destruct (String.eqb_spec (base +:+ String "." e) "") as [Heq | _].
    { by destruct base. }
    rewrite split_on_app, (split_on_whole "." e) by done.
    rewrite last_snoc. by destruct (String.eqb_spec e "").
  - unfold file_ext.
    destruct (String.eqb_spec (base +:+ ".") "") as [Heq | _]; [done |].
    rewrite split_on_app. simpl. by rewrite last_snoc.
Qed.

Lemma file_ext_spec_witness :
  file_ext ("frente.verso" +:+ String "." "png") = "png".
Proof.
  apply (file_ext_spec "" "frente.verso" "png"); [done | not_in_list].
Defined.

(** ** The optional authentication of the products router *)

(** X2. The middleware of the products router does not look at the
    scheme of the [Authorization] header: whatever the first word is,
    the second word is verified as the token; its payload becomes
    [req.user] when it verifies, and the request goes on as it came
    when it does not.  Nothing else of the request is changed. *)
Theorem attach_user_any_scheme (verify : string -> option Obj) (req : Request)
    (scheme token : string) :
  " "%char ∉ chars scheme -> " "%char ∉ chars token ->
  authorization req = Some (scheme +:+ String " " token) ->
  Products.attach_user verify req
  = match verify token with
    | Some payload =>
        mkReq (authorization req) (Some payload) (params req) (query req)
              (body req) (files req) (file req)
    | None => req
    end.
Proof.
  intros Hs Ht Hauth. unfold Products.attach_user. rewrite Hauth.
  destruct (String.eqb_spec (scheme +:+ String " " token) "") as [Heq | _].
  { by destruct scheme. }
  rewrite split_on_app, !split_on_whole by done. simpl.
  by destruct (verify token).
Qed.

Lemma attach_user_any_scheme_witness :
  Products.attach_user admin_verify (with_authorization "Basic abc")
  = mkReq (Some "Basic abc") (Some admin_payload) ∅ ∅ ∅ None None.
Proof.
  rewrite (attach_user_any_scheme admin_verify (with_authorization "Basic abc")
             "Basic" "abc"); [reflexivity | not_in_list .. | reflexivity].
Defined.

(** ** The list parameters of the listing *)

Lemma split_join_comma (l : list string) :
  l <> [] -> Forall (fun x => ","%char ∉ chars x) l ->
  split_on "," (join_comma l) = l.
Proof.
  induction l as [| s l IH]; [done |]. intros _ [Hs Hl]%Forall_cons.
  destruct l as [| s' l'].
  - simpl. by apply split_on_whole.
  - change (join_comma (s :: s' :: l'))
      with (s +:+ (String "," (join_comma (s' :: l')))).
    rewrite split_on_app, split_on_whole, IH by done. done.
Qed.

Lemma filter_all {A : Type} (P : A -> Prop) `{!forall x, Decision (P x)} (l : list A) :
  Forall P l -> filter P l = l.
Proof.
  induction 1 as [| x l Hx Hl IH]; [done |].
  rewrite filter_cons_True by done. by rewrite IH.
Qed.

Lemma join_comma_empty (l : list string) : join_comma l = "" -> l = [] \/ l = [ "" ].
Proof.
  destruct l as [| s [| s' l']]; simpl; [by left | intros ->; by right |].
  by destruct s.
Qed.

(** X3. The list parameters [brands], [types], [sizes] and [colors] of
    the listing: a list of values that hold no comma and are not blank,
    joined by commas, comes back as it was sent in the one predicate
    the parameter adds.  The values are not trimmed: white space around
    a value stays in it. *)
Theorem list_filter_round_trip (param : string) (mk : list Val -> Clause)
    (req : Request) (l : list string) :
  l <> [] ->
  Forall (fun x => (","%char ∉ chars x) /\ all_space x = false) l ->
  query req !! param = Some (QStr (join_comma l)) ->
  Products.list_filter param mk req = Ok [ mk (VStr <$> l) ].
Proof.
  intros Hne Hl Hq. unfold Products.list_filter. rewrite Hq. simpl.
  destruct (String.eqb_spec (join_comma l) "") as [Heq | _].
  { apply join_comma_empty in Heq as [-> | ->]; [done |].
    by apply Forall_singleton in Hl as [_ ?]. }
  simpl. rewrite split_join_comma;
    [| done | by eapply Forall_impl; [apply Hl |]; intros ? [? _]].
  rewrite filter_all; [| by eapply Forall_impl; [apply Hl |]; intros ? [_ ?]].
  by rewrite bool_decide_eq_false_2.
Qed.

Lemma list_filter_round_trip_witness :
  Products.brands_filter (with_query "brands" "nike, adidas")
  = Ok [ In_ "brand" [ VStr "nike"; VStr " adidas" ] ].
Proof.
  apply (list_filter_round_trip "brands" (In_ "brand") _ [ "nike"; " adidas" ]);
    [done | | reflexivity].
  repeat (apply Forall_cons; split; [split; [not_in_list | reflexivity] |]).
  apply Forall_nil_2.
Defined.

(** A value made of a no-break space is blank, as for [trim]. *)
Example brands_no_break_space :
  Products.brands_filter (with_query "brands" "nike, ")
  = Ok [ In_ "brand" [ VStr "nike" ] ].
Proof. vm_compute. reflexivity. Qed.

Lemma category_types_known (cats acc : list string) :
  Forall (fun c => c ∉ Products.object_prototype_keys) cats ->
  Products.category_types cats acc = Ok (acc ++ cats ≫= types_of).
Proof.
  revert acc. induction cats as [| c cats IH]; intros acc Hcats; simpl.
  - by rewrite app_nil_r.
  - apply Forall_cons in Hcats as [Hc Hcats]. unfold types_of at 1.
    destruct (_ !! c) as [ts |] eqn:Hts; simpl.
    + rewrite IH by done. by rewrite <- app_assoc.
    + rewrite bool_decide_eq_false_2 by done. by apply IH.
Qed.

(** X4. The [categories] parameter of the listing: the names are the
    non-blank pieces between commas; the predicate on [type] lists the
    types of the known categories among them, in the order of the
    request, and a name that is no category adds nothing, so that a
    request naming unknown categories alone is not filtered at all.
    (Names that every object inherits, such as [constructor], are set
    apart: they make the handler throw.) *)
Theorem categories_filter_types (req : Request) (s : string) (names : list string) :
  query req !! "categories" = Some (QStr s) ->
  s <> "" ->
  names = filter (fun x => all_space x = false) (split_on "," s) ->
  Forall (fun c => c ∉ Products.object_prototype_keys) names ->
  Products.categories_filter req
  = Ok (match names ≫= types_of with
        | [] => []
        | t :: ts => [ In_ "type" (VStr <$> t :: ts) ]
        end).
Proof.
  intros Hq Hs Hnames Hkeys. unfold Products.categories_filter. rewrite Hq. simpl.
  destruct (String.eqb_spec s ""); [done |]. simpl. rewrite <- Hnames.
  case_bool_decide as Hn; [by subst names; rewrite Hn |].
  rewrite category_types_known by done. simpl.
  destruct (names ≫= types_of); by case_bool_decide.
Qed.

Lemma categories_filter_types_witness :
  Products.categories_filter (with_query "categories" "calcados, ,sapatos,acessorios")
  = Ok [ In_ "type" [ VStr "sapato"; VStr "bone"; VStr "acessorio" ] ].
Proof.
  apply (categories_filter_types _ "calcados, ,sapatos,acessorios"
           [ "calcados"; "sapatos"; "acessorios" ]); [reflexivity | done | reflexivity |].
  unfold Products.object_prototype_keys.
  repeat (apply Forall_cons; split; [not_in_list |]). apply Forall_nil_2.
Defined.

(** ** What an administrator is shown *)

Lemma admin_after_middleware (verify : string -> option Obj) (req : Request) :
  authenticated_admin verify req ->
  Products.is_admin (Products.attach_user verify req) = true.
Proof.
  intros (auth & token & payload & Ha & Ht & Hv & Hr).
  unfold Products.attach_user. rewrite Ha.
  destruct (String.eqb_spec auth "") as [-> | _]; [done |].
  rewrite Ht, Hv. unfold Products.is_admin. simpl. by rewrite Hr.
Qed.

Lemma list_filter_no_eq (param : string) (mk : list Val -> Clause) (req : Request)
    (cl : list Clause) (col : string) (v : Val) :
  (forall vs, mk vs <> Eq col v) ->
  Products.list_filter param mk req = Ok cl -> Eq col v ∉ cl.
Proof.
  intros Hmk. unfold Products.list_filter.
  destruct (query req !! param) as [q |]; [| intros [= <-]; apply not_elem_of_nil].
  destruct (qtruthy (Some q)); [| intros [= <-]; apply not_elem_of_nil].
  destruct (split_list param q) as [arr | e]; [| done].
  case_bool_decide; intros [= <-]; [apply not_elem_of_nil |].
  intros Hin%list_elem_of_singleton. by eapply Hmk.
Qed.

Lemma categories_filter_no_eq (req : Request) (cl : list Clause) (col : string) (v : Val) :
  Products.categories_filter req = Ok cl -> Eq col v ∉ cl.
Proof.
  unfold Products.categories_filter.
  destruct (query req !! "categories") as [q |]; [| intros [= <-]; apply not_elem_of_nil].
  destruct (qtruthy (Some q)); [| intros [= <-]; apply not_elem_of_nil].
  destruct (split_list "categories" q) as [arr | e]; [| done].
  case_bool_decide; [intros [= <-]; apply not_elem_of_nil |].
  destruct (Products.category_types arr []) as [ts | e]; [| done].
  case_bool_decide; intros [= <-]; [apply not_elem_of_nil |].
  by intros ?%list_elem_of_singleton.
Qed.

Lemma list_clauses_active_only (req : Request) (cl : list Clause) (v : Val) :
  Products.list_clauses req = Ok cl ->
  Eq "is_active" v ∈ cl -> Eq "is_active" v ∈ Products.active_filter req.
Proof.
  unfold Products.list_clauses, Products.obind.
  destruct (Products.brands_filter req) as [brands |] eqn:H1; [| done].
  destruct (Products.types_filter req) as [types |] eqn:H2; [| done].
  destruct (Products.categories_filter req) as [categories |] eqn:H3; [| done].
  destruct (Products.sizes_filter req) as [sizes |] eqn:H4; [| done].
  destruct (Products.colors_filter req) as [colors |] eqn:H5; [| done].
  intros [= <-]. rewrite !elem_of_app.
  intros [H | [H | [H | [H | [H | [H | [H | [H | [H | [H | H]]]]]]]]]]; [done | exfalso ..].
  - unfold Products.search_filter in H. destruct (qtruthy _).
    + by apply list_elem_of_singleton in H. 
    + by apply elem_of_nil in H.
  - unfold Products.brand_filter in H. destruct (qtruthy _).
    + by apply list_elem_of_singleton in H.
    + by apply elem_of_nil in H.
  - by eapply (list_filter_no_eq "brands"); [| apply H1 | apply H].
  - by eapply (list_filter_no_eq "types"); [| apply H2 | apply H].
  - by eapply categories_filter_no_eq; [apply H3 | apply H].
  - by eapply (list_filter_no_eq "sizes"); [| apply H4 | apply H].
  - by eapply (list_filter_no_eq "colors"); [| apply H5 | apply H].
  - unfold Products.price_filter in H.
    repeat case_match;
      repeat (apply elem_of_cons in H as [H | H]; [done |]); by apply elem_of_nil in H.
  - unfold Products.discount_filter in H.
    repeat case_match;
      repeat (apply elem_of_cons in H as [H | H]; [done |]); by apply elem_of_nil in H.
  - unfold Products.sort_clause in H.
    repeat case_match;
      repeat (apply elem_of_cons in H as [H | H]; [done |]); by apply elem_of_nil in H.
Qed.

Lemma no_db_no_active_predicate (tr : list Event) :
  count is_db tr = 0 -> Forall no_active_predicate tr.
Proof.
  intros H. eapply Forall_impl; [apply (count_db_0_Forall (fun _ => False)), H |].
  intros [c r] Hdb. unfold no_active_predicate. simpl in *.
  destruct c; try done; by destruct Hdb.
Qed.

(** X5. An administrator is shown inactive products: when the token
    of the request verifies with the role 'admin', no query the listing
    or the single-product endpoint sends on the products table carries
    a predicate on [is_active]. *)
Theorem admin_sees_inactive (pf : Platform) (req : Request) :
  authenticated_admin (jwt_verify pf) req ->
  always (handle pf ProductsList req) (fun _ tr => Forall no_active_predicate tr)
  /\ always (handle pf ProductsGet req) (fun _ tr => Forall no_active_predicate tr).
Proof.
  intros Hadmin%admin_after_middleware. unfold handle. simpl.
  set (req' := Products.attach_user (jwt_verify pf) req) in *.
  assert (Products.active_filter req' = []) as Hact.
  { unfold Products.active_filter. by rewrite Hadmin. }
  split.
  - eapply always_mono; [| apply get_list_answer].
    simpl. intros o tr (resp & _ & H). unfold list_answer in H.
    destruct (Products.list_clauses req') as [cl | e] eqn:Hcl.
    + destruct H as (ans & rest & -> & Hrest & _).
      apply Forall_cons. split; [| by apply no_db_no_active_predicate].
      unfold no_active_predicate. simpl. intros _ v Hin.
      apply (list_clauses_active_only _ _ _ Hcl) in Hin.
      rewrite Hact in Hin. by apply elem_of_nil in Hin.
    + destruct H as [-> _]. apply Forall_nil_2.
  - eapply always_mono; [| apply get_one_answer].
    simpl. intros o tr (resp & _ & H). unfold one_answer in H.
    destruct (params req' !! "id") as [id |]; [| destruct H as [-> _]; apply Forall_nil_2].
    destruct (String.eqb id ""); [destruct H as [-> _]; apply Forall_nil_2 |].
    destruct H as (ans & rest & -> & H).
    apply Forall_cons. split.
    { unfold no_active_predicate, product_query. simpl. rewrite Hact.
      intros _ v Hin%list_elem_of_singleton. done. }
    destruct ans as [r | e]; [| destruct H as [-> _]; apply Forall_nil_2].
    destruct (error r); [destruct H as [-> _]; apply Forall_nil_2 |].
    destruct (data r) as [d |]; [| destruct H as [-> _]; apply Forall_nil_2].
    destruct H as (c & _ & _ & Hq).
    eapply Forall_impl; [apply Hq |].
    intros [c' r'] Hc'. unfold only_variations_query, no_active_predicate in *. simpl in *.
    destruct c'; try done.
    + by destruct (Hc' eq_refl).
    + destruct (Hc' eq_refl) as [_ [= ->]]. done.
Qed.

Lemma admin_sees_inactive_witness :
  always (handle admin_platform ProductsList (with_authorization "Bearer abc"))
    (fun _ tr => Forall no_active_predicate tr)
  /\ always (handle admin_platform ProductsGet (with_authorization "Bearer abc"))
       (fun _ tr => Forall no_active_predicate tr).
Proof.
  apply admin_sees_inactive.
  exists "Bearer abc", "abc", admin_payload. repeat split; reflexivity.
Defined.

(** ** The ranges of the listing *)

Lemma gt_spec (x y : QArith_base.Q) :
  negb (QArith_base.Qle_bool x y) = true <-> QArith_base.Qlt y x.
Proof.
  rewrite negb_true_iff, <- not_true_iff_false, QArith_base.Qle_bool_iff.
  split; [apply QArith_base.Qnot_le_lt | apply QArith_base.Qlt_not_le].
Qed.

Lemma in_range_from_to (col : string) (a b : Z) (x : QArith_base.Q) :
  in_range [ Gte col (VNum a); Lte col (VNum b) ] x = true
  <-> QArith_base.Qle (QArith_base.inject_Z a) x
      /\ QArith_base.Qle x (QArith_base.inject_Z b).
Proof.
  unfold in_range. simpl.
  by rewrite andb_true_r, andb_true_iff, !QArith_base.Qle_bool_iff.
Qed.

Lemma in_range_above_to (col : string) (a b : Z) (x : QArith_base.Q) :
  in_range [ Gt col (VNum a); Lte col (VNum b) ] x = true
  <-> QArith_base.Qlt (QArith_base.inject_Z a) x
      /\ QArith_base.Qle x (QArith_base.inject_Z b).
Proof.
  unfold in_range. simpl.
  by rewrite andb_true_r, andb_true_iff, gt_spec, !QArith_base.Qle_bool_iff.
Qed.

Lemma in_range_above (col : string) (a : Z) (x : QArith_base.Q) :
  in_range [ Gt col (VNum a) ] x = true <-> QArith_base.Qlt (QArith_base.inject_Z a) x.
Proof. unfold in_range. simpl. by rewrite andb_true_r, gt_spec. Qed.

(** Contradictions between the bounds of two ranges. *)
Ltac order_Q :=
  repeat match goal with
    | H : _ /\ _ |- _ => destruct H
    end;
  first
    [ by repeat split
    | exfalso;
      match goal with
      | H1 : QArith_base.Qle ?x (QArith_base.inject_Z ?a),
        H2 : QArith_base.Qlt (QArith_base.inject_Z ?b) ?x |- _ =>
          apply (QArith_base.Qlt_irrefl x);
          apply (QArith_base.Qle_lt_trans _ (QArith_base.inject_Z a)); [exact H1 |];
          apply (QArith_base.Qle_lt_trans _ (QArith_base.inject_Z b)); [| exact H2];
          by (rewrite <- QArith_base.Zle_Qle)
      end ].

Ltac range_case name :=
  exists name;
  split; [unfold price_ranges, discount_ranges; rewrite !elem_of_cons; tauto |];
  let r' := fresh "r" in
  let Hr' := fresh "Hr" in
  intros r' Hr'; unfold price_ranges, discount_ranges in Hr';
  rewrite !elem_of_cons, elem_of_nil in Hr';
  repeat (destruct Hr' as [-> | Hr']); [.. | destruct Hr'];
  match goal with
  | |- context [in_range ?cl _] =>
      let cl' := eval vm_compute in cl in change cl with cl'
  end;
  rewrite ?in_range_from_to, ?in_range_above_to, ?in_range_above;
  (split; intros ?); try done; order_Q.

(** X6. The price ranges of the listing split the prices: a price
    from 0 on passes the comparisons of exactly one of [0-50],
    [50-100], [100-200] and [200+], and a price on a boundary belongs
    to the lower range.  The discount ranges [10-30], [30-50] and [50+]
    do the same for the discounts from 10 on. *)
Theorem ranges_partition (x : QArith_base.Q) :
  (QArith_base.Qle (QArith_base.inject_Z 0) x ->
   exists r, r ∈ price_ranges
     /\ forall r', r' ∈ price_ranges ->
          (in_range (Products.price_filter (with_query "priceRange" r')) x = true
           <-> r' = r))
  /\ (QArith_base.Qle (QArith_base.inject_Z 10) x ->
      exists r, r ∈ discount_ranges
        /\ forall r', r' ∈ discount_ranges ->
             (in_range (Products.discount_filter (with_query "discountRange" r')) x = true
              <-> r' = r)).
Proof.
  split; intros H0.
  - destruct (QArith_base.Qlt_le_dec (QArith_base.inject_Z 50) x) as [H50 | H50];
      [destruct (QArith_base.Qlt_le_dec (QArith_base.inject_Z 100) x) as [H100 | H100];
       [destruct (QArith_base.Qlt_le_dec (QArith_base.inject_Z 200) x) as [H200 | H200] |] |].
    + range_case "200+".
    + range_case "100-200".
    + range_case "50-100".
    + range_case "0-50".
  - destruct (QArith_base.Qlt_le_dec (QArith_base.inject_Z 30) x) as [H30 | H30];
      [destruct (QArith_base.Qlt_le_dec (QArith_base.inject_Z 50) x) as [H50 | H50] |].
    + range_case "50+".
    + range_case "30-50".
    + range_case "10-30".
Qed.

Lemma ranges_partition_witness :
  exists r, r ∈ price_ranges
    /\ forall r', r' ∈ price_ranges ->
         (in_range (Products.price_filter (with_query "priceRange" r'))
            (QArith_base.inject_Z 50) = true
          <-> r' = r).
Proof.
  apply (ranges_partition (QArith_base.inject_Z 50)). by vm_compute.
Defined.

(** ** The read endpoints pass the rows on *)

(** X7. Once the first query of a read endpoint (the listing, the
    single product, the variations of a product) has returned its rows
    without an error, the request is answered 200 whatever the later
    calls answer: a URL that cannot be generated, or a failing query for the
    variations, never fails the request.  The answer carries one object
    for each row, in the order of the rows, and every property of a row
    but [images], [image] and [variations] is passed on as stored. *)
Theorem reads_pass_rows (req : Request) :
  always (Products.get_list req) rows_passed_on
  /\ always (Products.get_one req) rows_passed_on
  /\ always (Variations.get_for_product req) rows_passed_on.
Proof.
  split; [| split].
  - eapply always_mono; [| apply get_list_answer].
    simpl. intros o tr (resp & -> & H). unfold list_answer in H.
    destruct (Products.list_clauses req); [| by destruct H as [-> _]].
    destruct H as (ans & rest & -> & _ & H). simpl.
    destruct ans as [r | e]; [| done]. intros He. rewrite He in H.
    destruct H as (cs & -> & Hall). exists "products", cs. eexists.
    split; [done |]. split; [done |]. split; [apply lookup_singleton_eq |].
    eapply Forall2_impl; [apply Hall |]. simpl. by intros row c (_ & H & _).
  - eapply always_mono; [| apply get_one_answer].
    simpl. intros o tr (resp & -> & H). unfold one_answer in H.
    destruct (params req !! "id") as [id |]; [| by destruct H as [-> _]].
    destruct (String.eqb id ""); [by destruct H as [-> _] |].
    destruct H as (ans & rest & -> & H). simpl.
    destruct ans as [r | e]; [| done]. intros He row Hrow. rewrite He, Hrow in H.
    destruct H as (c & -> & (_ & H & _) & _). exists c. eexists.
    split; [done |]. split; [done |]. split; [apply lookup_singleton_eq | done].
  - eapply always_mono; [| apply get_for_product_answer].
    simpl. intros o tr (resp & -> & H). unfold variations_answer in H.
    destruct (params req !! "product_id") as [id |]; [| by destruct H as [-> _]].
    destruct (String.eqb id ""); [by destruct H as [-> _] |].
    destruct H as (ans & rest & -> & _ & H). simpl.
    destruct ans as [r | e]; [| done]. intros He. rewrite He in H.
    destruct H as (cs & -> & Hall). exists "variations", cs. eexists.
    split; [done |]. split; [done |]. split; [apply lookup_singleton_eq |].
    eapply Forall2_impl; [apply Hall |]. simpl. intros row c [_ H] k Hk.
    apply H. apply not_rewritten in Hk. tauto.
Qed.

(** ** The image helpers never fail *)

Lemma always_trivial {A : Type} (p : Prog A) : always p (fun _ _ => True).
Proof. induction p as [a | c k IH]; simpl; [done |]. intros r. apply IH. Qed.

Lemma mapM_total {A B : Type} (f : A -> M B) (l : list A) :
  (forall x, always (f x) (fun o _ => exists y, o = Ok y)) ->
  always (mapM f l) (fun o _ => exists ys, o = Ok ys /\ length ys = length l).
Proof.
  intros Hf. eapply always_mono; [| apply (always_mapM f (fun _ _ _ => True))].
  - simpl. intros o tr (ys & trs & -> & _ & Hall). exists ys. split; [done |].
    clear -Hall. induction Hall; simpl; congruence.
  - intros x _. eapply always_mono; [| apply Hf]. simpl. intros o _ [y ->]. by exists y.
Qed.

Lemma images_step_total (f : Val -> M Val) (clone : Obj) :
  (forall key, always (f key) (fun o _ => exists u, o = Ok u)) ->
  always
    (match nonempty_array (prop clone "images") with
     | Some keys =>
         let* urls := mapM f keys in
         ret (filter (fun u => truthy u = true) urls)
     | None => ret []
     end)
    (fun o _ => exists images, o = Ok images
       /\ length images <= row_images clone
       /\ Forall (fun u => truthy u = true) images).
Proof.
  intros Hf. destruct (nonempty_array (prop clone "images")) as [keys |] eqn:Hk.
  - apply nonempty_array_Some in Hk. unfold row_images. rewrite Hk.
    apply always_bind. eapply always_mono; [| apply (mapM_total f keys Hf)].
    simpl. intros o tr (urls & -> & Hlen). simpl. eexists. split; [done |].
    rewrite <- Hlen. split; [apply length_filter |].
    apply Forall_forall. by intros u [? _]%list_elem_of_filter.
  - simpl. exists []. split; [done |]. split; [simpl; lia | done].
Qed.

Lemma url_helpers_total :
  (forall key, always (Products.makeAccessibleUrl key) (fun o _ => exists u, o = Ok u))
  /\ (forall key, always (Products.variation_image_url key) (fun o _ => exists u, o = Ok u)).
Proof.
  split; intros key.
  - eapply always_mono; [| apply makeAccessibleUrl_calls]. simpl. intros o tr (u & -> & _). by exists u.
  - eapply always_mono; [| apply variation_image_url_calls]. simpl. intros o tr (u & -> & _). by exists u.
Qed.

Ltac helper_close images :=
  eexists; split; [reflexivity |]; exists images;
  rewrite ?lookup_insert_ne by done; rewrite ?lookup_insert_eq;
  rewrite ?lookup_insert_ne by done; rewrite ?lookup_insert_eq;
  repeat split; try done;
  let k := fresh "k" in
  let Hk := fresh "Hk" in
  unfold passed_on; intros k Hk; apply not_rewritten in Hk as (? & ? & ?);
  by rewrite ?lookup_insert_ne.

(** X8. The three helpers that rewrite images never throw, whatever
    the storage service and the database answer.  They return the row
    with [images] rewritten to an array of non-empty entries that is no
    longer than the stored one, with [image] its first entry or [null]
    (the helper of the variations router leaves [image] as stored), and
    with every other property but [variations] as it was stored. *)
Theorem helpers_return (product : option Obj) (includeVariations : bool)
    (variation : Obj) (row : option Obj) :
  always (Products.productWithAccessibleImages product includeVariations)
    (fun o _ => exists c, o = Ok c /\ helper_result (spread product) true c)
  /\ always (Products.variationWithAccessibleImages variation)
       (fun o _ => exists c, o = Ok c /\ helper_result variation true c)
  /\ always (Variations.variationWithAccessibleImages row)
       (fun o _ => exists c, o = Ok c /\ helper_result (spread row) false c).
Proof.
  destruct url_helpers_total as [Hm Hv].
  assert (forall v, always (Products.variationWithAccessibleImages v)
            (fun o _ => exists c, o = Ok c /\ helper_result v true c)) as Hvar.
  { intros v. unfold Products.variationWithAccessibleImages.
    apply always_bind. eapply always_mono; [| apply (images_step_total _ v Hv)].
    simpl. intros o _ (images & -> & Hlen & Ht). simpl. helper_close images. }
  split; [| split; [apply Hvar |]].
  - unfold Products.productWithAccessibleImages.
    apply always_bind. eapply always_mono; [| apply (images_step_total _ _ Hm)].
    simpl. intros o _ (images & -> & Hlen & Ht).
    destruct (includeVariations && _); [| simpl; helper_close images].
    simpl. intros [r | e]; simpl; [| helper_close images].
    destruct (error r); [simpl; helper_close images |].
    destruct (data r) as [vs |]; [| simpl; helper_close images].
    apply always_try_catch, always_bind.
    eapply always_mono; [| apply (mapM_total Products.variationWithAccessibleImages vs)].
    + simpl. intros o _ (vcs & -> & _). simpl. helper_close images.
    + intros v. eapply always_mono; [| apply Hvar]. simpl. intros o _ (c & -> & _). by exists c.
  - unfold Variations.variationWithAccessibleImages.
    apply always_bind. eapply always_mono; [| apply (images_step_total _ _ Hv)].
    simpl. intros o _ (images & -> & Hlen & Ht). simpl. helper_close images.
Qed.

(** ** The upload loop *)

Lemma upload_calls_app (tr1 tr2 : list Event) :
  upload_calls (tr1 ++ tr2) = upload_calls tr1 ++ upload_calls tr2.
Proof. apply omap_app. Qed.

Lemma stops_at_failure_nil : stops_at_failure [].
Proof. intros [| ? ?] ? ? ?; done. Qed.

Lemma stops_at_failure_cons (e : Event) (tr : list Event) :
  ~ failed_upload e -> stops_at_failure tr -> stops_at_failure (e :: tr).
Proof.
  intros He Htr [| e1 tr1] e' tr2; simpl.
  - intros [= <- <-] Hf. by destruct He.
  - intros [= <- ->]. exact (Htr _ _ _ eq_refl).
Qed.

Lemma stops_at_failure_last (e : Event) : stops_at_failure [ e ].
Proof.
  intros [| e1 [| ? ?]] e' tr2; simpl; [by intros [= <- <-] | done | done].
Qed.

(** X9. The upload loop shared by the four handlers that take image
    files: the files are uploaded in the order they were received and
    each at most once; nothing is called after an upload that failed,
    so the files behind it are left out; the keys handed on are those of
    the uploads that succeeded, in order, after the keys given; and when
    no upload fails every file is uploaded and every key is handed on. *)
Theorem upload_loop_in_order (prefix : string) (fs : list File) (i : nat)
    (imageKeys : list string) :
  always (upload_loop prefix i fs imageKeys)
    (fun o tr =>
       (upload_calls tr).*2 `prefix_of` fs
       /\ stops_at_failure tr
       /\ (forall ks, o = Ok (Uploaded ks) -> ks = imageKeys ++ uploaded_keys tr)
       /\ (Forall (fun e => ~ failed_upload e) tr ->
           (upload_calls tr).*2 = fs
           /\ o = Ok (Uploaded (imageKeys ++ (upload_calls tr).*1)))).
Proof.
  revert i imageKeys. induction fs as [| f fs IH]; intros i imageKeys; simpl.
  - split; [apply prefix_nil |]. split; [apply stops_at_failure_nil |].
    split; [intros ks [= <-]; by rewrite app_nil_r |].
    intros _. split; [done | by rewrite app_nil_r].
  - intros now [[e |] | e]; simpl.
    + assert (stops_at_failure
                [ Ev CNow now;
                  Ev (CUpload "product_images"
                        (storage_key prefix now i (file_ext (originalname f))) f)
                     (Ok (Some e)) ]) as Hstop.
      { apply stops_at_failure_cons; [by intros [] | apply stops_at_failure_last]. }
      destruct (storage_policy_error e); simpl.
      all: split; [by apply prefix_cons, prefix_nil |].
      all: split; [done |].
      all: split; [intros ks [= <-]; by rewrite ?app_nil_r |].
      all: intros [_ [Hf _]%Forall_cons]%Forall_cons; by destruct Hf.
    + eapply always_mono; [| apply IH].
      simpl. intros o tr (Hp & Hs & Hk & Hall).
      split; [by apply prefix_cons |].
      split; [apply stops_at_failure_cons; [by intros [] |];
              apply stops_at_failure_cons; [by intros [] | done] |].
      split; [intros ks Hks; rewrite (Hk ks Hks); by rewrite <- app_assoc |].
      intros [_ [_ Hf]%Forall_cons]%Forall_cons.
      destruct (Hall Hf) as [Hfs Ho].
      split; [simpl; f_equal; exact Hfs | rewrite Ho; simpl; by rewrite <- app_assoc].
    + split; [by apply prefix_cons, prefix_nil |].
      split; [apply stops_at_failure_cons; [by intros [] | apply stops_at_failure_last] |].
      split; [done |].
      intros [_ [Hf _]%Forall_cons]%Forall_cons; by destruct Hf.
Qed.

(** X10. How the upload loop ends.  An upload the storage refuses
    with a policy error (status 403 or 500, or a message about
    row-level security, a policy or an internal server error) only ends
    the loop: the keys uploaded so far are handed on and the request
    goes on.  The loop answers 500, with the message of the error as
    detail, only after an upload error of another kind, and it throws
    only what an upload threw; in both cases that upload is its last
    call. *)
Theorem upload_loop_outcome (prefix : string) (fs : list File) (i : nat)
    (imageKeys : list string) :
  always (upload_loop prefix i fs imageKeys) loop_outcome.
Proof.
  revert i imageKeys. induction fs as [| f fs IH]; intros i imageKeys; simpl.
  - apply Forall_nil_2.
  - intros now [[e |] | e]; simpl.
    + destruct (storage_policy_error e) eqn:He; simpl.
      * by repeat constructor.
      * by eexists [_], _, _, _.
    + eapply always_mono; [| apply IH].
      simpl. intros [[ks | resp] | e] tr H; simpl in *.
      * by repeat constructor.
      * destruct H as (tr' & key & f' & err & -> & He & ->).
        by eexists (_ :: _ :: tr'), _, _, _.
      * destruct H as (tr' & key & f' & ->). by eexists (_ :: _ :: tr'), _, _.
    + by eexists [_], _, _.
Qed.

(** *** The storage keys of one loop *)

Lemma pretty_N_char_digit (x : N) : is_digit (pretty_N_char x) = true.
Proof. unfold pretty_N_char. by repeat case_match. Qed.

Lemma pretty_N_go_digits (x : N) (s : string) :
  Forall (fun c => is_digit c = true) (chars s) ->
  Forall (fun c => is_digit c = true) (chars (pretty_N_go x s)).
Proof.
  revert s. induction (N.lt_wf_0 x) as [x _ IH]; intros s Hs.
  assert (x = 0 \/ 0 < x)%N as [-> | Hx] by lia.
  - by rewrite pretty_N_go_0.
  - rewrite pretty_N_go_step by done. apply IH.
    + by apply N.div_lt.
    + apply Forall_cons. split; [apply pretty_N_char_digit | done].
Qed.

Lemma pretty_nat_digits (n : nat) :
  Forall (fun c => is_digit c = true) (chars (pretty n)).
Proof.
  unfold pretty, pretty_nat, pretty, pretty_N. case_decide.
  - by apply Forall_singleton.
  - apply pretty_N_go_digits. apply Forall_nil_2.
Qed.

Lemma pretty_nat_without (c : ascii) (n : nat) :
  is_digit c = false -> c ∉ chars (pretty n).
Proof.
  intros Hc Hin. pose proof (pretty_nat_digits n) as Hd.
  rewrite Forall_forall in Hd. apply Hd in Hin. congruence.
Qed.

(** Two strings cut at the first occurrence of a character. *)
Lemma cut_at (c : ascii) (a a' r r' : string) :
  c ∉ chars a -> c ∉ chars a' ->
  a +:+ String c r = a' +:+ String c r' -> a = a' /\ r = r'.
Proof.
  revert a'. induction a as [| x a IH]; intros [| x' a']; simpl.
  - by intros _ _ [= ->].
  - intros _ [Hx _]%not_elem_of_cons [= <- _]. done.
  - intros [Hx _]%not_elem_of_cons _ [= -> _]. done.
  - intros [_ Ha]%not_elem_of_cons [_ Ha']%not_elem_of_cons [= -> Heq].
    destruct (IH a' Ha Ha' Heq) as [-> ->]. done.
Qed.

(** The index of the file can be read back from a key. *)
Lemma storage_key_index (prefix : string) (now now' i i' : nat) (ext ext' : string) :
  storage_key prefix now i ext = storage_key prefix now' i' ext' -> i = i'.
Proof.
  unfold storage_key. intros H%(inj (String.app prefix)).
  simpl in H. injection H as H.
  apply cut_at in H as [_ H]; [| by apply pretty_nat_without ..].
  apply cut_at in H as [H _]; [| by apply pretty_nat_without ..].
  by apply (inj pretty).
Qed.

Lemma upload_loop_keys_shape (prefix : string) (fs : list File) (i : nat)
    (imageKeys : list string) :
  always (upload_loop prefix i fs imageKeys)
    (fun _ tr =>
       forall k key f, upload_calls tr !! k = Some (key, f) ->
         exists now, key = storage_key prefix now (i + k) (file_ext (originalname f))).
Proof.
  revert i imageKeys. induction fs as [| f fs IH]; intros i imageKeys; simpl; [done |].
  intros now [[e |] | e]; simpl.
  - destruct (storage_policy_error e); simpl.
    all: intros [| k] key f' Hk; [| done].
    all: injection Hk as <- <-; exists now; by rewrite Nat.add_0_r.
  - eapply always_mono; [| apply IH].
    simpl. intros _ tr Htr [| k] key f' Hk.
    + injection Hk as <- <-. exists now. by rewrite Nat.add_0_r.
    + destruct (Htr k key f' Hk) as [now' ->]. exists now'.
      by rewrite Nat.add_succ_r.
  - intros [| k] key f' Hk; [| done].
    injection Hk as <- <-; exists now; by rewrite Nat.add_0_r.
Qed.

Lemma key_layout_NoDup (prefix : string) (tr : list Event) :
  key_layout prefix tr -> NoDup (upload_calls tr).*1.
Proof.
  intros H. apply NoDup_alt. intros k1 k2 key H1 H2.
  rewrite list_lookup_fmap in H1, H2.
  destruct (upload_calls tr !! k1) as [[key1 f1] |] eqn:E1; [| done].
  destruct (upload_calls tr !! k2) as [[key2 f2] |] eqn:E2; [| done].
  simpl in *. injection H1 as ->. injection H2 as ->.
  destruct (H _ _ _ E1) as [now1 Hk1]. destruct (H _ _ _ E2) as [now2 Hk2].
  rewrite Hk1 in Hk2. by apply storage_key_index in Hk2.
Qed.

Lemma is_str_Some (lit : string) (o : option string) :
  is_str lit o = true -> o = Some lit.
Proof. destruct o as [s |]; simpl; [| done]. by intros ->%String.eqb_eq. Qed.

(** An event that is equal to another makes the same call. *)
Ltac same_call H :=
  let Hc := fresh "Hc" in
  pose proof (f_equal ev_call H) as Hc; simpl in Hc;
  first [ discriminate Hc | injection Hc as Hc ].

(** ** The routes that take image files *)

Lemma no_upload_calls (tr : list Event) :
  count is_upload tr = 0 -> upload_calls tr = [].
Proof.
  induction tr as [| [c r] tr IH]; [done |].
  rewrite count_cons. destruct c; simpl; try done; apply IH.
Qed.

Lemma upload_calls_cons_other (e : Event) (tr : list Event) :
  is_upload (ev_call e) = false -> upload_calls (e :: tr) = upload_calls tr.
Proof. destruct e as [c r]. by destruct c. Qed.

Lemma upload_calls_nil : upload_calls [] = [].
Proof. done. Qed.

(** What the handlers need of the loop: it calls no database, hands on
    the keys of the uploads that succeeded, uploads no more than the
    files it is given, and lays the keys out under its prefix. *)
Lemma upload_loop_spec (prefix : string) (fs : list File) :
  always (upload_loop prefix 0 fs [])
    (fun o tr =>
       (count is_db tr = 0
        /\ forall ks, o = Ok (Uploaded ks) -> ks = [] ++ uploaded_keys tr)
       /\ key_layout prefix tr
       /\ count is_upload tr <= length fs).
Proof.
  apply always_and; [apply upload_loop_keys |].
  apply always_and.
  - eapply always_mono; [| apply (upload_loop_keys_shape prefix fs 0 [])].
    simpl. by intros _ tr H.
  - eapply always_mono; [| apply upload_loop_calls]. simpl. by intros _ tr (_ & H & _).
Qed.



Lemma existing_images_read (sel : DbResp Obj) (stored : list Val) :
  Products.existing_images (data sel) = Ok stored -> read_images sel stored.
Proof.
  unfold Products.existing_images, read_images.
  destruct (data sel) as [row |]; [| by intros [= <-]].
  destruct (prop row "images") as [| | b | n | s | l | o]; simpl.
  all: try by intros [= <-].
  - destruct b; [done | by intros [= <-]].
  - destruct (n =? 0)%Z; [by intros [= <-] | done].
  - destruct (String.eqb s ""); simpl; [by intros [= <-] | done].
Qed.

Opaque upload_loop.

Ltac post_step :=
  lazymatch goal with
  | |- forall _, _ => intro
  | |- always ?p _ =>
      let h := head_of p in
      lazymatch h with
      | upload_loop _ _ _ _ => spec_at p upload_loop_spec
      | Products.productWithAccessibleImages _ _ => spec_at p product_helper_quiet
      | Variations.variationWithAccessibleImages _ => spec_at p variations_helper_quiet
      | match ?x with _ => _ end => destruct x eqn:?
      end
  end.

Ltac post_exec :=
  repeat first [ progress simpl | progress unfold bind, try_catch
               | progress destruct_vars | post_step ].

(** X11. [POST /] of the products router checks nothing before it
    writes: its first call is always the insert of the row.  When the
    insert fails nothing else is called, so no file is stored for a
    product that was not created.  An update that follows writes to the
    inserted row the keys of the uploads that succeeded, and only
    [images]; there is no update when no upload succeeded. *)
Theorem products_post_calls (N : Val -> Val) (req : Request) :
  always (Products.post N req) (fun _ tr => product_created tr).
Proof.
  unfold Products.post, product_created. post_exec.
  all: rewrite ?app_nil_r.
  all: eexists _, _, _; split; [reflexivity |].
  all: split; [first [ done | by intros [] | simpl; congruence ] |].
  all: intros ? ? ? Hin Hact.
  all: repeat first [ rewrite elem_of_app in Hin | rewrite elem_of_cons in Hin
                    | rewrite elem_of_nil in Hin ].
  all: payload_events.
  all: simpl in Hact; first [ discriminate Hact | injection Hact as <- ].
  all: payload_keys.
  all: split; [done | split; [done |]].
  all: eexists _, _; split; [reflexivity | split; [eassumption | done]].
Qed.

Ltac layout_prefix :=
  simpl;
  repeat match goal with
    | H : data ?a = _ |- context [data ?a] => rewrite H
    end;
  reflexivity.

Ltac layout_close :=
  rewrite ?app_nil_r;
  unfold uploads_laid_out, key_layout;
  repeat first [ rewrite upload_calls_app
               | rewrite upload_calls_cons_other by reflexivity
               | rewrite upload_calls_nil ];
  repeat match goal with
    | |- context [upload_calls ?tr] => rewrite (no_upload_calls tr) by lia
    end;
  rewrite ?app_nil_r;
  first
    [ by intros []
    | intros _; eexists; split; [layout_prefix |];
      split; [eassumption | by eapply key_layout_NoDup] ].

(** X12. Where the files of a request go.  In each of the four routes
    that take image files the upload at position [k] is stored at
    [<folder>/<Date.now()>_<k>.<extension>], the folder being
    [products/<id>] (the id of the row just inserted, or of the path)
    or [variations/<product id>] (of the body, or of the stored
    variation, 'unknown' when it is not found); the position can be
    read back from the key, so no two files of a request share a key,
    even when the clock does not advance between two uploads. *)
Theorem upload_routes_layout (pf : Platform) (req : Request) (r : Route) :
  r ∈ upload_routes ->
  always (handler pf r req) (fun _ tr => uploads_laid_out r req tr).
Proof.
  unfold upload_routes. rewrite !elem_of_cons, elem_of_nil.
  intros [-> | [-> | [-> | [-> | []]]]]; unfold handler.
  - unfold Products.post. post_exec. all: layout_close.
  - unfold Products.put. post_exec. all: layout_close.
  - unfold Variations.post. post_exec. all: layout_close.
  - unfold Variations.put. post_exec. all: layout_close.
Qed.

Lemma upload_routes_layout_witness :
  always (handler example_platform ProductsPost post_product_request)
    (fun _ tr => uploads_laid_out ProductsPost post_product_request tr).
Proof.
  apply upload_routes_layout. unfold upload_routes. apply list_elem_of_here.
Defined.




(** ** Every request is answered *)


Ltac status_close :=
  unfold answered, well_formed, res_status_json, res_json, statuses,
         error_body, Settings.error_stack_body;
  simpl;
  repeat match goal with
    | H : status ?r = _ |- context [status ?r] => rewrite H
    | H : json ?r !! "error" = _ |- context [json ?r !! "error"] => rewrite H
    end;
  first
    [ reflexivity
    | split; [repeat first [ apply list_elem_of_here | apply list_elem_of_further ] |];
      split;
      [ first [ discriminate
              | intros _; rewrite ?lookup_insert_ne by done;
                first [ apply lookup_singleton_ne; done | apply lookup_empty ] ]
      | first [ by intros []
              | intros _; by eexists
              | intros _; rewrite ?lookup_insert_ne by done;
                first [ rewrite lookup_insert_eq | rewrite lookup_singleton_eq ];
                by eexists ] ] ].

Lemma handlers_answer (pf : Platform) (r : Route) (req : Request) :
  always (handler pf r req) (fun o _ => answered r o).
Proof.
  destruct r; unfold handler.
  all: unfold Products.post, Products.get_list, Products.get_one, Products.put,
    Products.delete, Variations.post, Variations.get_for_product, Variations.put,
    Variations.delete, Settings.get_all, Settings.get_key, Settings.put_key,
    Settings.post_upload, Settings.post_video, Settings.get_initialize, Settings.user_id.
  all: errors_exec.
  all: status_close.
Qed.

Ltac writes_images :=
  rewrite lookup_insert_eq; payload_keys;
  split; [split; [done | by eexists] |];
  intros ? [= <-];
  lazymatch goal with
  | H : Products.existing_images (data ?a) = Ok ?l |- _ =>
      exists a, l; split;
      [ repeat first [ rewrite elem_of_app | rewrite elem_of_cons ]; eauto 8
      | split; [by apply existing_images_read | reflexivity] ]
  end.

Ltac writes_no_images no_images :=
  rewrite no_images; payload_keys;
  split; [split; [by intros [? ?] | done] | done].

Ltac writes_close frame no_images :=
  rewrite ?app_nil_r;
  intros q ans changes Hin Hact;
  repeat first [ rewrite elem_of_app in Hin | rewrite elem_of_cons in Hin
               | rewrite elem_of_nil in Hin ];
  payload_events;
  try (simpl in Hact;
       first [ discriminate Hact
             | injection Hact as <-;
               split; [reflexivity |];
               split;
               [ intros f' Hne Hb; rewrite ?lookup_insert_ne by done; by apply frame
               | first [ writes_images | writes_no_images no_images ] ] ]).

(** X14. What [PUT /:id] of the products and of the variations router
    writes.  Every update is on the row of the path and names no column
    that is absent from the body, [images] apart.  [images] is written
    exactly when an upload succeeded: never without one, and always
    with one.  It is then the array the read of the stored images of
    that row gave (nothing when the read gave no row, or a row without
    images), followed by the new keys in the order of the uploads. *)
Theorem put_writes (N : Val -> Val) (req : Request) :
  always (Products.put N req) (fun _ tr => put_updates "products" req tr)
  /\ always (Variations.put N req)
       (fun _ tr => put_updates "product_variations" req tr).
Proof.
  split.
  - unfold Products.put. payload_exec.
    all: writes_close (put_changes_frame N) (put_changes_no_images N).
  - unfold Variations.put. payload_exec.
    all: writes_close (variation_changes_frame N) (variation_changes_no_images N).
Qed.

(** X15. Every request is answered, and in one shape: whatever the
    database and the storage answer or throw, a route ends with a
    response whose status is 200, 400, 403, 404 or 500 and whose body
    (the object handed to [json]) has an [error] property exactly when
    the status is not 200; the property holds [undefined] when the
    error it reports has no message.  The
    one exception is [DELETE /:id] of the products router, which has no
    [try]: when its database call rejects, so does the handler, and no
    response is written. *)
Theorem requests_answered (pf : Platform) (r : Route) (req : Request) :
  always (handle pf r req) (fun o _ => answered r o)
  /\ forall e, (serve (rejecting_service e) (handle pf ProductsDelete req)).1 = Thrown e.
Proof.
  split; [| done].
  unfold handle. destruct (router_of r) eqn:Hr; try apply handlers_answer.
  unfold Settings.table_check. simpl. intros [a | e]; simpl.
  all: eapply always_mono; [| apply handlers_answer]; by simpl.
Qed.

Transparent upload_loop.

(** ** The settings object, key by key *)

Lemma fold_settings_proto (rows : list Obj) (acc : Obj) :
  acc !! "__proto__" = None ->
  foldl Settings.add_setting acc rows !! "__proto__" = None.
Proof.
  revert acc. induction rows as [| row rows IH]; intros acc Hacc; simpl; [done |].
  apply IH. unfold Settings.add_setting.
  destruct (String.eqb_spec (to_str (prop row "key")) "__proto__") as [| Hne]; [done |].
  by rewrite lookup_insert_ne.
Qed.

(** X16. The object [GET /] of the settings router builds from the
    stored rows, key by key: a key holds the value and the type of the
    last row stored under it; the three background keys hold their
    default when no row is stored under them; any other key without a
    row is absent; and a row whose key is [__proto__] never shows. *)
Theorem settings_object_entries (rows : list Obj) (k : string) :
  Settings.settings_object rows !! k
  = if String.eqb k "__proto__" then None
    else match (list_to_map background_defaults : gmap string string) !! k with
         | Some d => Some (default (Settings.text_setting d) (stored_setting rows k))
         | None => stored_setting rows k
         end.
Proof.
  destruct (String.eqb_spec k "__proto__") as [-> | Hne].
  - unfold Settings.settings_object.
    rewrite !ensure_setting_other by done. by apply fold_settings_proto.
  - by apply settings_object_lookup.
Qed.

(** ** The settings routes that write *)

Ltac upsert_close :=
  match goal with
  | Hin : Ev (CDbOne ?q) _ ∈ _, Hact : action ?q = Insert _ |- _ =>
      repeat first [ rewrite elem_of_cons in Hin | rewrite elem_of_nil in Hin ];
      repeat match goal with
        | H : _ \/ _ |- _ => destruct H
        | H : False |- _ => destruct H
        end;
      match goal with
      | H : Ev (CDbOne _) _ = Ev _ _ |- _ => same_call H; try subst q
      end;
      try discriminate Hact
  end.

(** X17. [PUT /:key] of the settings router: without a [value] in the
    body it answers 400 and calls nothing; otherwise it creates the
    setting only after its update matched no row (the database answered
    PGRST116), and what it creates is the key with the value of the
    body and the type 'text'. *)
Theorem put_key_upsert (toISOString : nat -> string) (req : Request) :
  always (Settings.put_key toISOString req)
    (fun o tr =>
       match body req !! "value" with
       | None =>
           tr = []
           /\ o = Ok (res_status_json 400 {[ "error" := VStr "Valor é obrigatório" ]})
       | Some value => upsert_calls (Settings.key_param req) value tr
       end).
Proof.
  unfold Settings.put_key, Settings.user_id.
  destruct (body req !! "value") as [value |]; [| done].
  unfold upsert_calls. exec.
  all: upsert_close.
  all: match goal with
       | H : Ev _ _ = Ev _ _ |- _ => rewrite H
       end.
  all: eexists _, _, _; split; [reflexivity |].
  all: split; [eexists _, _, _; split; [reflexivity |]; split; [done |];
               split; [eassumption | by apply is_str_Some] |].
  all: by repeat split.
Qed.

Ltac update_cases :=
  match goal with
  | Hin : Ev (CDbOne ?q) _ ∈ _, Hact : action ?q = Update _ |- _ =>
      repeat first [ rewrite elem_of_cons in Hin | rewrite elem_of_nil in Hin ];
      repeat match goal with
        | H : _ \/ _ |- _ => destruct H
        | H : False |- _ => destruct H
        end;
      match goal with
      | H : Ev (CDbOne _) _ = Ev _ _ |- _ => same_call H; try subst q
      end;
      first [ discriminate Hact | simpl in Hact; injection Hact as <- ]
  end.

(** X18. [POST /:key/upload] of the settings router sends a file to
    the storage only after the select found the setting, and then the
    file of the request, once; it updates the setting only after the
    storage accepted the file, and writes the public URL the storage
    service returned for the key of that file, with the type 'image'. *)
Theorem post_upload_guarded (extname : string -> string) (toISOString : nat -> string)
    (development : bool) (req : Request) :
  always (Settings.post_upload extname toISOString development req)
    (fun _ tr => upload_guarded req tr).
Proof.
  unfold Settings.post_upload, Settings.user_id, upload_guarded. exec.
  all: rewrite ?app_nil_r.
  all: split; [simpl; first [ done | intros _; eexists _, _, _, _; by repeat split ] |].
  all: intros ? ? ? Hin Hact.
  all: try by apply elem_of_nil in Hin.
  all: update_cases.
  all: eexists _, _; split; [reflexivity |].
  all: split; [repeat first [ apply list_elem_of_here | apply list_elem_of_further ] |].
  all: by repeat split.
Qed.

Lemma key_exists_spec (existingKeys : list Val) (k : string) :
  Settings.key_exists existingKeys k = true <-> VStr k ∈ existingKeys.
Proof.
  unfold Settings.key_exists. induction existingKeys as [| v l IH]; simpl.
  - split; [done | by intros ?%elem_of_nil].
  - rewrite orb_true_iff, IH, elem_of_cons. split.
    + intros [H | H]; [left | by right]. destruct v; try done.
      by apply String.eqb_eq in H as ->.
    + intros [<- | H]; [left | by right]. apply String.eqb_refl.
Qed.

Lemma key_exists_false (existingKeys : list Val) (k : string) :
  Settings.key_exists existingKeys k = false <-> VStr k ∉ existingKeys.
Proof. rewrite <- key_exists_spec. by destruct (Settings.key_exists _ _). Qed.

(** X19. [GET /initialize] never writes over a stored setting: after
    the select of the stored keys it inserts exactly the default rows
    whose key the select did not return, in one insert, and it makes no
    insert at all when all six keys are stored.  (When the select
    returns an error instead of rows, all six defaults are inserted.) *)
Theorem initialize_inserts_missing (req : Request) :
  always (Settings.get_initialize req) (fun _ tr => initialize_calls tr).
Proof.
  unfold Settings.get_initialize, try_catch, bind. simpl.
  unfold initialize_calls.
  intros [r | e]; simpl; [| by exists (Thrown e)].
  fold (existing_keys r).
  destruct (filter _ Settings.defaultSettings) as [| d ds] eqn:Hf; simpl.
  - exists (Ok r). left. split; [| done]. apply Forall_forall. intros d Hd.
    apply key_exists_spec. destruct (Settings.key_exists _ _) eqn:Hk; [done |].
    assert (d ∈ filter (fun d => Settings.key_exists (existing_keys r) d.1 = false)
                  Settings.defaultSettings) as Hin by by apply list_elem_of_filter.
    rewrite Hf in Hin. by apply elem_of_nil in Hin.
  - assert (forall a : Outcome (DbResp (list Obj)),
      exists rows a',
        [ Ev (CDbMany select_keys) (Ok r);
          Ev (CDbMany (mkQuery "site_settings"
                (Insert (Settings.default_row d :: (Settings.default_row <$> ds))) [])) a ]
        = [ Ev (CDbMany select_keys) (Ok r);
            Ev (CDbMany (mkQuery "site_settings" (Insert rows) [])) a' ]
        /\ rows <> []
        /\ forall row, row ∈ rows <->
             exists d, d ∈ Settings.defaultSettings
                       /\ (VStr d.1 ∉ existing_keys r)
                       /\ row = Settings.default_row d) as Hins.
    { intros a. eexists _, a. split; [reflexivity |]. split; [done |].
      intros row. change (Settings.default_row d :: (Settings.default_row <$> ds))
        with (Settings.default_row <$> (d :: ds)).
      rewrite <- Hf, list_elem_of_fmap. split.
      - intros (d' & -> & [Hk Hd]%list_elem_of_filter). exists d'.
        by rewrite <- key_exists_false.
      - intros (d' & Hd & Hk & ->). exists d'. split; [done |].
        apply list_elem_of_filter. by rewrite key_exists_false. }
    intros [i | e]; simpl; [destruct (error i); simpl |]; exists (Ok r); right; apply Hins.
Qed.

(** ** Routes that are never reached *)

Ltac route_cases H :=
  simpl in H;
  repeat match type of H with
    | context [String.eqb ?a ?b] =>
        destruct (String.eqb_spec a b); try subst; simpl in H
    end;
  try done.

Ltac reach m path :=
  exists m, path; eexists; reflexivity.

(** X20. In the settings router two routes are shadowed by routes
    registered before them: [POST /site_background_video/upload] is
    taken by [POST /:key/upload] with the key [site_background_video],
    and [GET /initialize] by [GET /:key] with the key [initialize]; no
    request reaches the video upload or the initialisation.  Every
    route of the products and of the variations router is reached by
    some request. *)
Theorem shadowed_routes :
  (forall m path, ~ exists ps, dispatch settings_routes m path = Some (SettingsVideo, ps))
  /\ (forall m path, ~ exists ps, dispatch settings_routes m path = Some (SettingsInitialize, ps))
  /\ dispatch settings_routes POST [ "site_background_video"; "upload" ]
     = Some (SettingsUpload, {[ "key" := "site_background_video" ]})
  /\ dispatch settings_routes GET [ "initialize" ]
     = Some (SettingsGetKey, {[ "key" := "initialize" ]})
  /\ Forall (fun e => reachable products_routes e.2) products_routes
  /\ Forall (fun e => reachable variations_routes e.2) variations_routes.
Proof.
  split; [| split; [| split; [| split; [| split]]]].
  - intros m path [ps H].
    destruct m, path as [| s [| s2 [| s3 path]]]; route_cases H.
  - intros m path [ps H].
    destruct m, path as [| s [| s2 [| s3 path]]]; route_cases H.
  - reflexivity.
  - reflexivity.
  - unfold products_routes at 2. repeat apply Forall_cons_2; [.. | apply Forall_nil_2]; simpl.
    + reach POST (@nil string).
    + reach GET (@nil string).
    + reach GET [ "p1" ].
    + reach PUT [ "p1" ].
    + reach DELETE [ "p1" ].
  - unfold variations_routes at 2. repeat apply Forall_cons_2; [.. | apply Forall_nil_2]; simpl.
    + reach POST (@nil string).
    + reach GET [ "product"; "p1" ].
    + reach PUT [ "v1" ].
    + reach DELETE [ "v1" ].
Qed.
